(** * South African Casino: the rules engine of [casino_game.py]

    A shallow embedding of the move-legality and state-transition core
    of [SouthAfricanCasinoGame]: the card model, the value resolution
    ([calculate_total]), the capture and build enumeration, the
    execution of captures and builds on the shared layout, the end of
    hand and the scoring.

    Python objects that are mutated in place ([Build]) live in an arena
    ([store]) and are referred to by their index; immutable values
    ([Card]) are plain data.  Functions that mutate the game return the
    new game together with what the call did: a returned value or a
    raised exception. *)

From stdpp Require Import gmap list sorting fin_sets strings.

Local Open Scope Z_scope.

(** ** Cards *)

Inductive Suit := SPADES | HEARTS | DIAMONDS | CLUBS.

(** The thirteen rank strings ['2'] .. ['10'], ['J'], ['Q'], ['K'], ['A']
    that [_create_deck] uses. *)
Inductive Rank :=
  | R2 | R3 | R4 | R5 | R6 | R7 | R8 | R9 | R10 | RJ | RQ | RK | RA.

Record Card := mkCard { rank : Rank; suit : Suit }.

#[global] Instance Suit_eq_dec : EqDecision Suit.
Proof. solve_decision. Defined.
#[global] Instance Rank_eq_dec : EqDecision Rank.
Proof. solve_decision. Defined.
#[global] Instance Card_eq_dec : EqDecision Card.
Proof. solve_decision. Defined.

(** [int(self.rank)] on the ranks 2-10. *)
Definition rank_int (r : Rank) : Z :=
  match r with
  | R2 => 2 | R3 => 3 | R4 => 4 | R5 => 5 | R6 => 6
  | R7 => 7 | R8 => 8 | R9 => 9 | R10 => 10
  | RJ => 11 | RQ => 12 | RK => 13 | RA => 1
  end.

(** [Card._set_values]: the list [values] and the hand value
    [numeric_value]. *)
Definition values (c : Card) : list Z :=
  match rank c with
  | RA => [1; 14]
  | RJ => [11]
  | RQ => [12]
  | RK => [13]
  | r => [rank_int r]
  end.

Definition numeric_value (c : Card) : Z :=
  match rank c with
  | RA => 1
  | RJ => 11
  | RQ => 12
  | RK => 13
  | r => rank_int r
  end.

(** ** Value resolution *)

(** One pass of the outer loop of [calculate_total]: every running
    total is extended by every value of [card]. *)
Definition extend_totals (totals : gset Z) (card : Card) : gset Z :=
  set_bind (λ total, list_to_set ((λ value, total + value) <$> values card)) totals.

(** [calculate_total]: the running set starts as [{0}]; the result is
    [sorted(list(totals))]. *)
Definition calculate_total (cards : list Card) : list Z :=
  merge_sort Z.le (elements (foldl extend_totals {[0]} cards)).

(** The sum of one chosen value per card. *)
Definition sum_values (vs : list Z) : Z := foldr Z.add 0 vs.

(** [vs] picks, position by position, one of the values of each card. *)
Definition choice_of (cards : list Card) (vs : list Z) : Prop :=
  Forall2 (λ c v, v ∈ values c) cards vs.

(** ** Python lists and exceptions *)

(** The exceptions the modelled code can raise. *)
Inductive Exn := ValueError | IndexError | KeyError | TypeError | EOFError.

(** What a call did: it returned a value or raised. *)
Inductive Outcome (A : Type) :=
  | Returned (a : A)
  | Raised (e : Exn).
Arguments Returned {A} a.
Arguments Raised {A} e.

#[global] Instance Exn_eq_dec : EqDecision Exn.
Proof. solve_decision. Defined.
#[global] Instance Outcome_eq_dec `{EqDecision A} : EqDecision (Outcome A).
Proof. solve_decision. Defined.

(** [list.remove(x)]: the first element equal to [x] is dropped;
    [None] stands for the [ValueError] raised when there is none. *)
Fixpoint py_remove {A} (eqb : A → A → bool) (x : A) (l : list A) : option (list A) :=
  match l with
  | [] => None
  | y :: l' => if eqb y x then Some l' else (y ::.) <$> py_remove eqb x l'
  end.

(** [list.pop(i)] with Python's negative indices; [None] stands for
    [IndexError]. *)
Definition py_pop {A} (l : list A) (i : Z) : option (A * list A) :=
  let j := if decide (i < 0) then i + Z.of_nat (length l) else i in
  if decide (0 ≤ j < Z.of_nat (length l))
  then (λ x, (x, delete (Z.to_nat j) l)) <$> l !! Z.to_nat j
  else None.

(** [itertools.combinations(l, r)]: the [r]-element subsequences of
    [l], in the lexicographic order of their positions. *)
Fixpoint combinations {A} (l : list A) (r : nat) : list (list A) :=
  match l with
  | [] => match r with O => [[]] | S _ => [] end
  | x :: l' =>
      match r with
      | O => [[]]
      | S r' => ((x ::.) <$> combinations l' r') ++ combinations l' r
      end
  end.

(** ** Builds, layout, players *)

(** [Build] (a dataclass, compared field by field by [==]). *)
Record Build := mkBuild {
  cards : list Card;
  total_value : Z;
  owner : nat;
  is_augmented : bool
}.

#[global] Instance Build_eq_dec : EqDecision Build.
Proof. solve_decision. Defined.
#[global] Instance Build_inhabited : Inhabited Build :=
  populate (mkBuild [] 0 0 false).

(** A layout entry: a loose card, or a reference to a [Build] object,
    which is its index in the arena of the game. *)
Inductive Item :=
  | ICard (c : Card)
  | IBuild (h : nat).

#[global] Instance Item_eq_dec : EqDecision Item.
Proof. solve_decision. Defined.

(** [Player]; [self.id] is the position in [self.players]. *)
Record Player := mkPlayer {
  hand : list Card;
  capture_pile : list Card;
  is_ai : bool;
  last_capture : bool
}.

#[global] Instance Player_eq_dec : EqDecision Player.
Proof. solve_decision. Defined.
#[global] Instance Player_inhabited : Inhabited Player :=
  populate (mkPlayer [] [] false false).

(** The game object.  [store] holds every [Build] object created so
    far; the statistics lists ([turn_history], [captures_this_turn],
    [builds_created]) and [game_phase] are write-only in the source and
    left out. *)
Record Game := mkGame {
  num_players : nat;
  partnerships : option (list (nat * nat));
  deck : list Card;
  players : list Player;
  layout : list Item;
  store : list Build;
  current_player : nat
}.

Definition is_partnership_game (g : Game) : bool :=
  bool_decide (partnerships g ≠ None).

Definition set_layout (g : Game) (l : list Item) : Game :=
  mkGame (num_players g) (partnerships g) (deck g) (players g) l (store g)
         (current_player g).
Definition set_players (g : Game) (ps : list Player) : Game :=
  mkGame (num_players g) (partnerships g) (deck g) ps (layout g) (store g)
         (current_player g).
Definition set_store (g : Game) (σ : list Build) : Game :=
  mkGame (num_players g) (partnerships g) (deck g) (players g) (layout g) σ
         (current_player g).
Definition set_deck (g : Game) (d : list Card) : Game :=
  mkGame (num_players g) (partnerships g) d (players g) (layout g) (store g)
         (current_player g).
Definition set_current_player (g : Game) (i : nat) : Game :=
  mkGame (num_players g) (partnerships g) (deck g) (players g) (layout g)
         (store g) i.

Definition set_hand (h : list Card) (p : Player) : Player :=
  mkPlayer h (capture_pile p) (is_ai p) (last_capture p).
Definition set_last_capture (b : bool) (p : Player) : Player :=
  mkPlayer (hand p) (capture_pile p) (is_ai p) b.

(** [Player.add_to_hand], [Player.capture_cards], [Player.get_top_card],
    [Player.count_cards], [Player.count_spades], [Player.has_card]. *)
Definition add_to_hand (c : Card) (p : Player) : Player :=
  set_hand (hand p ++ [c]) p.
Definition capture_cards (cs : list Card) (p : Player) : Player :=
  mkPlayer (hand p) (capture_pile p ++ cs) (is_ai p) (last_capture p).
Definition get_top_card (p : Player) : option Card := last (capture_pile p).
Definition count_cards (p : Player) : Z := Z.of_nat (length (capture_pile p)).
Definition count_spades (p : Player) : Z :=
  Z.of_nat (length (filter (λ c, suit c = SPADES) (capture_pile p))).
Definition has_card (p : Player) (card : Card) : bool :=
  existsb (λ c, bool_decide (c = card)) (hand p).

(** [Player.play_card]. *)
Definition play_card (p : Player) (card_index : Z) : Outcome (Card * Player) :=
  if decide (0 ≤ card_index < Z.of_nat (length (hand p)))
  then match py_pop (hand p) card_index with
       | Some (c, h) => Returned (c, set_hand h p)
       | None => Raised IndexError
       end
  else Raised IndexError.

(** [x == y] on layout entries: a card never equals a build; two build
    references are equal when they are the same object or when the two
    objects have equal fields. *)
Definition item_eqb (σ : list Build) (x y : Item) : bool :=
  match x, y with
  | ICard a, ICard b => bool_decide (a = b)
  | IBuild h, IBuild k => bool_decide (h = k) || bool_decide (σ !!! h = σ !!! k)
  | _, _ => false
  end.

(** The cards an entry stands for: the card itself, or the member
    cards of the build. *)
Definition item_cards (σ : list Build) (it : Item) : list Card :=
  match it with
  | ICard c => [c]
  | IBuild h => cards (σ !!! h)
  end.

(** [get_loose_cards], [get_builds], [get_owned_builds]. *)
Definition loose_of (l : list Item) : list Card :=
  omap (λ it, match it with ICard c => Some c | IBuild _ => None end) l.
Definition builds_of (l : list Item) : list nat :=
  omap (λ it, match it with ICard _ => None | IBuild h => Some h end) l.
Definition get_loose_cards (g : Game) : list Card := loose_of (layout g).
Definition get_builds (g : Game) : list nat := builds_of (layout g).
Definition get_owned_builds (g : Game) (player_id : nat) : list nat :=
  filter (λ h, owner (store g !!! h) = player_id) (get_builds g).

(** [_are_partners] and [_get_partner_id]. *)
Definition _are_partners (g : Game) (player1_id player2_id : nat) : bool :=
  match partnerships g with
  | None | Some [] => false
  | Some pairs =>
      existsb (λ pair : nat * nat,
                 bool_decide (({[pair.1; pair.2]} : gset nat) = {[player1_id; player2_id]}))
              pairs
  end.

Fixpoint partner_in (pairs : list (nat * nat)) (player_id : nat) : option nat :=
  match pairs with
  | [] => None
  | (p1, p2) :: rest =>
      if decide (p1 = player_id) then Some p2
      else if decide (p2 = player_id) then Some p1
      else partner_in rest player_id
  end.

Definition _get_partner_id (g : Game) (player_id : nat) : option nat :=
  match partnerships g with
  | None => None
  | Some pairs => partner_in pairs player_id
  end.

(** ** Capture search *)

(** [find_captures]: the three passes of the source, in its order.
    The [player] argument of the source is not read. *)
Definition find_captures (g : Game) (played_card : Card) : list (list Item) :=
  let all_targets := (ICard <$> get_loose_cards g) ++ (IBuild <$> get_builds g) in
  let single_matches :=
    target ← all_targets;
    match target with
    | ICard c =>
        if decide (numeric_value played_card = numeric_value c) then [[target]] else []
    | IBuild h =>
        if decide (numeric_value played_card = total_value (store g !!! h))
        then [[target]] else []
    end in
  let loose_cards := get_loose_cards g in
  let n := length loose_cards in
  let loose_sums :=
    r ← seq 2 (n - 1);
    combo ← combinations loose_cards r;
    if decide (numeric_value played_card ∈ calculate_total combo)
    then [ICard <$> combo] else [] in
  let with_build :=
    build ← get_builds g;
    combo ← combinations loose_cards 1;
    let combo_list := (ICard <$> combo) ++ [IBuild build] in
    let totals := calculate_total (loose_of combo_list) in
    let adjusted_totals := (λ t, t + total_value (store g !!! build)) <$> totals in
    if decide (numeric_value played_card ∈ adjusted_totals) then [combo_list] else [] in
  single_matches ++ loose_sums ++ with_build.

(** ** Build legality *)

(** A build configuration is a Python dict; a field is [None] when the
    key is absent. *)
Record BuildConfig := mkConfig {
  cfg_type : option string;
  cfg_cards : option (list Card);
  cfg_played_card : option Card;
  cfg_total_value : option Z;
  cfg_build : option nat;
  cfg_new_total : option Z;
  cfg_action : option string;
  cfg_augmenting_card : option Card;
  cfg_cards_used : option (list Card)
}.

#[global] Instance BuildConfig_eq_dec : EqDecision BuildConfig.
Proof. solve_decision. Defined.

(** The three dicts the source builds. *)
Definition single_config (combo_cards : list Card) (played_card : Card) (total : Z) : BuildConfig :=
  mkConfig (Some "single"%string) (Some combo_cards) (Some played_card) (Some total)
           None None None None None.
Definition change_config (build : nat) (played_card : Card) (new_total : Z) : BuildConfig :=
  mkConfig None None (Some played_card) None (Some build) (Some new_total)
           (Some "change_opponent_build"%string) None (Some [played_card]).
Definition augment_config (build : nat) (played_card card : Card) : BuildConfig :=
  mkConfig None None (Some played_card) None (Some build) None
           (Some "augment_own_build"%string) (Some card) (Some [played_card; card]).

(** The values the player can still capture with: the hand without the
    cards equal to the played one. *)
Definition available_capture_values (p : Player) (played_card : Card) : list Z :=
  numeric_value <$> filter (λ card, card ≠ played_card) (hand p).

(** The inner loop of [can_create_build]: the first total, in the order
    of [totals], that is among the available values ([break]). *)
Fixpoint first_capturable (available : list Z) (totals : list Z) : option Z :=
  match totals with
  | [] => None
  | total :: rest =>
      if decide (total ∈ available) then Some total
      else first_capturable available rest
  end.

(** [can_create_build] for the player at position [pi]. *)
Definition can_create_build (g : Game) (played_card : Card) (pi : nat) : list BuildConfig :=
  let loose_cards := get_loose_cards g in
  let available := available_capture_values (players g !!! pi) played_card in
  r ← seq 1 (length loose_cards);
  combo_cards ← combinations loose_cards r;
  let all_cards := combo_cards ++ [played_card] in
  let totals := calculate_total all_cards in
  match first_capturable available totals with
  | Some total => [single_config combo_cards played_card total]
  | None => []
  end.

(** The top cards of the capture piles of the players who are neither
    the player nor a partner. *)
Definition opponent_top_cards (g : Game) (pi : nat) : list Card :=
  '(i, opp_player) ← imap pair (players g);
  if bool_decide (i ≠ pi) && (negb (is_partnership_game g) || negb (_are_partners g pi i))
  then match get_top_card opp_player with Some top_card => [top_card] | None => [] end
  else [].

(** [can_augment_build] for the player at position [pi]. *)
Definition can_augment_build (g : Game) (played_card : Card) (pi : nat) : list BuildConfig :=
  let tops := opponent_top_cards g pi in
  build ← get_builds g;
  let b := store g !!! build in
  (if bool_decide (owner b ≠ pi) &&
      (negb (is_partnership_game g) || negb (_are_partners g pi (owner b)))
   then
     let new_totals := calculate_total (cards b ++ [played_card]) in
     let available := available_capture_values (players g !!! pi) played_card in
     new_total ← new_totals;
     if decide (new_total ∈ available)
     then [change_config build played_card new_total] else []
   else [])
  ++
  (if bool_decide (owner b = pi) ||
      (is_partnership_game g && _are_partners g pi (owner b))
   then
     let available_cards := get_loose_cards g ++ tops in
     card ← available_cards;
     card_value ← values card;
     if decide (card_value = total_value b)
     then [augment_config build played_card card] else []
   else []).

(** ** Execution *)

(** The removal loop of [execute_capture]: every item adds its cards to
    [cards_to_capture] and is then removed from the layout.  When
    [list.remove] raises, the removals made so far stay. *)
Fixpoint capture_loop (σ : list Build) (capture_group : list Item)
    (lay : list Item) (cards_to_capture : list Card)
    : list Item * Outcome (list Card) :=
  match capture_group with
  | [] => (lay, Returned cards_to_capture)
  | item :: rest =>
      let cards_to_capture := cards_to_capture ++ item_cards σ item in
      match py_remove (item_eqb σ) item lay with
      | None => (lay, Raised ValueError)
      | Some lay' => capture_loop σ rest lay' cards_to_capture
      end
  end.

(** The player at [pi] is marked as the last to capture, every other
    player is unmarked. *)
Definition mark_last_capture (pi : nat) (ps : list Player) : list Player :=
  alter (set_last_capture true) pi (set_last_capture false <$> ps).

(** [execute_capture] for the player at position [pi]. *)
Definition execute_capture (g : Game) (pi : nat) (played_card : Card)
    (capture_group : list Item) : Game * Outcome bool :=
  match capture_group with
  | [] => (g, Returned false)
  | _ =>
      match capture_loop (store g) capture_group (layout g) [] with
      | (lay, Raised e) => (set_layout g lay, Raised e)
      | (lay, Returned cards_to_capture) =>
          let all_captured := played_card :: cards_to_capture in
          let ps := alter (capture_cards all_captured) pi (players g) in
          (set_players (set_layout g lay) (mark_last_capture pi ps), Returned true)
      end
  end.

(** The loop [for card in build_config['cards']: self.layout.remove(card)]. *)
Fixpoint remove_cards (σ : list Build) (cs : list Card) (lay : list Item)
    : list Item * Outcome () :=
  match cs with
  | [] => (lay, Returned ())
  | card :: rest =>
      match py_remove (item_eqb σ) (ICard card) lay with
      | None => (lay, Raised ValueError)
      | Some lay' => remove_cards σ rest lay'
      end
  end.

(** [build.cards.append(..)] and the assignments to the fields of the
    build object at [h].  (A reference is to an object of the arena;
    [alter] leaves the arena alone for an index outside it.) *)
Definition update_build (f : Build → Build) (h : nat) (g : Game) : Game :=
  set_store g (alter f h (store g)).

(** [execute_build] for the player at position [pi].  A missing key
    raises [KeyError] at the place the source reads it. *)
Definition execute_build (g : Game) (pi : nat) (played_card : Card)
    (build_config : BuildConfig) : Game * Outcome bool :=
  let build_type := default "single"%string (cfg_type build_config) in
  if decide (build_type = "single"%string) then
    match cfg_cards build_config with
    | None => (g, Raised KeyError)
    | Some config_cards =>
        let build_cards := config_cards ++ [played_card] in
        match cfg_total_value build_config with
        | None => (g, Raised KeyError)
        | Some total =>
            let new_build := mkBuild build_cards total pi false in
            match remove_cards (store g) config_cards (layout g) with
            | (lay, Raised e) => (set_layout g lay, Raised e)
            | (lay, Returned _) =>
                let h := length (store g) in
                (set_store (set_layout g (lay ++ [IBuild h])) (store g ++ [new_build]),
                 Returned true)
            end
        end
    end
  else
    match cfg_action build_config with
    | None => (g, Returned false)
    | Some action =>
        if decide (action = "change_opponent_build"%string) then
          match cfg_build build_config with
          | None => (g, Raised KeyError)
          | Some build =>
              let g1 := update_build
                (λ b, mkBuild (cards b ++ [played_card]) (total_value b) (owner b)
                              (is_augmented b)) build g in
              match cfg_new_total build_config with
              | None => (g1, Raised KeyError)
              | Some new_total =>
                  (update_build
                     (λ b, mkBuild (cards b) new_total pi (is_augmented b)) build g1,
                   Returned true)
              end
          end
        else if decide (action = "augment_own_build"%string) then
          match cfg_build build_config with
          | None => (g, Raised KeyError)
          | Some build =>
              match cfg_augmenting_card build_config with
              | None => (g, Raised KeyError)
              | Some augmenting_card =>
                  let lay :=
                    if decide (augmenting_card ∈ get_loose_cards g)
                    then default (layout g)
                           (py_remove (item_eqb (store g)) (ICard augmenting_card) (layout g))
                    else layout g in
                  (update_build
                     (λ b, mkBuild (cards b ++ [played_card; augmenting_card])
                                   (total_value b) (owner b) true)
                     build (set_layout g lay),
                   Returned true)
              end
          end
        else (g, Returned false)
    end.

(** [discard_card]. *)
Definition discard_card (g : Game) (played_card : Card) : Game :=
  set_layout g (layout g ++ [ICard played_card]).

(** [check_game_over]. *)
Definition check_game_over (g : Game) : bool :=
  forallb (λ p, bool_decide (length (hand p) = 0%nat)) (players g).

(** [end_of_hand_cleanup]: the first player marked [last_capture]
    takes what is left on the layout. *)
Definition end_of_hand_cleanup (g : Game) : Game :=
  match list_find (λ p, last_capture p = true) (players g) with
  | Some (i, _) =>
      match layout g with
      | [] => g
      | _ =>
          let remaining_cards := layout g ≫= item_cards (store g) in
          let ps :=
            match remaining_cards with
            | [] => players g
            | _ => alter (capture_cards remaining_cards) i (players g)
            end in
          set_layout (set_players g ps) []
      end
  | None => g
  end.

(** ** Construction and set-up *)

Definition suits : list Suit := [SPADES; HEARTS; DIAMONDS; CLUBS].
Definition ranks (use_40_card_deck : bool) : list Rank :=
  if use_40_card_deck
  then [R2; R3; R4; R5; R6; R7; R8; R9; R10; RA]
  else [R2; R3; R4; R5; R6; R7; R8; R9; R10; RJ; RQ; RK; RA].

(** The deck of [_create_deck] before [random.shuffle]. *)
Definition fresh_deck (use_40_card_deck : bool) : list Card :=
  suit ← suits; rank ← ranks use_40_card_deck; [mkCard rank suit].

(** [__init__]: [shuffled] is the order [random.shuffle] left the deck
    in, a permutation of [fresh_deck]. *)
Definition new_game (n : nat) (parts : option (list (nat * nat)))
    (shuffled : list Card) : Outcome Game :=
  if decide (n ∈ [2; 3; 4]%nat)
  then Returned (mkGame n parts shuffled (replicate n (mkPlayer [] [] false false)) [] [] 0)
  else Raised ValueError.

(** [_cut_deck]: [self.deck.pop(start)], four times. *)
Fixpoint pop_times (k : nat) (start : Z) (d : list Card) (cut : list Card)
    : list Card * Outcome (list Card) :=
  match k with
  | O => (d, Returned cut)
  | S k' =>
      match py_pop d start with
      | None => (d, Raised IndexError)
      | Some (c, d') => pop_times k' start d' (cut ++ [c])
      end
  end.

Definition _cut_deck (g : Game) : Game * Outcome (list Card) :=
  let middle := Z.of_nat (length (deck g)) `div` 2 in
  let start := middle - 2 in
  let '(d, r) := pop_times 4 start (deck g) [] in
  (set_deck g d, r).

(** The dealing loop: the cards leave the end of the deck one by one
    and go to the players in turn.  [cs] is the deck in the order the
    cards are popped, [k] counts the cards dealt.  (With no player the
    loop of the source does not end; [new_game] makes two to four.) *)
Fixpoint deal (cs : list Card) (k : nat) (ps : list Player) : list Player :=
  match cs with
  | [] => ps
  | c :: cs' => deal cs' (S k) (alter (add_to_hand c) (k mod length ps)%nat ps)
  end.

(** [setup_game]. *)
Definition setup_game (g : Game) : Game * Outcome () :=
  match _cut_deck g with
  | (g1, Raised e) => (g1, Raised e)
  | (g1, Returned layout_cards) =>
      let g2 := set_layout g1 (layout g1 ++ (ICard <$> layout_cards)) in
      let g3 := set_deck (set_players g2 (deal (reverse (deck g2)) 0 (players g2))) [] in
      (set_current_player g3 0, Returned ())
  end.

(** ** Turns *)

(** What [input()] does at a prompt: it raises [EOFError], or it
    returns a line; [Line None] is a line that [int] does not parse. *)
Inductive Answer :=
  | Eof
  | Line (n : option Z).

(** What standard input holds for the two prompts of a turn. *)
Record TurnInput := mkTurnInput {
  card_input : Answer;
  action_input : Answer
}.

(** Both prompts are answered. *)
Definition mkInput (card_line action_line : option Z) : TurnInput :=
  mkTurnInput (Line card_line) (Line action_line).

(** The entries of the [actions] menu. *)
Inductive Action :=
  | ACapture (capture_group : list Item)
  | ABuild (build_config : BuildConfig)
  | AAugment (augment_config : BuildConfig)
  | ADiscard.

(** The move of [get_ai_move]. *)
Inductive AiAction :=
  | AiCapture (target : list Item)
  | AiBuild (config : BuildConfig)
  | AiDiscard.

(** The first card of the hand, with its position, for which [options]
    is not empty, and the first of the options. *)
Definition first_option {A} (options : Card → list A) (h : list Card) : option (nat * A) :=
  head ('(i, card) ← imap pair h;
        match options card with
        | [] => []
        | o :: _ => [(i, o)]
        end).

(** [get_ai_move]. *)
Definition get_ai_move (g : Game) (pi : nat) : option (nat * AiAction) :=
  let h := hand (players g !!! pi) in
  match h with
  | [] => None
  | _ =>
      match first_option (find_captures g) h with
      | Some (i, target) => Some (i, AiCapture target)
      | None =>
          match first_option (λ card, can_create_build g card pi) h with
          | Some (i, config) => Some (i, AiBuild config)
          | None => Some (0%nat, AiDiscard)
          end
      end
  end.

Definition set_player (g : Game) (pi : nat) (p : Player) : Game :=
  set_players g (<[pi := p]> (players g)).

(** The [try] around the action of a human player: a [ValueError]
    ends in a discard, any other exception leaves the turn. *)
Definition or_discard (played_card : Card) (r : Game * Outcome bool) : Game * Outcome () :=
  match r with
  | (g, Returned _) => (g, Returned ())
  | (g, Raised ValueError) => (discard_card g played_card, Returned ())
  | (g, Raised e) => (g, Raised e)
  end.

Definition forget {A} (r : Game * Outcome A) : Game * Outcome () :=
  match r with
  | (g, Returned _) => (g, Returned ())
  | (g, Raised e) => (g, Raised e)
  end.

(** The menu of a human turn, in the order it is printed. *)
Definition menu (g : Game) (played_card : Card) (pi : nat) : list Action :=
  (ACapture <$> find_captures g played_card)
  ++ (ABuild <$> can_create_build g played_card pi)
  ++ (AAugment <$> can_augment_build g played_card pi)
  ++ [ADiscard].

(** [play_turn] for the player at position [pi].  The automatic player
    reads nothing.  For a human player [input()] is called twice, each
    time inside a [try] that does not catch [EOFError]: at the first
    prompt nothing has happened yet, at the second the card has left the
    hand. *)
Definition play_turn (g : Game) (pi : nat) (inp : TurnInput) : Game * Outcome () :=
  let player := players g !!! pi in
  if is_ai player then
    match get_ai_move g pi with
    | None => (g, Returned ())
    | Some (card_index, action) =>
        match play_card player (Z.of_nat card_index) with
        | Raised e => (g, Raised e)
        | Returned (played_card, player') =>
            let g1 := set_player g pi player' in
            match action, find_captures g1 played_card,
                  can_create_build g1 played_card pi with
            | AiCapture target, _ :: _, _ =>
                forget (execute_capture g1 pi played_card target)
            | AiBuild config, _, _ :: _ =>
                forget (execute_build g1 pi played_card config)
            | _, _, _ => (discard_card g1 played_card, Returned ())
            end
        end
    end
  else
    match card_input inp with
    | Eof => (g, Raised EOFError)
    | Line card_line =>
        let first_try :=
          match card_line with
          | None => Raised ValueError
          | Some card_index => play_card player card_index
          end in
        let played :=
          match first_try with
          | Returned r => Returned r
          | Raised _ => play_card player 0
          end in
        match played with
        | Raised e => (g, Raised e)
        | Returned (played_card, player') =>
            let g1 := set_player g pi player' in
            let actions := menu g1 played_card pi in
            match action_input inp with
            | Eof => (g1, Raised EOFError)
            | Line None => (discard_card g1 played_card, Returned ())
            | Line (Some choice) =>
                if decide (0 ≤ choice < Z.of_nat (length actions)) then
                  match actions !! Z.to_nat choice with
                  | Some (ACapture capture_group) =>
                      or_discard played_card
                        (execute_capture g1 pi played_card capture_group)
                  | Some (ABuild config) | Some (AAugment config) =>
                      or_discard played_card (execute_build g1 pi played_card config)
                  | Some ADiscard | None => (discard_card g1 played_card, Returned ())
                  end
                else (discard_card g1 played_card, Returned ())
            end
        end
    end.

(** What [input()] gives at the [i]-th call from now, with the lines
    [stdin] left on standard input. *)
Definition answer (stdin : list (option Z)) (i : nat) : Answer :=
  match stdin !! i with
  | Some line => Line line
  | None => Eof
  end.

(** One pass of the [for i in range(self.num_players)] loop of
    [play_full_game], from offset [i] on: the players who still hold
    cards take their turn.  A turn that returns has read no line when
    the player is automatic, and its two lines otherwise. *)
Fixpoint play_round (offsets : list nat) (stdin : list (option Z)) (g : Game)
    : Game * Outcome (list (option Z)) :=
  match offsets with
  | [] => (g, Returned stdin)
  | i :: offsets' =>
      let pi := ((current_player g + i) mod num_players g)%nat in
      let player := players g !!! pi in
      match hand player with
      | [] => play_round offsets' stdin g
      | _ :: _ =>
          match play_turn g pi (mkTurnInput (answer stdin 0) (answer stdin 1)) with
          | (g', Raised e) => (g', Raised e)
          | (g', Returned _) =>
              play_round offsets' (if is_ai player then stdin else drop 2 stdin) g'
          end
      end
  end.

(** The body of the [while] loop: a round, then the dealer moves on. *)
Definition play_one_round (stdin : list (option Z)) (g : Game)
    : Game * Outcome (list (option Z)) :=
  match play_round (seq 0 (num_players g)) stdin g with
  | (g', Raised e) => (g', Raised e)
  | (g', Returned rest) =>
      (set_current_player g' ((current_player g' + 1) mod num_players g')%nat,
       Returned rest)
  end.

(** ** Scoring *)

#[global] Instance Outcome_ret : MRet Outcome := λ _ x, Returned x.
#[global] Instance Outcome_bind : MBind Outcome := λ _ _ f m,
  match m with
  | Returned a => f a
  | Raised e => Raised e
  end.

(** A [for] loop whose body may raise. *)
Fixpoint for_each {A B} (body : B → A → Outcome B) (l : list A) (b : B) : Outcome B :=
  match l with
  | [] => Returned b
  | x :: l' => b' ← body b x; for_each body l' b'
  end.

Definition spy_two : Card := mkCard R2 SPADES.
Definition big_ten : Card := mkCard R10 DIAMONDS.

(** The key under which a player is counted: the player's id, or the
    sorted pair of the ids of the partnership. *)
Inductive Key :=
  | KSolo (id : nat)
  | KPair (a b : nat).

#[global] Instance Key_eq_dec : EqDecision Key.
Proof. solve_decision. Defined.

(** The ids a key credits: [for pid in key] on a tuple, the id itself
    otherwise. *)
Definition key_ids (k : Key) : list nat :=
  match k with
  | KSolo id => [id]
  | KPair a b => [a; b]
  end.

(** [tuple(sorted([player.id, partner_id]))]; sorting an id with [None]
    raises [TypeError]. *)
Definition player_key (g : Game) (id : nat) : Outcome Key :=
  if is_partnership_game g then
    match _get_partner_id g id with
    | None => Raised TypeError
    | Some partner_id => Returned (KPair (id `min` partner_id) (id `max` partner_id))
    end
  else Returned (KSolo id).

(** [d[key] += v] on a [defaultdict(int)], kept in insertion order. *)
Fixpoint dd_add (key : Key) (v : Z) (d : list (Key * Z)) : list (Key * Z) :=
  match d with
  | [] => [(key, 0 + v)]
  | (k, x) :: d' =>
      if decide (k = key) then (k, x + v) :: d' else (k, x) :: dd_add key v d'
  end.

Record Tally := mkTally {
  card_counts : list (Key * Z);
  spade_counts : list (Key * Z);
  special_scores : list (Key * Z)
}.

(** The body of the loop over the players. *)
Definition tally_player (g : Game) (t : Tally) (ip : nat * Player) : Outcome Tally :=
  let '(id, player) := ip in
  key ← player_key g id;
  let cc := dd_add key (count_cards player) (card_counts t) in
  let sc := dd_add key (count_spades player) (spade_counts t) in
  let sp := special_scores t in
  let sp := if has_card player spy_two || bool_decide (spy_two ∈ capture_pile player)
            then dd_add key 1 sp else sp in
  let sp := if has_card player big_ten || bool_decide (big_ten ∈ capture_pile player)
            then dd_add key 2 sp else sp in
  let ace_count := Z.of_nat (length (filter (λ card, rank card = RA) (capture_pile player))) in
  Returned (mkTally cc sc (dd_add key ace_count sp)).

Definition tally (g : Game) : Outcome Tally :=
  for_each (tally_player g) (imap pair (players g)) (mkTally [] [] []).

(** [scores[pid] += v]; the dict has the keys [0 .. len(players) - 1]. *)
Definition score_add (v : Z) (scores : list Z) (pid : nat) : Outcome (list Z) :=
  if decide (pid < length scores)%nat
  then Returned (alter (λ x, x + v) pid scores)
  else Raised KeyError.

Definition credit (v : Z) (scores : list Z) (key : Key) : Outcome (list Z) :=
  for_each (score_add v) (key_ids key) scores.

(** [max(counts.values())]; [max] of nothing raises [ValueError]. *)
Definition max_count (counts : list (Key * Z)) : Outcome Z :=
  match counts with
  | [] => Raised ValueError
  | (_, v) :: rest => Returned (foldl Z.max v (snd <$> rest))
  end.

(** Two points to the single holder of the maximum, one point to each
    of several. *)
Definition award (counts : list (Key * Z)) (scores : list Z) : Outcome (list Z) :=
  max_v ← max_count counts;
  let winners := fst <$> filter (λ kv, kv.2 = max_v) counts in
  match winners with
  | [winner] => credit 2 scores winner
  | _ => for_each (credit 1) winners scores
  end.

(** The majority awards of the 11-point game. *)
Definition majority_awards (g : Game) (t : Tally) : Outcome (list Z) :=
  let scores := replicate (length (players g)) 0 in
  let total_points := if is_partnership_game g || bool_decide (num_players g = 2%nat)
                      then 11 else 7 in
  if decide (total_points = 11)
  then scores ← award (card_counts t) scores; award (spade_counts t) scores
  else Returned scores.

(** The last loop: every key's special points go to its ids. *)
Definition add_special (special : list (Key * Z)) (scores : list Z) : Outcome (list Z) :=
  for_each (λ scores kp, credit kp.2 scores kp.1) special scores.

(** [calculate_scores]: the score of the player with id [i] is at
    position [i]. *)
Definition calculate_scores (g : Game) : Outcome (list Z) :=
  t ← tally g;
  scores ← majority_awards g t;
  add_special (special_scores t) scores.

(** ** Notions used to state the properties *)

(** The player holds, besides the played card, a card of hand value [t]. *)
Definition holds_value (p : Player) (played_card : Card) (t : Z) : Prop :=
  ∃ c, c ∈ hand p ∧ c ≠ played_card ∧ numeric_value c = t.

(** [total] is the first entry of [totals] the player holds a card for. *)
Definition first_held_total (p : Player) (played_card : Card)
    (totals : list Z) (total : Z) : Prop :=
  ∃ l1 l2, totals = l1 ++ total :: l2
           ∧ holds_value p played_card total
           ∧ ∀ t, t ∈ l1 → ¬ holds_value p played_card t.

(** The four shapes of a capture group. *)
Definition single_card_match (g : Game) (played_card : Card) (grp : list Item) : Prop :=
  ∃ c, grp = [ICard c] ∧ ICard c ∈ layout g
       ∧ numeric_value c = numeric_value played_card.

Definition single_build_match (g : Game) (played_card : Card) (grp : list Item) : Prop :=
  ∃ h, grp = [IBuild h] ∧ IBuild h ∈ layout g
       ∧ total_value (store g !!! h) = numeric_value played_card.

Definition loose_sum_match (g : Game) (played_card : Card) (grp : list Item) : Prop :=
  ∃ cs, grp = ICard <$> cs ∧ cs `sublist_of` get_loose_cards g
        ∧ (2 ≤ length cs)%nat
        ∧ numeric_value played_card ∈ calculate_total cs.

Definition build_plus_card_match (g : Game) (played_card : Card) (grp : list Item) : Prop :=
  ∃ c h, grp = [ICard c; IBuild h] ∧ ICard c ∈ layout g ∧ IBuild h ∈ layout g
         ∧ ∃ t, t ∈ calculate_total [c]
                ∧ t + total_value (store g !!! h) = numeric_value played_card.

(** Scenario A of the specification, the state [test_specific_scenario]
    sets up: the seven of hearts, the three of spades and the four of
    diamonds lie loose; the first player holds the seven of clubs and the
    Ace of hearts. *)
Definition scenario_a : Game :=
  mkGame 2 None []
    [mkPlayer [mkCard R7 CLUBS; mkCard RA HEARTS] [] false false;
     mkPlayer [] [] false false]
    [ICard (mkCard R7 HEARTS); ICard (mkCard R3 SPADES);
     ICard (mkCard R4 DIAMONDS)] [] 0.

(** Scenario B of the specification: the three of diamonds lies loose,
    the first player holds the five of clubs and the eight of hearts. *)
Definition scenario_b : Game :=
  mkGame 2 None []
    [mkPlayer [mkCard R5 CLUBS; mkCard R8 HEARTS] [] false false;
     mkPlayer [] [] false false]
    [ICard (mkCard R3 DIAMONDS)] [] 0.

(** [x in lay], with Python's [==]. *)
Definition present (σ : list Build) (lay : list Item) (x : Item) : Prop :=
  ∃ y, y ∈ lay ∧ item_eqb σ y x = true.

(** No two entries of the layout are equal by [==]: the loose cards are
    distinct, and so are the builds, as references and as values. *)
Fixpoint distinct_items (σ : list Build) (lay : list Item) : Prop :=
  match lay with
  | [] => True
  | x :: l => Forall (λ y, item_eqb σ x y = false) l ∧ distinct_items σ l
  end.

(** A player with nothing in hand or pile. *)
Definition idle : Player := mkPlayer [] [] false false.

(** Two players; the seven of hearts and the three of spades lie loose.
    The four of diamonds, which lay there when the options were listed,
    is gone. *)
Definition stale_game : Game :=
  mkGame 2 None [] [idle; idle]
    [ICard (mkCard R7 HEARTS); ICard (mkCard R3 SPADES)] [] 0.

(** A layout with a loose seven, a loose Ace and the build of a five
    and a three, worth 8, owned by the second player. *)
Definition capture_game : Game :=
  mkGame 2 None []
    [mkPlayer [mkCard R9 CLUBS] [mkCard RA CLUBS] false false;
     mkPlayer [] [] false true]
    [ICard (mkCard R7 HEARTS); IBuild 0; ICard (mkCard RA HEARTS)]
    [mkBuild [mkCard R5 HEARTS; mkCard R3 SPADES] 8 1 false] 0.

(** The build's total is one of the resolved totals of its cards. *)
Definition build_valid (b : Build) : Prop :=
  total_value b ∈ calculate_total (cards b).

(** Every build reference on the layout is to an object of the arena. *)
Definition layout_wf (g : Game) : Prop :=
  ∀ h, IBuild h ∈ layout g → (h < length (store g))%nat.

(** Every build on the layout that was never augmented is valid. *)
Definition plain_builds_valid (g : Game) : Prop :=
  ∀ h, IBuild h ∈ layout g →
       is_augmented (store g !!! h) = false → build_valid (store g !!! h).

(** The dict [cfg] with its ['type'] key set ([Some]) or absent. *)
Definition with_type (ty : option string) (cfg : BuildConfig) : BuildConfig :=
  mkConfig ty (cfg_cards cfg) (cfg_played_card cfg) (cfg_total_value cfg)
           (cfg_build cfg) (cfg_new_total cfg) (cfg_action cfg)
           (cfg_augmenting_card cfg) (cfg_cards_used cfg).

(** The first player owns the build of a five and a three, worth 8;
    the eight of diamonds lies loose. *)
Definition augment_game : Game :=
  mkGame 2 None []
    [mkPlayer [mkCard R8 HEARTS] [] false false; idle]
    [IBuild 0; ICard (mkCard R8 DIAMONDS)]
    [mkBuild [mkCard R5 HEARTS; mkCard R3 SPADES] 8 0 false] 0.

(** The special points a player brings in: one for the two of spades
    and two for the ten of diamonds, in the capture pile or in the hand,
    and one for every Ace of the capture pile. *)
Definition special_points (p : Player) : Z :=
  (if decide (spy_two ∈ hand p ∨ spy_two ∈ capture_pile p) then 1 else 0)
  + (if decide (big_ten ∈ hand p ∨ big_ten ∈ capture_pile p) then 2 else 0)
  + Z.of_nat (length (filter (λ c, rank c = RA) (capture_pile p))).

(** How often the key [k] credits the player [pid]. *)
Definition key_weight (pid : nat) (k : Key) : Z :=
  Z.of_nat (length (filter (λ i, i = pid) (key_ids k))).

Definition sum_Z (l : list Z) : Z := foldr Z.add 0 l.

(** The special points credited to [pid]: those of every player counted
    under a key that credits [pid]. *)
Definition special_share (keys : list Key) (ps : list Player) (pid : nat) : Z :=
  sum_Z (zip_with (λ k p, key_weight pid k * special_points p) keys ps).

(** The sum, over the entries of a [defaultdict], of what each gives
    to [pid]. *)
Definition weighted (pid : nat) (d : list (Key * Z)) : Z :=
  sum_Z ((λ kv : Key * Z, key_weight pid kv.1 * kv.2) <$> d).

(** Every id a key of the dict credits is the id of a player. *)
Definition keys_in_range (n : nat) (d : list (Key * Z)) : Prop :=
  Forall (λ kv : Key * Z, Forall (λ i, i < n)%nat (key_ids kv.1)) d.

(** The three dicts of a tally credit players only. *)
Definition tally_in_range (n : nat) (t : Tally) : Prop :=
  keys_in_range n (card_counts t) ∧ keys_in_range n (spade_counts t)
  ∧ keys_in_range n (special_scores t).

(** Two players at the end of a hand.  The first captured the three of
    clubs and the Ace of clubs and still holds the ten of diamonds and the
    Ace of hearts; the second captured the two of spades. *)
Definition scoring_game : Game :=
  mkGame 2 None []
    [mkPlayer [mkCard R10 DIAMONDS; mkCard RA HEARTS]
              [mkCard R3 CLUBS; mkCard RA CLUBS] false false;
     mkPlayer [] [mkCard R2 SPADES] false true]
    [] [] 0.

(** Four players in the partnerships (0, 2) and (1, 3).  The third
    player still holds the two of spades, the fourth the Ace of diamonds. *)
Definition partnership_game : Game :=
  mkGame 4 (Some [(0, 2); (1, 3)]%nat) []
    [mkPlayer [] [mkCard RA CLUBS] false false;
     mkPlayer [] [mkCard R3 SPADES; mkCard R4 HEARTS] false true;
     mkPlayer [mkCard R2 SPADES] [] false false;
     mkPlayer [mkCard RA DIAMONDS] [] false false]
    [] [] 0.

(** ** A recorded game *)

(** Where the cards are: the deck, the hands, the layout (loose cards
    and the member cards of the builds on it) and the capture piles. *)
Definition zones (g : Game) : list Card :=
  deck g ++ (players g ≫= hand) ++ (layout g ≫= item_cards (store g))
  ++ (players g ≫= capture_pile).

(** Card conservation: the zones hold the cards of the deck, each once. *)
Definition conserved (use_40_card_deck : bool) (g : Game) : Prop :=
  zones g ≡ₚ fresh_deck use_40_card_deck.

(** An order [random.shuffle] can leave the 40-card deck in. *)
Definition shuffled_deck : list Card :=
  [mkCard R2 SPADES; mkCard R4 SPADES; mkCard R5 SPADES; mkCard R6 SPADES;
   mkCard R7 SPADES; mkCard R8 SPADES; mkCard R10 SPADES; mkCard RA SPADES;
   mkCard R2 HEARTS; mkCard R3 HEARTS; mkCard R4 HEARTS; mkCard R6 HEARTS;
   mkCard R7 HEARTS; mkCard R9 HEARTS; mkCard R10 HEARTS; mkCard RA HEARTS;
   mkCard R3 DIAMONDS; mkCard R4 DIAMONDS; mkCard R5 HEARTS; mkCard R8 DIAMONDS;
   mkCard R6 CLUBS; mkCard R9 SPADES; mkCard R5 DIAMONDS; mkCard R6 DIAMONDS;
   mkCard R7 DIAMONDS; mkCard R9 DIAMONDS; mkCard R10 DIAMONDS; mkCard RA DIAMONDS;
   mkCard R3 CLUBS; mkCard R4 CLUBS; mkCard R5 CLUBS; mkCard R7 CLUBS;
   mkCard R9 CLUBS; mkCard R10 CLUBS; mkCard RA CLUBS; mkCard R2 CLUBS;
   mkCard R2 DIAMONDS; mkCard R8 HEARTS; mkCard R8 CLUBS; mkCard R3 SPADES].

(** The two-player game on that deck, as [__init__] leaves it. *)
Definition opening : Game :=
  mkGame 2 None shuffled_deck [idle; idle] [] [] 0.

(** After [setup_game]. *)
Definition dealt : Game := (setup_game opening).1.

(** The first round.  The first player plays the three of spades and
    builds 8 on the five of hearts (menu entry 0); the second player
    plays the eight of clubs and captures the eight of diamonds (menu
    entry 0), which is now the top of that capture pile. *)
Definition round_one_inputs : list (option Z) :=
  [Some 0; Some 0; Some 0; Some 0].
Definition after_round_one : Game := (play_one_round round_one_inputs dealt).1.

(** The second round starts with the second player, who plays the two
    of diamonds and discards it (menu entry 1). *)
Definition before_augment : Game :=
  (play_turn after_round_one 1 (mkInput (Some 0) (Some 1))).1.

(** Then the first player plays the two of clubs (hand position 1) and
    picks menu entry 4: augment the own build with the eight of diamonds
    on top of the opponent's pile. *)
Definition augment_input : TurnInput := mkInput (Some 1) (Some 4).
Definition after_augment_turn : Game := (play_turn before_augment 0 augment_input).1.

(** The option picked, as [can_augment_build] lists it, and the same
    dict with a ['type'] other than ['single']. *)
Definition pile_top_option : BuildConfig :=
  augment_config 0 (mkCard R2 CLUBS) (mkCard R8 DIAMONDS).
Definition after_typed_augment : Game :=
  (execute_build after_augment_turn 0 (mkCard R2 CLUBS)
     (with_type (Some "augment"%string) pile_top_option)).1.

(** ** Further notions *)

(** The total of the hand values, every Ace counted low, and the number
    of Aces. *)
Definition low_total (cs : list Card) : Z := sum_values (numeric_value <$> cs).
Definition aces (cs : list Card) : nat := length (filter (λ c, rank c = RA) cs).

(** The build owner [o] is the player [pi] or a partner of [pi]: the
    condition under which [can_augment_build] treats a build as the
    player's own. *)
Definition ally (g : Game) (pi o : nat) : Prop :=
  o = pi ∨ (is_partnership_game g = true ∧ _are_partners g pi o = true).

(** [card] is the top card of the capture pile of a player who is
    neither [pi] nor a partner of [pi]. *)
Definition visible_top (g : Game) (pi : nat) (card : Card) : Prop :=
  ∃ i opp, players g !! i = Some opp ∧ ¬ ally g pi i
           ∧ get_top_card opp = Some card.

(** The player after the card at hand position [n] has been played. *)
Definition without (n : nat) (p : Player) : Player :=
  set_hand (delete n (hand p)) p.

(** At most one player is marked as the last to capture. *)
Definition exclusive_last_capture (g : Game) : Prop :=
  ∀ i j p q, players g !! i = Some p → players g !! j = Some q →
             last_capture p = true → last_capture q = true → i = j.

(** The number of cards still in the hands. *)
Definition hand_cards (g : Game) : nat := length (players g ≫= hand).

(** The hand position a human player's answer to the first prompt
    stands for: the number typed when it is a position of the hand,
    position 0 for any other answer. *)
Definition chosen_position (p : Player) (inp : TurnInput) : nat :=
  match card_input inp with
  | Line (Some i) =>
      if decide (0 ≤ i < Z.of_nat (length (hand p))) then Z.to_nat i else 0%nat
  | _ => 0%nat
  end.

(** The number of cards the player at position [i] gets when [m] cards
    are dealt one by one to [n] players in turn. *)
Definition share (n i m : nat) : nat :=
  (m / n + (if decide (i < m mod n) then 1 else 0))%nat.

(** The game has the players [__init__] made: [num_players] of them. *)
Definition seated (g : Game) : Prop :=
  num_players g = length (players g) ∧ players g ≠ [].

(** The position of the player who is [i]-th to move in a round. *)
Definition seat (g : Game) (i : nat) : nat :=
  ((current_player g + i) mod num_players g)%nat.

(** The [while not self.check_game_over()] loop of [play_full_game];
    [None] when [fuel] rounds were not enough. *)
Fixpoint play_rounds (fuel : nat) (inputs : list (option Z)) (g : Game)
    : option (Game * Outcome (list (option Z))) :=
  match fuel with
  | O => None
  | S fuel' =>
      if check_game_over g then Some (g, Returned inputs)
      else
        match play_one_round inputs g with
        | (g', Raised e) => Some (g', Raised e)
        | (g', Returned rest) => play_rounds fuel' rest g'
        end
  end.

(** The longest hand. *)
Definition longest_hand (g : Game) : nat :=
  max_list ((λ p, length (hand p)) <$> players g).

(** The points of a majority award for the count [a] against the
    count [b]: two for the larger one, one each for equal counts. *)
Definition majority (a b : Z) : Z :=
  if decide (b < a) then 2 else if decide (a = b) then 1 else 0.

(** The number of cards in the hands of the human players: the turns
    still to come that read standard input. *)
Definition prompted_cards (g : Game) : nat :=
  sum_list ((λ p, if is_ai p then 0%nat else length (hand p)) <$> players g).

(** Scenario A played by two automatic players. *)
Definition automatic_game : Game :=
  mkGame 2 None []
    [mkPlayer [mkCard R7 CLUBS; mkCard RA HEARTS] [] true false;
     mkPlayer [] [] true false]
    [ICard (mkCard R7 HEARTS); ICard (mkCard R3 SPADES);
     ICard (mkCard R4 DIAMONDS)] [] 0.

(** * Properties *)

(** ** Value resolution *)

Section value_resolution.

Lemma elem_of_extend_totals (totals : gset Z) card x :
  x ∈ extend_totals totals card ↔
  ∃ t v, t ∈ totals ∧ v ∈ values card ∧ x = t + v.
Proof.
  unfold extend_totals. rewrite elem_of_set_bind. split.
  - intros (t & Ht & Hx). apply elem_of_list_to_set, list_elem_of_fmap in Hx.
    destruct Hx as (v & -> & Hv). eauto.
  - intros (t & v & Ht & Hv & ->). exists t. split; [done|].
    apply elem_of_list_to_set, list_elem_of_fmap. eauto.
Qed.

Lemma elem_of_fold_totals cards : ∀ (acc : gset Z) x,
  x ∈ foldl extend_totals acc cards ↔
  ∃ a vs, a ∈ acc ∧ choice_of cards vs ∧ x = a + sum_values vs.
Proof.
  induction cards as [|c cards IH]; intros acc x; simpl.
  - split.
    + intros Hx. exists x, []. split_and!; [done|constructor|simpl; lia].
    + intros (a & vs & Ha & Hvs & ->). inversion Hvs; subst. simpl.
      by replace (a + 0) with a by lia.
  - rewrite IH. split.
    + intros (a & vs & Ha & Hvs & ->).
      apply elem_of_extend_totals in Ha as (t & v & Ht & Hv & ->).
      exists t, (v :: vs). split_and!; [done|by constructor|simpl; lia].
    + intros (a & vs & Ha & Hvs & ->).
      inversion Hvs as [|c' v cards' vs' Hv Hvs']; subst.
      exists (a + v), vs'. split_and!; [|done|simpl; lia].
      apply elem_of_extend_totals. eauto.
Qed.

Lemma elem_of_calculate_total cards x :
  x ∈ calculate_total cards ↔ ∃ vs, choice_of cards vs ∧ x = sum_values vs.
Proof.
  unfold calculate_total. rewrite merge_sort_Permutation, elem_of_elements.
  rewrite elem_of_fold_totals. split.
  - intros (a & vs & Ha & Hvs & ->). apply elem_of_singleton in Ha as ->.
    exists vs. split; [done|lia].
  - intros (vs & Hvs & ->). exists 0, vs. split_and!; [set_solver|done|lia].
Qed.

Lemma calculate_total_NoDup cards : NoDup (calculate_total cards).
Proof.
  unfold calculate_total. rewrite merge_sort_Permutation. apply NoDup_elements.
Qed.

Lemma calculate_total_le_sorted cards :
  StronglySorted Z.le (calculate_total cards).
Proof. apply (StronglySorted_merge_sort Z.le). Qed.

(** A duplicate-free list sorted by [≤] is sorted by [<]. *)
Lemma StronglySorted_le_lt (l : list Z) :
  NoDup l → StronglySorted Z.le l → StronglySorted Z.lt l.
Proof.
  induction 2 as [|x l Hl IH Hx]; constructor.
  - apply IH. by eapply NoDup_cons_1_2.
  - apply NoDup_cons in H as [Hnx _].
    rewrite Forall_forall in *. intros y Hy.
    specialize (Hx y Hy). assert (x ≠ y) by (intros ->; done). lia.
Qed.

Lemma calculate_total_sorted cards :
  StronglySorted Z.lt (calculate_total cards).
Proof.
  apply StronglySorted_le_lt;
    [apply calculate_total_NoDup|apply calculate_total_le_sorted].
Qed.

End value_resolution.

(** C6. [calculate_total] returns exactly the sums obtained by choosing
  one value from the [values] of every card of the sequence and adding
  them up (every card contributes), each sum listed once; the empty
  sequence resolves to [0] alone, a single Ace to 1 and 14, two Aces
  to 2, 15 and 28. *)
Theorem calculate_total_resolves :
(∀ cards x,
   x ∈ calculate_total cards ↔ ∃ vs, choice_of cards vs ∧ x = sum_values vs)
∧ (∀ cards, NoDup (calculate_total cards))
∧ calculate_total [] = [0]
∧ (∀ s, calculate_total [mkCard RA s] = [1; 14])
∧ (∀ s1 s2, calculate_total [mkCard RA s1; mkCard RA s2] = [2; 15; 28]).
Proof.
split_and!.
- apply elem_of_calculate_total.
- apply calculate_total_NoDup.
- by vm_compute.
- intros s. by vm_compute.
- intros s1 s2. by vm_compute.
Qed.

(** ** Capture enumeration *)

Section enumeration.

Context {A : Type}.
Implicit Types (l cs : list A) (r : nat).

Lemma elem_of_combinations l : ∀ r cs,
  cs ∈ combinations l r ↔ cs `sublist_of` l ∧ length cs = r.
Proof.
  induction l as [|x l IH]; intros r cs; simpl.
  - destruct r; rewrite ?list_elem_of_singleton, ?elem_of_nil.
    + split; [intros ->; split; [constructor|done]|].
      intros [Hs _]. by apply sublist_nil_r in Hs.
    + split; [done|]. intros [Hs Hl]. apply sublist_nil_r in Hs. by subst.
  - destruct r.
    + rewrite list_elem_of_singleton. split.
      * intros ->. split; [apply sublist_nil_l|done].
      * intros [_ Hl]. by destruct cs.
    + rewrite elem_of_app, list_elem_of_fmap, sublist_cons_r. split.
      * intros [(cs' & -> & Hcs')|Hcs].
        -- apply IH in Hcs' as [Hs Hl]. split; [right; eauto|simpl; lia].
        -- apply IH in Hcs as [Hs Hl]. split; [by left|done].
      * intros [[Hs|(cs' & -> & Hs)] Hl].
        -- right. by apply IH.
        -- left. exists cs'. split; [done|]. apply IH. simpl in Hl. split; [done|lia].
Qed.

End enumeration.

Lemma elem_of_loose_of (lay : list Item) c : c ∈ loose_of lay ↔ ICard c ∈ lay.
Proof.
  unfold loose_of. rewrite list_elem_of_omap. split.
  - intros ([c'|h] & Hin & Heq); simplify_eq. done.
  - intros Hin. exists (ICard c). done.
Qed.

Lemma elem_of_builds_of (lay : list Item) h : h ∈ builds_of lay ↔ IBuild h ∈ lay.
Proof.
  unfold builds_of. rewrite list_elem_of_omap. split.
  - intros ([c'|h'] & Hin & Heq); simplify_eq. done.
  - intros Hin. exists (IBuild h). done.
Qed.

Lemma elem_of_get_loose_cards g c : c ∈ get_loose_cards g ↔ ICard c ∈ layout g.
Proof. apply elem_of_loose_of. Qed.

Lemma elem_of_get_builds g h : h ∈ get_builds g ↔ IBuild h ∈ layout g.
Proof. apply elem_of_builds_of. Qed.

Lemma loose_of_cards (cs : list Card) : loose_of (ICard <$> cs) = cs.
Proof. induction cs as [|c cs IH]; [done|]. unfold loose_of in *. cbn. by f_equal. Qed.

Lemma builds_of_cards (cs : list Card) : builds_of (ICard <$> cs) = [].
Proof. induction cs as [|c cs IH]; [done|]. unfold builds_of in *. by cbn. Qed.

Lemma loose_of_app (l1 l2 : list Item) : loose_of (l1 ++ l2) = loose_of l1 ++ loose_of l2.
Proof. apply omap_app. Qed.

Lemma builds_of_app (l1 l2 : list Item) : builds_of (l1 ++ l2) = builds_of l1 ++ builds_of l2.
Proof. apply omap_app. Qed.

Lemma find_captures_shapes g played_card grp :
  grp ∈ find_captures g played_card ↔
    single_card_match g played_card grp ∨ single_build_match g played_card grp
    ∨ loose_sum_match g played_card grp ∨ build_plus_card_match g played_card grp.
Proof.
  unfold find_captures. rewrite !elem_of_app. split.
  - intros [H|[H|H]].
    + apply list_elem_of_bind in H as (target & Hgrp & Htarget).
      apply elem_of_app in Htarget as [Ht|Ht];
        apply list_elem_of_fmap in Ht as (x & -> & Hx); case_decide;
        try (by apply elem_of_nil in Hgrp); apply list_elem_of_singleton in Hgrp as ->.
      * left. exists x. by rewrite <- elem_of_get_loose_cards.
      * right; left. exists x. by rewrite <- elem_of_get_builds.
    + apply list_elem_of_bind in H as (r & H & Hr).
      apply list_elem_of_bind in H as (combo & Hgrp & Hcombo).
      case_decide; [|by apply elem_of_nil in Hgrp].
      apply list_elem_of_singleton in Hgrp as ->.
      apply elem_of_combinations in Hcombo as [Hs Hl].
      apply elem_of_seq in Hr. right; right; left. exists combo.
      split_and!; [done|done|lia|done].
    + apply list_elem_of_bind in H as (h & H & Hh).
      apply list_elem_of_bind in H as (combo & Hgrp & Hcombo).
      case_decide as Hv; [|by apply elem_of_nil in Hgrp].
      apply list_elem_of_singleton in Hgrp as ->.
      apply elem_of_combinations in Hcombo as [Hs Hl].
      destruct combo as [|c [|??]]; simplify_eq/=.
      apply singleton_sublist_l, elem_of_get_loose_cards in Hs.
      apply list_elem_of_fmap in Hv as (t & Ht & Hin).
      right; right; right. exists c, h.
      rewrite <- elem_of_get_builds. split_and!; [done..|]. exists t. done.
  - intros [(c & -> & Hc & Hv)|[(h & -> & Hh & Hv)|[(cs & -> & Hs & Hl & Hv)|
            (c & h & -> & Hc & Hh & t & Ht & Hv)]]].
    + left. apply list_elem_of_bind. exists (ICard c). split.
      * rewrite decide_True by done. by apply list_elem_of_singleton.
      * apply elem_of_app. left. apply list_elem_of_fmap. exists c.
        by rewrite elem_of_get_loose_cards.
    + left. apply list_elem_of_bind. exists (IBuild h). split.
      * rewrite decide_True by done. by apply list_elem_of_singleton.
      * apply elem_of_app. right. apply list_elem_of_fmap. exists h.
        by rewrite elem_of_get_builds.
    + right; left. apply list_elem_of_bind. exists (length cs). split.
      * apply list_elem_of_bind. exists cs. split.
        -- rewrite decide_True by done. by apply list_elem_of_singleton.
        -- by apply elem_of_combinations.
      * apply elem_of_seq. apply sublist_length in Hs. lia.
    + right; right. apply list_elem_of_bind. exists h. split.
      * apply list_elem_of_bind. exists [c]. split.
        -- simpl. rewrite decide_True; [by apply list_elem_of_singleton|].
           apply list_elem_of_fmap. exists t. done.
        -- apply elem_of_combinations. split; [|done].
           by apply singleton_sublist_l, elem_of_get_loose_cards.
      * by apply elem_of_get_builds.
Qed.

(** C3. For any played card and any layout, the groups [find_captures]
    returns are exactly: every single loose card whose [numeric_value]
    equals that of the played card and every build (whoever owns it)
    whose [total_value] equals it; every sub-sequence of at least two
    loose cards whose [calculate_total] contains it; every loose card
    followed by a build such that a resolved value of the card plus the
    build's [total_value] equals it.  A group that holds a build holds no
    second build and at most one loose card. *)
Theorem find_captures_enumerates g played_card :
  (∀ grp, grp ∈ find_captures g played_card ↔
      single_card_match g played_card grp ∨ single_build_match g played_card grp
      ∨ loose_sum_match g played_card grp ∨ build_plus_card_match g played_card grp)
  ∧ (∀ grp, grp ∈ find_captures g played_card → builds_of grp ≠ [] →
      (length (builds_of grp) = 1 ∧ length (loose_of grp) ≤ 1)%nat).
Proof.
  split; [apply find_captures_shapes|].
  intros grp Hgrp Hb. apply find_captures_shapes in Hgrp
    as [(c & -> & _)|[(h & -> & _)|[(cs & -> & _)|(c & h & -> & _)]]];
    try (simpl; lia).
  - done.
  - by rewrite builds_of_cards in Hb.
Qed.

(** C3 at work, scenario A: the seven of clubs can take the seven of
    hearts, or the three of spades with the four of diamonds. *)
Lemma find_captures_scenario_a :
  find_captures scenario_a (mkCard R7 CLUBS)
  = [[ICard (mkCard R7 HEARTS)];
     [ICard (mkCard R3 SPADES); ICard (mkCard R4 DIAMONDS)]]
  ∧ single_card_match scenario_a (mkCard R7 CLUBS) [ICard (mkCard R7 HEARTS)]
  ∧ loose_sum_match scenario_a (mkCard R7 CLUBS)
      [ICard (mkCard R3 SPADES); ICard (mkCard R4 DIAMONDS)].
Proof.
  destruct (find_captures_enumerates scenario_a (mkCard R7 CLUBS)) as [Hshape _].
  split; [by vm_compute|]. split.
  - destruct (proj1 (Hshape [ICard (mkCard R7 HEARTS)]))
      as [Hm|[(h & ? & _)|[(cs & Hcs & _ & Hl & _)|(c & h & ? & _)]]];
      [vm_compute; left|done|done| |done].
    destruct cs as [|? [|? ?]]; simpl in *; (done || lia).
  - destruct (proj1 (Hshape [ICard (mkCard R3 SPADES); ICard (mkCard R4 DIAMONDS)]))
      as [(c & ? & _)|[(h & ? & _)|[Hm|(c & h & ? & _)]]];
      [vm_compute; right; left|done|done|done|done].
Defined.

(** ** Build creation *)

Lemma elem_of_available_capture_values p played_card t :
  t ∈ available_capture_values p played_card ↔ holds_value p played_card t.
Proof.
  unfold available_capture_values, holds_value.
  rewrite list_elem_of_fmap. split.
  - intros (c & -> & Hc). apply list_elem_of_filter in Hc as [Hne Hc]. eauto.
  - intros (c & Hc & Hne & <-). exists c. split; [done|].
    by apply list_elem_of_filter.
Qed.

Lemma first_capturable_Some p played_card totals total :
  first_capturable (available_capture_values p played_card) totals = Some total
  ↔ first_held_total p played_card totals total.
Proof.
  unfold first_held_total.
  induction totals as [|t totals IH]; simpl.
  - split; [done|]. intros (l1 & l2 & Heq & _). by destruct l1.
  - case_decide as Ht; rewrite elem_of_available_capture_values in Ht.
    + split.
      * intros [= ->]. exists [], totals. split_and!; [done..|].
        intros t' Ht'. by apply elem_of_nil in Ht'.
      * intros ([|t' l1] & l2 & Heq & Hheld & Hfirst); simplify_eq/=; [done|].
        exfalso. apply (Hfirst t'); [left|done].
    + rewrite IH. split.
      * intros (l1 & l2 & -> & Hheld & Hfirst). exists (t :: l1), l2.
        split_and!; [done..|]. intros t' [->|Ht']%elem_of_cons; eauto.
      * intros ([|t' l1] & l2 & Heq & Hheld & Hfirst); simplify_eq/=; [done|].
        exists l1, l2. split_and!; [done..|]. intros t Hin. apply Hfirst. by right.
Qed.

Lemma first_capturable_is_Some p played_card totals :
  is_Some (first_capturable (available_capture_values p played_card) totals)
  ↔ ∃ t, t ∈ totals ∧ holds_value p played_card t.
Proof.
  induction totals as [|t totals IH]; simpl.
  - split; [by intros [? ?]|]. intros (t & Ht & _). by apply elem_of_nil in Ht.
  - case_decide as Ht; rewrite elem_of_available_capture_values in Ht.
    + split; [|by eauto]. intros _. exists t. split; [left|done].
    + rewrite IH. split.
      * intros (t' & Hin & Hheld). exists t'. split; [by right|done].
      * intros (t' & [->|Hin]%elem_of_cons & Hheld); [done|eauto].
Qed.

Lemma can_create_build_options g played_card pi cfg :
  cfg ∈ can_create_build g played_card pi ↔
  ∃ combo total,
    cfg = single_config combo played_card total
    ∧ combo ≠ [] ∧ combo `sublist_of` get_loose_cards g
    ∧ first_held_total (players g !!! pi) played_card
        (calculate_total (combo ++ [played_card])) total.
Proof.
  unfold can_create_build. rewrite list_elem_of_bind. split.
  - intros (r & H & Hr). apply list_elem_of_bind in H as (combo & Hcfg & Hcombo).
    apply elem_of_combinations in Hcombo as [Hs Hl]. apply elem_of_seq in Hr.
    destruct (first_capturable _ _) as [total|] eqn:Hfirst;
      [|by apply elem_of_nil in Hcfg].
    apply list_elem_of_singleton in Hcfg as ->.
    apply first_capturable_Some in Hfirst.
    exists combo, total. split_and!; [done| |done..].
    intros ->. simpl in Hl. lia.
  - intros (combo & total & -> & Hne & Hs & Hfirst).
    apply first_capturable_Some in Hfirst.
    exists (length combo). split.
    + apply list_elem_of_bind. exists combo. split.
      * rewrite Hfirst. by apply list_elem_of_singleton.
      * by apply elem_of_combinations.
    + apply elem_of_seq. apply sublist_length in Hs.
      destruct combo; [done|]. simpl in *. lia.
Qed.

Lemma first_held_total_unique p played_card totals t1 t2 :
  first_held_total p played_card totals t1 →
  first_held_total p played_card totals t2 → t1 = t2.
Proof.
  intros H1%first_capturable_Some H2%first_capturable_Some. congruence.
Qed.

Lemma NoDup_combinations {A} (l : list A) : ∀ r, NoDup l → NoDup (combinations l r).
Proof.
  induction l as [|x l IH]; intros r Hnd; simpl.
  - destruct r; [apply NoDup_singleton|constructor].
  - destruct r; [apply NoDup_singleton|].
    apply NoDup_cons in Hnd as [Hx Hnd]. apply NoDup_app. split_and!.
    + apply NoDup_fmap_2; [|by apply IH]. by intros ?? [= ->].
    + intros cs (cs' & -> & _)%list_elem_of_fmap [Hs _]%elem_of_combinations.
      apply Hx. eapply elem_of_sublist; [|done]. left.
    + by apply IH.
Qed.

Lemma NoDup_can_create_build g played_card pi :
  NoDup (get_loose_cards g) → NoDup (can_create_build g played_card pi).
Proof.
  intros Hnd. unfold can_create_build.
  assert (∀ combo cfg,
    cfg ∈ match first_capturable
                  (available_capture_values (players g !!! pi) played_card)
                  (calculate_total (combo ++ [played_card])) with
          | Some total => [single_config combo played_card total]
          | None => []
          end → cfg_cards cfg = Some combo) as Hcards.
  { intros combo cfg Hin. destruct (first_capturable _ _); [|by apply elem_of_nil in Hin].
    by apply list_elem_of_singleton in Hin as ->. }
  apply NoDup_bind; [| |apply NoDup_seq].
  - intros r1 r2 cfg _ _ (c1 & Hin1 & [_ Hl1]%elem_of_combinations)%list_elem_of_bind
      (c2 & Hin2 & [_ Hl2]%elem_of_combinations)%list_elem_of_bind.
    apply Hcards in Hin1, Hin2. congruence.
  - intros r _. apply NoDup_bind; [| |by apply NoDup_combinations].
    + intros c1 c2 cfg _ _ Hin1 Hin2. apply Hcards in Hin1, Hin2. congruence.
    + intros combo _. destruct (first_capturable _ _);
        [apply NoDup_singleton|constructor].
Qed.

(** C5. [can_create_build] offers an option exactly for the non-empty
    sub-sequences of the loose cards for which the player holds in hand,
    apart from the played card, a card whose [numeric_value] is a total of
    the sub-sequence plus the played card; the option carries the first
    such total in the order of [calculate_total], no sub-sequence gets two
    totals, and no option is listed twice when the loose cards are
    distinct.  With the three of diamonds loose and the hand five of
    clubs, eight of hearts, playing the five of clubs offers the build of
    the three of diamonds with total 8. *)
Theorem can_create_build_first_total g played_card pi :
  (∀ cfg, cfg ∈ can_create_build g played_card pi ↔
     ∃ combo total,
       cfg = single_config combo played_card total
       ∧ combo ≠ [] ∧ combo `sublist_of` get_loose_cards g
       ∧ first_held_total (players g !!! pi) played_card
           (calculate_total (combo ++ [played_card])) total)
  ∧ (∀ combo, combo ≠ [] → combo `sublist_of` get_loose_cards g →
       (∃ total, single_config combo played_card total ∈ can_create_build g played_card pi)
       ↔ ∃ t, t ∈ calculate_total (combo ++ [played_card])
              ∧ holds_value (players g !!! pi) played_card t)
  ∧ (∀ combo t1 t2,
       single_config combo played_card t1 ∈ can_create_build g played_card pi →
       single_config combo played_card t2 ∈ can_create_build g played_card pi →
       t1 = t2)
  ∧ (NoDup (get_loose_cards g) → NoDup (can_create_build g played_card pi))
  ∧ can_create_build scenario_b (mkCard R5 CLUBS) 0
    = [single_config [mkCard R3 DIAMONDS] (mkCard R5 CLUBS) 8].
Proof.
  split_and!.
  - apply can_create_build_options.
  - intros combo Hne Hs. rewrite <- first_capturable_is_Some. split.
    + intros (total & Hin). apply can_create_build_options in Hin
        as (combo' & total' & [= <- <-] & _ & _ & Hfirst).
      apply first_capturable_Some in Hfirst. by rewrite Hfirst.
    + intros (total & Hfirst). exists total. apply can_create_build_options.
      exists combo, total. split_and!; [done..|]. by apply first_capturable_Some.
  - intros combo t1 t2 H1 H2.
    apply can_create_build_options in H1 as (? & ? & [= <- <-] & _ & _ & H1).
    apply can_create_build_options in H2 as (? & ? & [= <- <-] & _ & _ & H2).
    by eapply first_held_total_unique.
  - apply NoDup_can_create_build.
  - by vm_compute.
Qed.

(** C10. [calculate_total] returns a list without duplicates, sorted in
    strictly ascending order; hence the total [can_create_build] attaches
    to a sub-sequence of loose cards is the smallest total of the
    sub-sequence plus the played card for which the player holds a
    matching card: it is such a total, no such total is smaller, and the
    option with the smallest such total is the one listed. *)
Theorem calculate_total_ascending_smallest_total :
  (∀ cards, NoDup (calculate_total cards)
            ∧ StronglySorted Z.lt (calculate_total cards))
  ∧ (∀ g played_card pi combo total,
       single_config combo played_card total ∈ can_create_build g played_card pi →
       total ∈ calculate_total (combo ++ [played_card])
       ∧ holds_value (players g !!! pi) played_card total
       ∧ ∀ t, t ∈ calculate_total (combo ++ [played_card]) →
              holds_value (players g !!! pi) played_card t → total ≤ t)
  ∧ (∀ g played_card pi combo total,
       combo ≠ [] → combo `sublist_of` get_loose_cards g →
       total ∈ calculate_total (combo ++ [played_card]) →
       holds_value (players g !!! pi) played_card total →
       (∀ t, t ∈ calculate_total (combo ++ [played_card]) →
             holds_value (players g !!! pi) played_card t → total ≤ t) →
       single_config combo played_card total ∈ can_create_build g played_card pi).
Proof.
  split_and!.
  - intros cards. split; [apply calculate_total_NoDup|apply calculate_total_sorted].
  - intros g played_card pi combo total Hin.
    apply can_create_build_options in Hin
      as (? & ? & [= <- <-] & _ & _ & (l1 & l2 & Heq & Hheld & Hfirst)).
    split_and!; [rewrite Heq; apply elem_of_app; right; left|done|].
    intros t Ht Hheld'.
    pose proof (calculate_total_sorted (combo ++ [played_card])) as Hsorted.
    rewrite Heq in Ht, Hsorted.
    apply elem_of_app in Ht as [Ht|Ht]; [by destruct (Hfirst t)|].
    apply StronglySorted_app_1_r in Hsorted.
    apply elem_of_cons in Ht as [->|Ht]; [lia|].
    apply StronglySorted_inv in Hsorted as [_ Hall].
    rewrite Forall_forall in Hall. specialize (Hall t Ht). lia.
  - intros g played_card pi combo total Hne Hs Hin Hheld Hleast.
    apply can_create_build_options. exists combo, total. split_and!; [done..|].
    apply list_elem_of_split in Hin as (l1 & l2 & Heq).
    exists l1, l2. split_and!; [done..|]. intros t Ht Hheld'.
    pose proof (calculate_total_sorted (combo ++ [played_card])) as Hsorted.
    rewrite Heq in Hsorted.
    assert (t < total) as Hlt.
    { apply (StronglySorted_app_1_elem_of _ _ _ _ _ Hsorted Ht). left. }
    assert (total ≤ t); [|lia]. apply Hleast; [|done].
    rewrite Heq. apply elem_of_app. by left.
Qed.

(** C10 at work, scenario B: 8 is the only total of the three of
    diamonds with the five of clubs, the player holds the eight of
    hearts, and 8 is the total the option carries. *)
Lemma smallest_total_scenario_b :
  (single_config [mkCard R3 DIAMONDS] (mkCard R5 CLUBS) 8
   ∈ can_create_build scenario_b (mkCard R5 CLUBS) 0)
  ∧ StronglySorted Z.lt (calculate_total [mkCard R3 DIAMONDS; mkCard R5 CLUBS])
  ∧ 8 ∈ calculate_total ([mkCard R3 DIAMONDS] ++ [mkCard R5 CLUBS])
  ∧ holds_value (players scenario_b !!! 0%nat) (mkCard R5 CLUBS) 8
  ∧ ∀ t, t ∈ calculate_total ([mkCard R3 DIAMONDS] ++ [mkCard R5 CLUBS]) →
         holds_value (players scenario_b !!! 0%nat) (mkCard R5 CLUBS) t → 8 ≤ t.
Proof.
  assert (single_config [mkCard R3 DIAMONDS] (mkCard R5 CLUBS) 8
          ∈ can_create_build scenario_b (mkCard R5 CLUBS) 0) as Hin.
  { vm_compute. left. }
  destruct calculate_total_ascending_smallest_total as (Hsorted & Hsmallest & _).
  split; [done|]. split; [apply Hsorted|].
  exact (Hsmallest scenario_b (mkCard R5 CLUBS) 0%nat [mkCard R3 DIAMONDS] 8 Hin).
Defined.

(** ** Executing a capture *)

Lemma filter_all {A} (P : A → Prop) `{∀ x, Decision (P x)} (l : list A) :
  Forall P l → filter P l = l.
Proof.
  induction 1 as [|x l Hx Hl IH]; [done|].
  by rewrite filter_cons_True, IH.
Qed.

(** *** What [==] and [list.remove] do on a layout *)

Section removal.

Context (σ : list Build).
Implicit Types (x y : Item) (lay : list Item).

Lemma item_eqb_refl x : item_eqb σ x x = true.
Proof. destruct x; simpl; [by apply bool_decide_eq_true|]. by rewrite bool_decide_eq_true_2. Qed.

Lemma item_eqb_card c y : item_eqb σ y (ICard c) = true ↔ y = ICard c.
Proof.
  destruct y as [c'|h]; simpl; [|done].
  rewrite bool_decide_eq_true. split; congruence.
Qed.

Lemma present_card lay c : present σ lay (ICard c) ↔ ICard c ∈ lay.
Proof.
  split.
  - intros (y & Hy & Heq). by apply item_eqb_card in Heq as ->.
  - intros Hin. exists (ICard c). by rewrite item_eqb_refl.
Qed.

Lemma distinct_items_NoDup lay : distinct_items σ lay → NoDup lay.
Proof.
  induction lay as [|x l IH]; [constructor|]. intros [Hx Hl].
  constructor; [|by apply IH]. intros Hin.
  rewrite Forall_forall in Hx. specialize (Hx x Hin).
  by rewrite item_eqb_refl in Hx.
Qed.

Lemma distinct_items_filter (P : Item → Prop) `{∀ x, Decision (P x)} lay :
  distinct_items σ lay → distinct_items σ (filter P lay).
Proof.
  induction lay as [|x l IH]; [done|]. intros [Hx Hl].
  rewrite filter_cons. case_decide; [|by apply IH].
  split; [|by apply IH]. rewrite Forall_forall in Hx. apply Forall_forall.
  intros y [_ Hy]%list_elem_of_filter. by apply Hx.
Qed.

Lemma py_remove_Some x lay lay' :
  py_remove (item_eqb σ) x lay = Some lay' →
  present σ lay x ∧ lay' `sublist_of` lay ∧ length lay = S (length lay').
Proof.
  revert lay'. induction lay as [|y l IH]; intros lay'; simpl; [done|].
  destruct (item_eqb σ y x) eqn:Heq.
  - intros [= ->]. split_and!; [|by apply sublist_cons|done].
    exists y. split; [left|done].
  - destruct (py_remove _ x l) as [l'|] eqn:Hrem; [|done]. intros [= <-].
    destruct (IH l' eq_refl) as ((z & Hz & Hzx) & Hs & Hlen).
    split_and!; [|by apply sublist_skip|simpl; lia].
    exists z. split; [by right|done].
Qed.

Lemma py_remove_None x lay :
  py_remove (item_eqb σ) x lay = None ↔ ¬ present σ lay x.
Proof.
  induction lay as [|y l IH]; simpl.
  - split; [|done]. intros _ (z & Hz & _). by apply elem_of_nil in Hz.
  - destruct (item_eqb σ y x) eqn:Heq.
    + split; [done|]. intros Hn. destruct Hn. exists y. split; [left|done].
    + destruct (py_remove _ x l) as [l'|] eqn:Hrem; simpl.
      * split; [done|]. intros Hn. apply py_remove_Some in Hrem as ((z & Hz & Hzx) & _).
        destruct Hn. exists z. split; [by right|done].
      * split; [|done]. intros _ (z & [->|Hz]%elem_of_cons & Hzx); [congruence|].
        apply IH; [done|]. by exists z.
Qed.

Lemma py_remove_distinct x lay :
  distinct_items σ lay → x ∈ lay →
  py_remove (item_eqb σ) x lay = Some (filter (λ y, y ≠ x) lay).
Proof.
  induction lay as [|y l IH]; intros Hd Hin; [by apply elem_of_nil in Hin|].
  destruct Hd as [Hy Hl]. simpl. rewrite filter_cons.
  rewrite Forall_forall in Hy.
  destruct (item_eqb σ y x) eqn:Heq.
  - assert (y = x) as ->.
    { apply elem_of_cons in Hin as [->|Hin]; [done|].
      specialize (Hy x Hin). congruence. }
    rewrite decide_False by (intros Hne; by apply Hne). f_equal.
    symmetry. apply filter_all. apply Forall_forall. intros z Hz ->.
    specialize (Hy x Hz). by rewrite item_eqb_refl in Hy.
  - assert (y ≠ x) by (intros ->; by rewrite item_eqb_refl in Heq).
    rewrite decide_True by done.
    apply elem_of_cons in Hin as [->|Hin]; [done|]. by rewrite IH.
Qed.

Lemma capture_loop_distinct grp : ∀ lay acc,
  distinct_items σ lay → NoDup grp → (∀ it, it ∈ grp → it ∈ lay) →
  capture_loop σ grp lay acc
  = (filter (λ it, it ∉ grp) lay, Returned (acc ++ (grp ≫= item_cards σ))).
Proof.
  induction grp as [|x grp IH]; intros lay acc Hd Hnd Hin; simpl.
  - rewrite app_nil_r. f_equal. symmetry. apply filter_all, Forall_forall.
    intros y _. apply not_elem_of_nil.
  - apply NoDup_cons in Hnd as [Hx Hnd].
    rewrite py_remove_distinct by (done || apply Hin; left).
    rewrite IH; [|by apply distinct_items_filter|done|].
    + rewrite list_filter_filter, <- app_assoc. do 2 f_equal.
      apply list_filter_iff. intros y. rewrite not_elem_of_cons. tauto.
    + intros y Hy. apply list_elem_of_filter. split; [by intros ->|].
      apply Hin. by right.
Qed.

End removal.

Lemma lookup_mark_last_capture pi ps j :
  mark_last_capture pi ps !! j
  = (λ p, set_last_capture (bool_decide (j = pi)) p) <$> ps !! j.
Proof.
  unfold mark_last_capture. destruct (decide (j = pi)) as [->|Hne].
  - rewrite bool_decide_eq_true_2 by done.
    rewrite list_lookup_alter_eq, list_lookup_fmap. by destruct (ps !! pi).
  - rewrite bool_decide_eq_false_2 by done.
    by rewrite list_lookup_alter_ne, list_lookup_fmap.
Qed.

Lemma distinct_items_loose_NoDup σ lay :
  distinct_items σ lay → NoDup (loose_of lay).
Proof.
  intros Hnd%distinct_items_NoDup. induction Hnd as [|it l Hit Hl IH]; [constructor|].
  destruct it as [c|h]; [|done]. unfold loose_of in *. cbn.
  constructor; [|done]. by rewrite elem_of_loose_of.
Qed.

(** On a layout without equal entries every group [find_captures]
    lists is a non-empty list of distinct layout entries. *)
Lemma find_captures_wellformed g played_card grp :
  distinct_items (store g) (layout g) → grp ∈ find_captures g played_card →
  grp ≠ [] ∧ NoDup grp ∧ ∀ it, it ∈ grp → it ∈ layout g.
Proof.
  intros Hd [(c & -> & Hc & _)|[(h & -> & Hh & _)|[(cs & -> & Hs & Hl & _)|
             (c & h & -> & Hc & Hh & _)]]]%find_captures_shapes.
  - split_and!; [done|apply NoDup_singleton|].
    by intros it ->%list_elem_of_singleton.
  - split_and!; [done|apply NoDup_singleton|].
    by intros it ->%list_elem_of_singleton.
  - split_and!.
    + destruct cs; [simpl in Hl; lia|done].
    + apply NoDup_fmap_2; [by intros ?? [= ->]|].
      eapply sublist_NoDup; [|done]. by apply (distinct_items_loose_NoDup (store g)).
    + intros it (c & -> & Hc)%list_elem_of_fmap.
      apply elem_of_get_loose_cards. by eapply elem_of_sublist.
  - split_and!; [done| |].
    + apply NoDup_cons. split; [|apply NoDup_singleton].
      by intros ?%list_elem_of_singleton.
    + intros it [->|Hit]%elem_of_cons; [done|].
      by apply list_elem_of_singleton in Hit as ->.
Qed.

(** C4. When the items of a non-empty capture group are distinct
    entries of a layout without equal entries, [execute_capture] succeeds;
    afterwards no item of the group is on the layout, every other entry is
    still there, in its place and with the same build behind it, the
    capture pile of the acting player has grown by the played card
    followed by the cards of the items in the order of the group (a build
    gives all its member cards), the acting player is marked
    [last_capture] and every other player is not. *)
Theorem execute_capture_post g pi played_card grp :
  grp ≠ [] → NoDup grp → distinct_items (store g) (layout g) →
  (∀ it, it ∈ grp → it ∈ layout g) →
  ∃ g', execute_capture g pi played_card grp = (g', Returned true)
    ∧ (∀ it, it ∈ grp → it ∉ layout g')
    ∧ layout g' = filter (λ it, it ∉ grp) (layout g)
    ∧ store g' = store g ∧ deck g' = deck g
    ∧ length (players g') = length (players g)
    ∧ (∀ p, players g !! pi = Some p →
         players g' !! pi
         = Some (mkPlayer (hand p)
                   (capture_pile p ++ played_card :: (grp ≫= item_cards (store g)))
                   (is_ai p) true))
    ∧ (∀ j p, j ≠ pi → players g !! j = Some p →
         players g' !! j
         = Some (mkPlayer (hand p) (capture_pile p) (is_ai p) false)).
Proof.
  intros Hne Hnd Hd Hin. unfold execute_capture.
  rewrite capture_loop_distinct by done.
  destruct grp as [|x grp'] eqn:Hgrp; [done|]. rewrite <- Hgrp in *. clear Hgrp Hne.
  eexists. split; [reflexivity|]. simpl. split_and!; try done.
  - intros it Hit Hin'. by apply list_elem_of_filter in Hin' as [? _].
  - unfold mark_last_capture. by rewrite length_alter, length_fmap, length_alter.
  - intros p Hp. rewrite lookup_mark_last_capture, list_lookup_alter_eq, Hp. simpl.
    by rewrite bool_decide_eq_true_2.
  - intros j p Hj Hp.
    rewrite lookup_mark_last_capture, list_lookup_alter_ne, Hp by done. simpl.
    by rewrite bool_decide_eq_false_2.
Qed.

(** C4 at work: the nine of clubs takes the loose Ace together with
    the build worth 8. *)
Lemma execute_capture_post_witness :
  ([ICard (mkCard RA HEARTS); IBuild 0] ≠ []
   ∧ NoDup [ICard (mkCard RA HEARTS); IBuild 0]
   ∧ distinct_items (store capture_game) (layout capture_game)
   ∧ ∀ it, it ∈ [ICard (mkCard RA HEARTS); IBuild 0] → it ∈ layout capture_game)
  ∧ ∃ g', execute_capture capture_game 0 (mkCard R9 CLUBS)
            [ICard (mkCard RA HEARTS); IBuild 0] = (g', Returned true)
      ∧ layout g' = [ICard (mkCard R7 HEARTS)]
      ∧ players g' !! 0%nat
        = Some (mkPlayer [mkCard R9 CLUBS]
                  [mkCard RA CLUBS; mkCard R9 CLUBS; mkCard RA HEARTS;
                   mkCard R5 HEARTS; mkCard R3 SPADES] false true)
      ∧ players g' !! 1%nat = Some (mkPlayer [] [] false false).
Proof.
  assert (NoDup [ICard (mkCard RA HEARTS); IBuild 0]) as Hnd.
  { apply NoDup_cons. split; [|apply NoDup_singleton].
    intros Hin. by apply list_elem_of_singleton in Hin. }
  assert (distinct_items (store capture_game) (layout capture_game)) as Hd.
  { simpl. repeat split; repeat constructor. }
  assert (∀ it, it ∈ [ICard (mkCard RA HEARTS); IBuild 0] → it ∈ layout capture_game)
    as Hin.
  { intros it Hit. simpl.
    apply elem_of_cons in Hit as [->|Hit]; [do 2 right; left|].
    apply list_elem_of_singleton in Hit as ->. right; left. }
  split; [done|].
  destruct (execute_capture_post capture_game 0 (mkCard R9 CLUBS)
              [ICard (mkCard RA HEARTS); IBuild 0])
    as (g' & Hrun & _ & Hlay & _ & _ & _ & Hme & Hother); [done..|].
  exists g'. split_and!; [done|by rewrite Hlay| |].
  - exact (Hme _ eq_refl).
  - refine (Hother 1%nat _ _ eq_refl). lia.
Defined.

(** ** Stale options *)

Lemma present_sublist σ lay lay' x :
  lay' `sublist_of` lay → present σ lay' x → present σ lay x.
Proof.
  intros Hs (y & Hy & Heq). exists y. split; [|done]. by eapply elem_of_sublist.
Qed.

Lemma capture_loop_stale σ grp : ∀ lay acc,
  (∃ x, x ∈ grp ∧ ¬ present σ lay x) →
  ∃ lay', capture_loop σ grp lay acc = (lay', Raised ValueError)
          ∧ lay' `sublist_of` lay.
Proof.
  induction grp as [|item rest IH]; intros lay acc (x & Hx & Habs); simpl.
  - by apply elem_of_nil in Hx.
  - destruct (py_remove _ item lay) as [lay1|] eqn:Hrem; [|by exists lay].
    apply py_remove_Some in Hrem as (Hpres & Hs & _).
    apply elem_of_cons in Hx as [->|Hx]; [done|].
    destruct (IH lay1 (acc ++ item_cards σ item)) as (lay' & -> & Hs').
    + exists x. split; [done|]. intros Hp. apply Habs. by eapply present_sublist.
    + exists lay'. split; [done|]. by etrans.
Qed.

Lemma remove_cards_stale σ cs : ∀ lay,
  (∃ c, c ∈ cs ∧ ICard c ∉ lay) →
  ∃ lay', remove_cards σ cs lay = (lay', Raised ValueError)
          ∧ lay' `sublist_of` lay.
Proof.
  induction cs as [|card rest IH]; intros lay (c & Hc & Habs); simpl.
  - by apply elem_of_nil in Hc.
  - destruct (py_remove _ (ICard card) lay) as [lay1|] eqn:Hrem; [|by exists lay].
    apply py_remove_Some in Hrem as (Hpres & Hs & _).
    apply present_card in Hpres.
    apply elem_of_cons in Hc as [->|Hc]; [done|].
    destruct (IH lay1) as (lay' & -> & Hs').
    + exists c. split; [done|]. intros Hin. apply Habs. by eapply elem_of_sublist.
    + exists lay'. split; [done|]. by etrans.
Qed.

Lemma set_layout_same g : set_layout g (layout g) = g.
Proof. by destruct g. Qed.

(** C7 as stated fails: the capture of the three of spades and the
    four of diamonds with the seven of clubs is an option gone stale, the
    four is no longer on the layout.  The call raises, and the three of
    spades has left the layout all the same. *)
Lemma stale_capture_changes_layout :
  (ICard (mkCard R4 DIAMONDS) ∉ layout stale_game)
  ∧ (execute_capture stale_game 0 (mkCard R7 CLUBS)
       [ICard (mkCard R3 SPADES); ICard (mkCard R4 DIAMONDS)]
     = (set_layout stale_game [ICard (mkCard R7 HEARTS)], Raised ValueError))
  ∧ layout (set_layout stale_game [ICard (mkCard R7 HEARTS)]) ≠ layout stale_game.
Proof.
  split_and!; [|done|done].
  simpl. rewrite !not_elem_of_cons. split_and!; [done..|apply not_elem_of_nil].
Qed.

(** C7, as the code has it.  When an item of the chosen capture group,
    or a card of a build-creation configuration, is not on the layout,
    [execute_capture] and [execute_build] raise [ValueError] to the
    caller.  Hands, capture piles, [last_capture] flags, builds and deck
    are as before, nothing is added to the layout (no discard, no build);
    the layout is a sub-sequence of the old one, and it is the old one
    when the missing item is the first of the group. *)
Theorem stale_option_raises :
  (∀ g pi played_card grp,
     (∃ x, x ∈ grp ∧ ¬ present (store g) (layout g) x) →
     ∃ g', execute_capture g pi played_card grp = (g', Raised ValueError)
       ∧ players g' = players g ∧ store g' = store g ∧ deck g' = deck g
       ∧ layout g' `sublist_of` layout g
       ∧ (∀ x rest, grp = x :: rest → ¬ present (store g) (layout g) x → g' = g))
  ∧ (∀ g pi played_card cfg cs total,
       default "single"%string (cfg_type cfg) = "single"%string →
       cfg_cards cfg = Some cs → cfg_total_value cfg = Some total →
       (∃ c, c ∈ cs ∧ ICard c ∉ layout g) →
       ∃ g', execute_build g pi played_card cfg = (g', Raised ValueError)
         ∧ players g' = players g ∧ store g' = store g ∧ deck g' = deck g
         ∧ layout g' `sublist_of` layout g
         ∧ (∀ c rest, cs = c :: rest → ICard c ∉ layout g → g' = g)).
Proof.
  split.
  - intros g pi played_card grp Hstale. unfold execute_capture.
    destruct (capture_loop_stale (store g) grp (layout g) [] Hstale)
      as (lay' & Hloop & Hs).
    destruct grp as [|x rest]; [by destruct Hstale as (? & ?%elem_of_nil & _)|].
    rewrite Hloop. eexists. split; [done|]. simpl. split_and!; [done..|].
    intros x' rest' [= <- <-] Habs. simpl in Hloop.
    apply py_remove_None in Habs. rewrite Habs in Hloop. simplify_eq.
    apply set_layout_same.
  - intros g pi played_card cfg cs total Hty Hcs Htot Hstale. unfold execute_build.
    rewrite Hty, Hcs, Htot. rewrite decide_True by done.
    destruct (remove_cards_stale (store g) cs (layout g) Hstale)
      as (lay' & Hloop & Hs).
    rewrite Hloop. eexists. split; [done|]. simpl. split_and!; [done..|].
    intros c rest -> Habs. simpl in Hloop.
    rewrite <- present_card in Habs. apply py_remove_None in Habs.
    rewrite Habs in Hloop. simplify_eq. apply set_layout_same.
Qed.

(** C7 at work on the same call: it raises [ValueError], the players
    are as before and the layout has only shrunk. *)
Lemma stale_option_raises_witness :
  (∃ x, x ∈ [ICard (mkCard R3 SPADES); ICard (mkCard R4 DIAMONDS)]
        ∧ ¬ present (store stale_game) (layout stale_game) x)
  ∧ ∃ g', execute_capture stale_game 0 (mkCard R7 CLUBS)
            [ICard (mkCard R3 SPADES); ICard (mkCard R4 DIAMONDS)]
          = (g', Raised ValueError)
      ∧ players g' = players stale_game
      ∧ layout g' `sublist_of` layout stale_game.
Proof.
  assert (∃ x, x ∈ [ICard (mkCard R3 SPADES); ICard (mkCard R4 DIAMONDS)]
               ∧ ¬ present (store stale_game) (layout stale_game) x) as Hstale.
  { exists (ICard (mkCard R4 DIAMONDS)). split; [right; left|].
    rewrite present_card. simpl. rewrite !not_elem_of_cons.
    split_and!; [done..|apply not_elem_of_nil]. }
  split; [done|]. destruct stale_option_raises as [Hcapture _].
  destruct (Hcapture stale_game 0%nat (mkCard R7 CLUBS) _ Hstale)
    as (g' & Hrun & Hps & _ & _ & Hs & _).
  by exists g'.
Defined.

(** ** End of hand *)

Lemma first_last_capturer g i p :
  players g !! i = Some p → last_capture p = true →
  (∀ j q, (j < i)%nat → players g !! j = Some q → last_capture q = false) →
  list_find (λ p, last_capture p = true) (players g) = Some (i, p).
Proof.
  intros Hp Hlast Hfirst. apply list_find_Some. split_and!; [done..|].
  intros j q Hq Hj. rewrite (Hfirst j q Hj Hq). done.
Qed.

Lemma no_last_capturer g :
  (∀ p, p ∈ players g → last_capture p = false) →
  list_find (λ p, last_capture p = true) (players g) = None.
Proof.
  intros Hnone. apply list_find_None, Forall_forall.
  intros p Hp. rewrite (Hnone p Hp). done.
Qed.

(** C8. At the end of a hand the player marked [last_capture] (the
    first such player in seating order) gets every card left on the
    layout added to the capture pile, the loose cards and the member cards
    of the builds in layout order, no other player changes, and the layout
    is empty afterwards.  When no player is marked, the game is left as it
    is: no capture pile changes. *)
Theorem end_of_hand_remainder g :
  (∀ i p, players g !! i = Some p → last_capture p = true →
     (∀ j q, (j < i)%nat → players g !! j = Some q → last_capture q = false) →
     layout (end_of_hand_cleanup g) = []
     ∧ players (end_of_hand_cleanup g) !! i
       = Some (mkPlayer (hand p)
                 (capture_pile p ++ (layout g ≫= item_cards (store g)))
                 (is_ai p) (last_capture p))
     ∧ (∀ j, j ≠ i → players (end_of_hand_cleanup g) !! j = players g !! j)
     ∧ length (players (end_of_hand_cleanup g)) = length (players g)
     ∧ store (end_of_hand_cleanup g) = store g)
  ∧ ((∀ p, p ∈ players g → last_capture p = false) → end_of_hand_cleanup g = g).
Proof.
  split.
  - intros i p Hp Hlast Hfirst. unfold end_of_hand_cleanup.
    rewrite (first_last_capturer g i p) by done.
    destruct (layout g) as [|it lay] eqn:Hlay.
    { rewrite Hlay, Hp. simpl. rewrite app_nil_r. by destruct p. }
    destruct ((it :: lay) ≫= item_cards (store g)) as [|c cs] eqn:Hrem; simpl.
    + rewrite Hp, app_nil_r. by destruct p.
    + rewrite list_lookup_alter_eq, Hp, length_alter. split_and!; [done..| |done|done].
      intros j Hj. by rewrite list_lookup_alter_ne.
  - intros Hnone. unfold end_of_hand_cleanup. by rewrite no_last_capturer.
Qed.

(** C8 at work: the second player captured last and takes the seven,
    the build of the five and the three, and the Ace. *)
Lemma end_of_hand_remainder_witness :
  (players capture_game !! 1%nat = Some (mkPlayer [] [] false true)
   ∧ ∀ j q, (j < 1)%nat → players capture_game !! j = Some q →
            last_capture q = false)
  ∧ layout (end_of_hand_cleanup capture_game) = []
  ∧ players (end_of_hand_cleanup capture_game) !! 1%nat
    = Some (mkPlayer []
              [mkCard R7 HEARTS; mkCard R5 HEARTS; mkCard R3 SPADES;
               mkCard RA HEARTS] false true)
  ∧ players (end_of_hand_cleanup capture_game) !! 0%nat
    = players capture_game !! 0%nat.
Proof.
  assert (∀ j q, (j < 1)%nat → players capture_game !! j = Some q →
                 last_capture q = false) as Hfirst.
  { intros [|j] q Hj; [|lia]. by intros [= <-]. }
  split; [done|].
  destruct (end_of_hand_remainder capture_game) as [Hlast _].
  destruct (Hlast 1%nat (mkPlayer [] [] false true) eq_refl eq_refl Hfirst)
    as (Hlay & Hme & Hothers & _).
  split_and!; [done|done|]. apply Hothers. lia.
Defined.

(** ** Build validity *)

Lemma remove_cards_sublist σ cs : ∀ lay lay' r,
  remove_cards σ cs lay = (lay', r) → lay' `sublist_of` lay.
Proof.
  induction cs as [|c cs IH]; intros lay lay' r; simpl.
  - by intros [= -> _].
  - destruct (py_remove _ (ICard c) lay) as [lay1|] eqn:Hrem.
    + intros Hrec. apply IH in Hrec. apply py_remove_Some in Hrem as (_ & Hs & _).
      by etrans.
    + by intros [= -> _].
Qed.

Lemma can_augment_build_options g played_card pi cfg :
  cfg ∈ can_augment_build g played_card pi →
  ∃ h, IBuild h ∈ layout g
    ∧ ((∃ new_total,
          cfg = change_config h played_card new_total
          ∧ new_total ∈ calculate_total (cards (store g !!! h) ++ [played_card]))
       ∨ ∃ card, cfg = augment_config h played_card card).
Proof.
  unfold can_augment_build. intros (h & Hcfg & Hh)%list_elem_of_bind.
  exists h. split; [by apply elem_of_get_builds|].
  apply elem_of_app in Hcfg as [Hcfg|Hcfg].
  - destruct (_ && _); [|by apply elem_of_nil in Hcfg].
    apply list_elem_of_bind in Hcfg as (new_total & Hcfg & Hnt).
    case_decide; [|by apply elem_of_nil in Hcfg].
    apply list_elem_of_singleton in Hcfg as ->. left. eauto.
  - destruct (_ || _); [|by apply elem_of_nil in Hcfg].
    apply list_elem_of_bind in Hcfg as (card & Hcfg & _).
    apply list_elem_of_bind in Hcfg as (v & Hcfg & _).
    case_decide; [|by apply elem_of_nil in Hcfg].
    apply list_elem_of_singleton in Hcfg as ->. right. eauto.
Qed.

(** Shrinking the layout keeps the two invariants. *)
Lemma invariants_sublist g lay :
  lay `sublist_of` layout g → layout_wf g → plain_builds_valid g →
  layout_wf (set_layout g lay) ∧ plain_builds_valid (set_layout g lay).
Proof.
  intros Hs Hwf Hval. split; intros h Hh; simpl in *.
  - apply Hwf. by eapply elem_of_sublist.
  - apply Hval. by eapply elem_of_sublist.
Qed.

Lemma create_keeps_valid g pi played_card combo total :
  layout_wf g → plain_builds_valid g →
  total ∈ calculate_total (combo ++ [played_card]) →
  layout_wf (execute_build g pi played_card (single_config combo played_card total)).1
  ∧ plain_builds_valid
      (execute_build g pi played_card (single_config combo played_card total)).1.
Proof.
  intros Hwf Hval Htotal. unfold execute_build. simpl.
  destruct (remove_cards (store g) combo (layout g)) as [lay r] eqn:Hrem.
  apply remove_cards_sublist in Hrem.
  destruct r as [[]|e]; simpl; [|by apply invariants_sublist].
  split; intros h Hh; simpl in *.
  - rewrite length_app. simpl. apply elem_of_app in Hh as [Hh|Hh].
    + assert (h < length (store g))%nat; [|lia]. apply Hwf. by eapply elem_of_sublist.
    + apply list_elem_of_singleton in Hh. simplify_eq. lia.
  - apply elem_of_app in Hh as [Hh|Hh].
    + assert (IBuild h ∈ layout g) as Hin by (by eapply elem_of_sublist).
      rewrite lookup_total_app_l by (by apply Hwf). by apply Hval.
    + apply list_elem_of_singleton in Hh. simplify_eq.
      rewrite list_lookup_total_middle by done. intros _. done.
Qed.

Lemma change_makes_valid g pi played_card h new_total ty :
  ty ≠ "single"%string → layout_wf g → plain_builds_valid g →
  IBuild h ∈ layout g →
  new_total ∈ calculate_total (cards (store g !!! h) ++ [played_card]) →
  let g' := (execute_build g pi played_card
               (with_type (Some ty) (change_config h played_card new_total))).1 in
  layout_wf g' ∧ plain_builds_valid g' ∧ build_valid (store g' !!! h).
Proof.
  intros Hty Hwf Hval Hh Hnt. unfold execute_build. simpl.
  rewrite decide_False by done. simpl.
  assert (h < length (store g))%nat as Hlt by (by apply Hwf).
  assert (build_valid
            (alter (λ b, mkBuild (cards b) new_total pi (is_augmented b)) h
               (alter (λ b, mkBuild (cards b ++ [played_card]) (total_value b)
                                    (owner b) (is_augmented b)) h (store g)) !!! h))
    as Hnew.
  { rewrite !list_lookup_total_alter_eq by (by rewrite ?length_alter). done. }
  split_and!; [| |done].
  - intros k Hk. simpl in *. rewrite !length_alter. by apply Hwf.
  - intros k Hk. simpl in *. destruct (decide (h = k)) as [<-|Hne]; [done|].
    rewrite !list_lookup_total_alter_ne by done. by apply Hval.
Qed.

Lemma augment_keeps_plain_valid g pi played_card h card ty :
  ty ≠ "single"%string → layout_wf g → plain_builds_valid g →
  IBuild h ∈ layout g →
  let g' := (execute_build g pi played_card
               (with_type (Some ty) (augment_config h played_card card))).1 in
  layout_wf g' ∧ plain_builds_valid g'
  ∧ store g' !!! h
    = mkBuild (cards (store g !!! h) ++ [played_card; card])
              (total_value (store g !!! h)) (owner (store g !!! h)) true.
Proof.
  intros Hty Hwf Hval Hh. unfold execute_build. simpl.
  rewrite decide_False by done. simpl.
  assert (h < length (store g))%nat as Hlt by (by apply Hwf).
  set (lay := if decide (card ∈ get_loose_cards g) then _ else _).
  assert (lay `sublist_of` layout g) as Hs.
  { subst lay. case_decide; [|done].
    destruct (py_remove _ _ _) as [lay'|] eqn:Hrem; [|done].
    by apply py_remove_Some in Hrem as (_ & ? & _). }
  split_and!.
  - intros k Hk. simpl in *. rewrite length_alter. apply Hwf. by eapply elem_of_sublist.
  - intros k Hk. simpl in *. destruct (decide (h = k)) as [<-|Hne].
    + by rewrite list_lookup_total_alter_eq.
    + rewrite list_lookup_total_alter_ne by done. apply Hval. by eapply elem_of_sublist.
  - simpl. by rewrite list_lookup_total_alter_eq.
Qed.

Lemma py_remove_split σ c lay lay' :
  py_remove (item_eqb σ) (ICard c) lay = Some lay' →
  ∃ l1 l2, lay = l1 ++ ICard c :: l2 ∧ lay' = l1 ++ l2 ∧ ICard c ∉ l1.
Proof.
  revert lay'. induction lay as [|y l IH]; intros lay'; simpl; [done|].
  destruct (item_eqb σ y (ICard c)) eqn:Heq.
  - intros [= ->]. apply item_eqb_card in Heq as ->.
    exists [], lay'. split_and!; [done..|apply not_elem_of_nil].
  - destruct (py_remove _ _ l) as [l'|]; [|done]. intros [= <-].
    destruct (IH l' eq_refl) as (l1 & l2 & -> & -> & Hnin).
    exists (y :: l1), l2. split_and!; [done..|].
    apply not_elem_of_cons. split; [|done].
    intros <-. by rewrite item_eqb_refl in Heq.
Qed.

(** The cards of a sub-sequence of the loose cards can be taken off the
    layout one after the other. *)
Lemma remove_cards_sublist_ok σ cs : ∀ lay,
  cs `sublist_of` loose_of lay →
  ∃ lay', remove_cards σ cs lay = (lay', Returned ()).
Proof.
  induction cs as [|c cs IH]; intros lay Hs; simpl; [by eexists|].
  assert (ICard c ∈ lay) as Hc.
  { apply elem_of_loose_of. eapply elem_of_sublist; [|done]. left. }
  destruct (py_remove _ (ICard c) lay) as [lay'|] eqn:Hrem.
  2: { apply py_remove_None in Hrem. destruct Hrem. by apply present_card. }
  apply IH. apply py_remove_split in Hrem as (l1 & l2 & -> & -> & Hnin).
  rewrite loose_of_app in *. unfold loose_of at 2 in Hs. simpl in Hs.
  fold (loose_of l2) in Hs.
  apply sublist_app_cons_r in Hs as [Hs|(k1 & k2 & Heq & Hs1 & Hs2)].
  - etrans; [|done]. by apply sublist_cons.
  - destruct k1 as [|c' k1]; simplify_eq/=.
    + by apply sublist_inserts_l.
    + exfalso. apply Hnin, elem_of_loose_of. eapply elem_of_sublist; [|done]. left.
Qed.

(** C2 as stated fails: the eight-build of the first player is
    augmented with the two of clubs from hand and the loose eight of
    diamonds; the total stays 8, the four member cards resolve to 18
    only. *)
Lemma own_augmentation_breaks_validity :
  (IBuild 0 ∈ layout augment_game ∧ build_valid (store augment_game !!! 0%nat))
  ∧ augment_config 0 (mkCard R2 CLUBS) (mkCard R8 DIAMONDS)
    ∈ can_augment_build augment_game (mkCard R2 CLUBS) 0
  ∧ (execute_build augment_game 0 (mkCard R2 CLUBS)
       (with_type (Some "augment"%string)
          (augment_config 0 (mkCard R2 CLUBS) (mkCard R8 DIAMONDS)))
     = (mkGame 2 None [] [mkPlayer [mkCard R8 HEARTS] [] false false; idle]
          [IBuild 0]
          [mkBuild [mkCard R5 HEARTS; mkCard R3 SPADES; mkCard R2 CLUBS;
                    mkCard R8 DIAMONDS] 8 0 true] 0,
        Returned true))
  ∧ calculate_total [mkCard R5 HEARTS; mkCard R3 SPADES; mkCard R2 CLUBS;
                     mkCard R8 DIAMONDS] = [18]
  ∧ ¬ build_valid (mkBuild [mkCard R5 HEARTS; mkCard R3 SPADES; mkCard R2 CLUBS;
                            mkCard R8 DIAMONDS] 8 0 true).
Proof.
  assert (calculate_total [mkCard R5 HEARTS; mkCard R3 SPADES; mkCard R2 CLUBS;
                           mkCard R8 DIAMONDS] = [18]) as Htot by (by vm_compute).
  split_and!.
  - simpl. left.
  - unfold build_valid. by vm_compute; left.
  - by vm_compute; left.
  - by vm_compute.
  - done.
  - unfold build_valid. cbn [cards total_value]. rewrite Htot.
    by intros ?%list_elem_of_singleton.
Qed.

Lemma first_held_total_elem p played_card totals total :
  first_held_total p played_card totals total → total ∈ totals.
Proof. intros (l1 & l2 & -> & _). apply elem_of_app. right. left. Qed.

Lemma untyped_augment_raises g pi played_card cfg ty :
  default "single"%string ty = "single"%string → cfg_cards cfg = None →
  execute_build g pi played_card (with_type ty cfg) = (g, Raised KeyError).
Proof.
  intros Hty Hcards. unfold execute_build. simpl. rewrite Hty, Hcards.
  by rewrite decide_True.
Qed.

(** C2, as the code has it.  On a layout whose builds that were never
    augmented are valid: a build created from an option of
    [can_create_build] is put on the layout and is valid; executing an
    option of [can_augment_build], whatever its ['type'] key, keeps every
    never-augmented build valid; an opponent-build change makes the
    changed build valid for its new total and gives it to the player; an
    own-build augmentation appends the played and the augmenting card,
    keeps [total_value] and sets [is_augmented], so the build leaves the
    builds the invariant speaks of. *)
Theorem build_validity_preserved g pi played_card :
  layout_wf g → plain_builds_valid g →
  (∀ cfg, cfg ∈ can_create_build g played_card pi →
     ∃ g' b, execute_build g pi played_card cfg = (g', Returned true)
       ∧ store g' = store g ++ [b] ∧ IBuild (length (store g)) ∈ layout g'
       ∧ build_valid b ∧ is_augmented b = false
       ∧ layout_wf g' ∧ plain_builds_valid g')
  ∧ (∀ cfg ty, cfg ∈ can_augment_build g played_card pi →
       layout_wf (execute_build g pi played_card (with_type ty cfg)).1
       ∧ plain_builds_valid (execute_build g pi played_card (with_type ty cfg)).1)
  ∧ (∀ h new_total ty,
       change_config h played_card new_total ∈ can_augment_build g played_card pi →
       ty ≠ "single"%string →
       ∃ g', execute_build g pi played_card
               (with_type (Some ty) (change_config h played_card new_total))
             = (g', Returned true)
         ∧ build_valid (store g' !!! h)
         ∧ total_value (store g' !!! h) = new_total ∧ owner (store g' !!! h) = pi)
  ∧ (∀ h card ty,
       augment_config h played_card card ∈ can_augment_build g played_card pi →
       ty ≠ "single"%string →
       ∃ g', execute_build g pi played_card
               (with_type (Some ty) (augment_config h played_card card))
             = (g', Returned true)
         ∧ store g' !!! h
           = mkBuild (cards (store g !!! h) ++ [played_card; card])
                     (total_value (store g !!! h)) (owner (store g !!! h)) true).
Proof.
  intros Hwf Hval. split_and!.
  - intros cfg (combo & total & -> & _ & Hs & Hfirst)%can_create_build_options.
    apply first_held_total_elem in Hfirst.
    destruct (remove_cards_sublist_ok (store g) combo (layout g) Hs) as (lay' & Hrem).
    destruct (create_keeps_valid g pi played_card combo total Hwf Hval Hfirst)
      as [Hwf' Hval'].
    unfold execute_build in *. simpl in *. rewrite Hrem in *. simpl in *.
    eexists _, _. split; [reflexivity|]. simpl.
    split_and!; [done| |done..]. apply elem_of_app. right. left.
  - intros cfg ty (h & Hh & Hcfg)%can_augment_build_options.
    destruct (decide (default "single"%string ty = "single"%string)) as [Hty|Hty].
    { rewrite untyped_augment_raises; [done|done|].
      by destruct Hcfg as [(? & -> & _)|(? & ->)]. }
    destruct ty as [ty|]; [|done]. simpl in Hty.
    destruct Hcfg as [(new_total & -> & Hnt)|(card & ->)].
    + by destruct (change_makes_valid g pi played_card h new_total ty) as (? & ? & _).
    + by destruct (augment_keeps_plain_valid g pi played_card h card ty) as (? & ? & _).
  - intros h new_total ty (h' & Hh & Hcfg)%can_augment_build_options Hty.
    destruct Hcfg as [(nt & [= <- <-] & Hnt)|(card & ?)]; [|done].
    destruct (change_makes_valid g pi played_card h new_total ty) as (_ & _ & Hv);
      [done..|].
    assert (h < length (store g))%nat as Hlt by (by apply Hwf).
    unfold execute_build in *. simpl in *. rewrite decide_False in * by done.
    simpl in *. eexists. split; [reflexivity|]. split; [done|]. simpl.
    rewrite !list_lookup_total_alter_eq by (by rewrite ?length_alter). done.
  - intros h card ty (h' & Hh & Hcfg)%can_augment_build_options Hty.
    destruct Hcfg as [(nt & ? & _)|(card' & [= <- <-])]; [done|].
    destruct (augment_keeps_plain_valid g pi played_card h card ty) as (_ & _ & Hst);
      [done..|].
    unfold execute_build in *. simpl in *. rewrite decide_False in * by done.
    simpl in *. eexists. split; [reflexivity|]. done.
Qed.

(** C2 at work: the first player augments the own eight-build with
    the two of clubs and the loose eight of diamonds. *)
Lemma build_validity_preserved_witness :
  (layout_wf augment_game ∧ plain_builds_valid augment_game)
  ∧ ∃ g', execute_build augment_game 0 (mkCard R2 CLUBS)
            (with_type (Some "augment"%string)
               (augment_config 0 (mkCard R2 CLUBS) (mkCard R8 DIAMONDS)))
          = (g', Returned true)
      ∧ store g' !!! 0%nat
        = mkBuild [mkCard R5 HEARTS; mkCard R3 SPADES; mkCard R2 CLUBS;
                   mkCard R8 DIAMONDS] 8 0 true.
Proof.
  assert (∀ h, IBuild h ∈ layout augment_game → h = 0%nat) as Hzero.
  { intros h Hh. simpl in Hh.
    apply elem_of_cons in Hh as [[= ->]|Hh]; [done|].
    by apply list_elem_of_singleton in Hh. }
  assert (layout_wf augment_game) as Hwf.
  { intros h Hh. rewrite (Hzero h Hh). simpl. lia. }
  assert (plain_builds_valid augment_game) as Hval.
  { intros h Hh _. rewrite (Hzero h Hh). unfold build_valid. vm_compute. left. }
  split; [done|].
  destruct (build_validity_preserved augment_game 0 (mkCard R2 CLUBS) Hwf Hval)
    as (_ & _ & _ & Haug).
  apply (Haug 0%nat (mkCard R8 DIAMONDS) "augment"%string); [|done].
  vm_compute. left.
Defined.

(** ** Scoring *)

Lemma has_card_spec p card : has_card p card = true ↔ card ∈ hand p.
Proof.
  unfold has_card. rewrite existsb_exists. split.
  - intros (c & Hc & ->%bool_decide_eq_true). by apply list_elem_of_In.
  - intros Hc. exists card. split; [by apply list_elem_of_In|].
    by apply bool_decide_eq_true.
Qed.

Lemma held_or_captured p card :
  has_card p card || bool_decide (card ∈ capture_pile p) = true
  ↔ card ∈ hand p ∨ card ∈ capture_pile p.
Proof. by rewrite orb_true_iff, has_card_spec, bool_decide_eq_true. Qed.

Lemma weighted_cons pid k x d :
  weighted pid ((k, x) :: d) = key_weight pid k * x + weighted pid d.
Proof. done. Qed.

Lemma weighted_dd_add pid key v d :
  weighted pid (dd_add key v d) = weighted pid d + key_weight pid key * v.
Proof.
  induction d as [|[k x] d IH]; cbn [dd_add].
  - rewrite weighted_cons. unfold weighted. simpl. lia.
  - case_decide as Hk; rewrite !weighted_cons; [subst; lia|]. rewrite IH. lia.
Qed.

Lemma score_add_spec v sc pid sc' :
  score_add v sc pid = Returned sc' →
  length sc' = length sc
  ∧ ∀ j, sc' !!! j = sc !!! j + (if decide (pid = j) then v else 0).
Proof.
  unfold score_add. case_decide as Hlt; [|done]. intros [= <-].
  split; [by rewrite length_alter|]. intros j.
  rewrite list_lookup_total_alter.
  destruct (decide (pid = j)) as [->|Hne].
  - rewrite decide_True by done. lia.
  - rewrite decide_False by (by intros [? _]). lia.
Qed.

Lemma credit_spec v key : ∀ sc sc',
  credit v sc key = Returned sc' →
  length sc' = length sc ∧ ∀ j, sc' !!! j = sc !!! j + key_weight j key * v.
Proof.
  unfold credit, key_weight. induction (key_ids key) as [|i ids IH];
    intros sc sc'; simpl.
  - intros [= <-]. split; [done|]. intros j. lia.
  - destruct (score_add v sc i) as [sc1|] eqn:Hadd; simpl; [|done].
    intros Hrest. apply score_add_spec in Hadd as [Hlen1 Hval1].
    apply IH in Hrest as [Hlen Hval]. split; [congruence|].
    intros j. rewrite Hval, Hval1, filter_cons.
    repeat case_decide; simpl; lia.
Qed.

Lemma add_special_spec special : ∀ sc sc',
  add_special special sc = Returned sc' →
  length sc' = length sc ∧ ∀ j, sc' !!! j = sc !!! j + weighted j special.
Proof.
  unfold add_special. induction special as [|[k v] d IH];
    intros sc sc'; cbn [for_each].
  - intros [= <-]. split; [done|]. intros j. unfold weighted. simpl. lia.
  - cbn [fst snd]. destruct (credit v sc k) as [sc1|] eqn:Hc; simpl; [|done].
    intros Hrest. apply credit_spec in Hc as [Hlen1 Hval1].
    apply IH in Hrest as [Hlen Hval]. split; [congruence|].
    intros j. rewrite Hval, Hval1, weighted_cons. lia.
Qed.

Lemma tally_player_special g t id p t' :
  tally_player g t (id, p) = Returned t' →
  ∃ key, player_key g id = Returned key
    ∧ ∀ j, weighted j (special_scores t')
           = weighted j (special_scores t) + key_weight j key * special_points p.
Proof.
  unfold tally_player. destruct (player_key g id) as [key|]; simpl; [|done].
  intros [= <-]. exists key. split; [done|]. intros j. simpl.
  unfold special_points. rewrite weighted_dd_add.
  destruct (decide (spy_two ∈ hand p ∨ spy_two ∈ capture_pile p)) as [Hs|Hs];
    [apply held_or_captured in Hs
    |rewrite <- held_or_captured in Hs; apply not_true_is_false in Hs];
    rewrite Hs;
    (destruct (decide (big_ten ∈ hand p ∨ big_ten ∈ capture_pile p)) as [Ht|Ht];
     [apply held_or_captured in Ht
     |rewrite <- held_or_captured in Ht; apply not_true_is_false in Ht];
     rewrite Ht); rewrite ?weighted_dd_add; lia.
Qed.

Lemma tally_special g ips : ∀ t t',
  for_each (tally_player g) ips t = Returned t' →
  ∃ keys, Forall2 (λ ip k, player_key g ip.1 = Returned k) ips keys
    ∧ ∀ j, weighted j (special_scores t')
           = weighted j (special_scores t) + special_share keys (snd <$> ips) j.
Proof.
  induction ips as [|[id p] ips IH]; intros t t'; cbn [for_each].
  - intros [= <-]. exists []. split; [constructor|]. intros j.
    unfold special_share. simpl. lia.
  - destruct (tally_player g t (id, p)) as [t1|] eqn:Hp; [|done].
    cbn [mbind Outcome_bind]. intros Hrest.
    apply tally_player_special in Hp as (key & Hkey & Hw1).
    apply IH in Hrest as (keys & Hkeys & Hw).
    exists (key :: keys). split; [by constructor|]. intros j.
    rewrite Hw, Hw1. unfold special_share. rewrite fmap_cons. simpl. lia.
Qed.

Lemma snd_imap_pair {A} (l : list A) : snd <$> imap pair l = l.
Proof.
  rewrite fmap_imap. apply list_eq. intros i.
  rewrite list_lookup_imap. by destruct (l !! i).
Qed.

Lemma dd_add_in_range n key v d :
  Forall (λ i, i < n)%nat (key_ids key) → keys_in_range n d →
  keys_in_range n (dd_add key v d).
Proof.
  intros Hkey. induction 1 as [|[k x] d Hk Hd IH]; cbn [dd_add].
  - by repeat constructor.
  - case_decide; by constructor.
Qed.

Lemma dd_add_nonempty key v d : dd_add key v d ≠ [].
Proof. destruct d as [|[k x] d]; cbn [dd_add]; [done|]. by case_decide. Qed.

Lemma credit_returns v key sc :
  Forall (λ i, i < length sc)%nat (key_ids key) →
  ∃ sc', credit v sc key = Returned sc' ∧ length sc' = length sc.
Proof.
  unfold credit. revert sc. induction (key_ids key) as [|i ids IH];
    intros sc Hids; cbn [for_each]; [by eexists|].
  apply Forall_cons in Hids as [Hi Hids].
  assert (score_add v sc i = Returned (alter (λ x, x + v) i sc)) as ->.
  { unfold score_add. by rewrite decide_True. }
  cbn [mbind Outcome_bind].
  destruct (IH (alter (λ x, x + v) i sc)) as (sc' & -> & Hlen).
  { by rewrite length_alter. }
  exists sc'. split; [done|]. by rewrite Hlen, length_alter.
Qed.

Lemma credit_each_returns v (keys : list Key) : ∀ sc,
  Forall (λ k, Forall (λ i, i < length sc)%nat (key_ids k)) keys →
  ∃ sc', for_each (credit v) keys sc = Returned sc' ∧ length sc' = length sc.
Proof.
  induction keys as [|k keys IH]; intros sc Hkeys; cbn [for_each]; [by eexists|].
  apply Forall_cons in Hkeys as [Hk Hkeys].
  destruct (credit_returns v k sc Hk) as (sc1 & -> & Hlen1).
  cbn [mbind Outcome_bind]. destruct (IH sc1) as (sc' & -> & Hlen).
  { by rewrite Hlen1. }
  exists sc'. split; [done|congruence].
Qed.

Lemma award_returns counts sc :
  counts ≠ [] → keys_in_range (length sc) counts →
  ∃ sc', award counts sc = Returned sc' ∧ length sc' = length sc.
Proof.
  intros Hne Hrange. unfold award, max_count.
  destruct counts as [|[k0 v0] rest]; [done|]. cbn [mbind Outcome_bind].
  set (max_v := foldl Z.max v0 (rest.*2)).
  set (winners := (filter (λ kv : Key * Z, kv.2 = max_v) ((k0, v0) :: rest)).*1).
  assert (Forall (λ k, Forall (λ i, i < length sc)%nat (key_ids k)) winners) as Hw.
  { subst winners. apply Forall_fmap, Forall_forall.
    intros kv [_ Hkv]%list_elem_of_filter. unfold keys_in_range in Hrange.
    rewrite Forall_forall in Hrange. by apply Hrange. }
  destruct winners as [|w [|w' ws]].
  - by apply credit_each_returns.
  - apply credit_returns. by apply Forall_cons in Hw as [? _].
  - by apply credit_each_returns.
Qed.

Lemma add_special_returns special : ∀ sc,
  keys_in_range (length sc) special →
  ∃ sc', add_special special sc = Returned sc'.
Proof.
  unfold add_special. induction special as [|[k v] d IH]; intros sc Hrange;
    cbn [for_each]; [by eexists|].
  apply Forall_cons in Hrange as [Hk Hd]. cbn [fst snd] in *.
  destruct (credit_returns v k sc Hk) as (sc1 & -> & Hlen1).
  cbn [mbind Outcome_bind]. apply IH. by rewrite Hlen1.
Qed.

Lemma award_length counts sc sc' :
  award counts sc = Returned sc' → length sc' = length sc.
Proof.
  unfold award. destruct (max_count counts) as [max_v|]; [|done].
  cbn [mbind Outcome_bind].
  set (winners := (filter _ counts).*1). clearbody winners.
  assert (∀ ws sc0 sc1, for_each (credit 1) ws sc0 = Returned sc1 →
            length sc1 = length sc0) as Heach.
  { induction ws as [|w ws IH]; intros sc0 sc1; cbn [for_each]; [by intros [= <-]|].
    destruct (credit 1 sc0 w) as [sc2|] eqn:Hc; [|done]. cbn [mbind Outcome_bind].
    intros Hrest%IH. apply credit_spec in Hc as [Hlen _]. congruence. }
  destruct winners as [|w [|w' ws]]; [apply Heach| |apply Heach].
  by intros [Hlen _]%credit_spec.
Qed.

Lemma majority_awards_length g t base :
  majority_awards g t = Returned base → length base = length (players g).
Proof.
  unfold majority_awards. case_decide.
  - destruct (award (card_counts t) _) as [sc1|] eqn:H1; [|done].
    cbn [mbind Outcome_bind]. intros H2. apply award_length in H1, H2.
    by rewrite H2, H1, length_replicate.
  - intros [= <-]. by rewrite length_replicate.
Qed.

Lemma tally_returns g n ips :
  Forall (λ ip : nat * Player,
            ∃ k, player_key g ip.1 = Returned k
                 ∧ Forall (λ i, i < n)%nat (key_ids k)) ips →
  ∀ t, tally_in_range n t →
    ∃ t', for_each (tally_player g) ips t = Returned t' ∧ tally_in_range n t'
      ∧ (ips ≠ [] ∨ (card_counts t ≠ [] ∧ spade_counts t ≠ []) →
         card_counts t' ≠ [] ∧ spade_counts t' ≠ []).
Proof.
  induction 1 as [|[id p] ips (k & Hk & Hrange) Hips IH];
    intros t (Hcc & Hsc & Hsp); cbn [for_each].
  - exists t. split_and!; [done..|]. by intros [?|?].
  - cbn [fst] in Hk.
    destruct (tally_player g t (id, p)) as [t1|e] eqn:Ht1;
      unfold tally_player in Ht1; rewrite Hk in Ht1; cbn [mbind Outcome_bind] in Ht1;
      [|done].
    injection Ht1 as <-. cbn [mbind Outcome_bind].
    edestruct IH as (t' & -> & Ht' & Hne).
    2: { exists t'. split_and!; [done..|]. intros _. apply Hne. right. simpl.
         split; apply dd_add_nonempty. }
    split_and!; simpl; try (by apply dd_add_in_range).
    apply dd_add_in_range; [done|].
    destruct (has_card p big_ten || _); destruct (has_card p spy_two || _);
      repeat (apply dd_add_in_range; [done|]); done.
Qed.

Lemma special_share_solo (ps : list Player) pid :
  special_share (KSolo <$> seq 0 (length ps)) ps pid
  = from_option special_points 0 (ps !! pid).
Proof.
  unfold special_share. induction ps as [|p ps IH] using rev_ind; [done|].
  rewrite length_app, Nat.add_1_r, seq_S, fmap_app. simpl.
  rewrite zip_with_app by (by rewrite length_fmap, length_seq).
  assert (∀ l1 l2, sum_Z (l1 ++ l2) = sum_Z l1 + sum_Z l2) as Happ.
  { induction l1 as [|x l1 IHl]; intros l2; simpl; [done|]. rewrite IHl. lia. }
  rewrite Happ, IH. simpl. unfold key_weight. simpl.
  rewrite filter_cons, filter_nil.
  destruct (decide (length ps = pid)) as [<-|Hne]; simpl.
  - rewrite lookup_app_r, Nat.sub_diag by lia. rewrite lookup_ge_None_2 by lia.
    simpl. lia.
  - destruct (decide (pid < length ps)%nat) as [Hlt|Hge].
    + rewrite lookup_app_l by done. lia.
    + rewrite !lookup_ge_None_2 by (rewrite ?length_app; simpl; lia). simpl. lia.
Qed.

Lemma solo_keys g (ps : list Player) keys :
  partnerships g = None →
  Forall2 (λ ip k, player_key g ip.1 = Returned k) (imap pair ps) keys →
  keys = KSolo <$> seq 0 (length ps).
Proof.
  intros Hsolo Hkeys. rewrite <- (imap_seq_0 ps KSolo).
  apply list_eq. intros i. rewrite list_lookup_imap.
  rewrite Forall2_lookup in Hkeys. specialize (Hkeys i).
  rewrite list_lookup_imap in Hkeys.
  destruct (ps !! i) as [p|]; inversion Hkeys as [ip k Hk|]; simplify_eq/=; [|done].
  unfold player_key, is_partnership_game in Hk. rewrite Hsolo in Hk.
  rewrite bool_decide_eq_false_2 in Hk by (by intros ?). by simplify_eq.
Qed.

Lemma calculate_scores_parts g sc :
  calculate_scores g = Returned sc →
  ∃ keys t base,
    tally g = Returned t ∧ majority_awards g t = Returned base
    ∧ Forall2 (λ ip k, player_key g ip.1 = Returned k) (imap pair (players g)) keys
    ∧ length sc = length (players g)
    ∧ ∀ pid, sc !!! pid = base !!! pid + special_share keys (players g) pid.
Proof.
  unfold calculate_scores. destruct (tally g) as [t|] eqn:Ht; [|done].
  cbn [mbind Outcome_bind].
  destruct (majority_awards g t) as [base|] eqn:Hbase; [|done].
  cbn [mbind Outcome_bind]. intros [Hlen Hval]%add_special_spec.
  apply tally_special in Ht as (keys & Hkeys & Hw).
  exists keys, t, base. split_and!; [done..| |].
  - rewrite Hlen. by eapply majority_awards_length.
  - intros pid. rewrite Hval, Hw, snd_imap_pair. unfold weighted. simpl. lia.
Qed.

(** C9. The score [calculate_scores] gives a player is the majority
    award plus the special points of every player counted under the
    player's key (the player alone, or the two partners), where a player's
    special points are 1 for the two of spades and 2 for the ten of
    diamonds, each counted when the card is in the capture pile or still
    in the hand, and 1 for every Ace of the capture pile only.  Without
    partnerships the call returns and the special part is the player's
    own.  In the two-player example the first player scores the ten of
    diamonds held in hand and not the Ace held in hand; in the
    partnership example the two of spades held by the third player scores
    for the first and the third, the Ace held by the fourth for nobody. *)
Theorem special_cards_score_from_hand :
  (∀ g sc, calculate_scores g = Returned sc →
     ∃ keys t base,
       tally g = Returned t ∧ majority_awards g t = Returned base
       ∧ length keys = length (players g)
       ∧ (∀ i k, keys !! i = Some k → player_key g i = Returned k)
       ∧ length sc = length (players g)
       ∧ ∀ pid, sc !!! pid = base !!! pid + special_share keys (players g) pid)
  ∧ (∀ g, partnerships g = None → players g ≠ [] →
       ∃ sc t base,
         calculate_scores g = Returned sc
         ∧ tally g = Returned t ∧ majority_awards g t = Returned base
         ∧ ∀ pid p, players g !! pid = Some p →
                    sc !! pid = Some (base !!! pid + special_points p))
  ∧ calculate_scores scoring_game = Returned [5; 3]
  ∧ calculate_scores partnership_game = Returned [2; 4; 2; 4].
Proof.
  split_and!.
  - intros g sc (keys & t & base & Ht & Hbase & Hkeys & Hlen & Hval)%calculate_scores_parts.
    exists keys, t, base. split_and!; [done..| | |done|done].
    + apply Forall2_length in Hkeys. by rewrite length_imap in Hkeys.
    + intros i k Hk. destruct (Forall2_lookup_r _ _ _ _ _ Hkeys Hk) as (ip & Hip & Hpk).
      rewrite list_lookup_imap in Hip. destruct (players g !! i); by simplify_eq/=.
  - intros g Hsolo Hne.
    assert (∀ i, player_key g i = Returned (KSolo i)) as Hkey.
    { intros i. unfold player_key, is_partnership_game. rewrite Hsolo.
      by rewrite bool_decide_eq_false_2 by (by intros ?). }
    destruct (tally_returns g (length (players g)) (imap pair (players g)))
      with (t := mkTally [] [] []) as (t & Ht & (Hcc & Hsc & Hsp) & Hnonempty).
    { apply Forall_forall. intros ip (i & p & -> & Hp)%elem_of_lookup_imap.
      exists (KSolo i). split; [apply Hkey|]. repeat constructor.
      by eapply lookup_lt_Some. }
    { repeat split; constructor. }
    destruct Hnonempty as [Hcne Hsne].
    { left. by destruct (players g). }
    assert (∃ base, majority_awards g t = Returned base) as (base & Hbase).
    { unfold majority_awards. case_decide; [|by eexists].
      destruct (award_returns (card_counts t) (replicate (length (players g)) 0))
        as (sc1 & -> & Hlen1); [done|by rewrite length_replicate|].
      cbn [mbind Outcome_bind].
      destruct (award_returns (spade_counts t) sc1) as (sc2 & -> & _);
        [done|by rewrite Hlen1, length_replicate|]. by eexists. }
    pose proof (majority_awards_length g t base Hbase) as Hblen.
    destruct (add_special_returns (special_scores t) base) as (sc & Hsc');
      [by rewrite Hblen|].
    assert (calculate_scores g = Returned sc) as Hcalc.
    { unfold calculate_scores. fold (tally g) in Ht. rewrite Ht. cbn [mbind Outcome_bind].
      rewrite Hbase. done. }
    exists sc, t, base. split_and!; [done..|]. intros pid p Hp.
    destruct (calculate_scores_parts g sc Hcalc)
      as (keys & t' & base' & Ht' & Hbase' & Hkeys & Hlen & Hval).
    fold (tally g) in Ht. assert (t' = t) as -> by congruence.
    assert (base' = base) as -> by congruence. specialize (Hval pid).
    rewrite (solo_keys g (players g) keys Hsolo Hkeys), special_share_solo, Hp in Hval.
    apply lookup_lt_Some in Hp as Hlt. rewrite <- Hlen in Hlt.
    apply list_lookup_lookup_total_lt in Hlt. rewrite Hlt, Hval. done.
  - by vm_compute.
  - by vm_compute.
Qed.

(** ** Card conservation *)

(** Appending to the cards of the build at [h] adds the appended cards
    to the cards of a layout that refers to the build once. *)
Lemma layout_cards_alter σ (f : Build → Build) h extra (lay : list Item) :
  (∀ b, cards (f b) = cards b ++ extra) → (h < length σ)%nat →
  NoDup lay → IBuild h ∈ lay →
  lay ≫= item_cards (alter f h σ) ≡ₚ extra ++ (lay ≫= item_cards σ).
Proof.
  intros Hf Hlt. 
  assert (∀ l : list Item, IBuild h ∉ l →
            l ≫= item_cards (alter f h σ) = l ≫= item_cards σ) as Hsame.
  { induction l as [|it l IH]; [done|]. intros [Hne Hl]%not_elem_of_cons.
    rewrite !bind_cons, IH by done. f_equal. destruct it as [c|k]; [done|]. simpl.
    rewrite list_lookup_total_alter_ne; [done|]. by intros ->. }
  induction 1 as [|it l Hit Hl IH]; intros Hin; [by apply elem_of_nil in Hin|].
  rewrite !bind_cons. destruct (decide (it = IBuild h)) as [->|Hne].
  - rewrite Hsame by done. simpl. rewrite list_lookup_total_alter_eq, Hf by done.
    by rewrite <- app_assoc, Permutation_app_swap_app.
  - apply elem_of_cons in Hin as [?|Hin]; [done|]. rewrite IH by done.
    assert (item_cards (alter f h σ) it = item_cards σ it) as ->.
    { destruct it as [c|k]; [done|]. simpl.
      rewrite list_lookup_total_alter_ne; [done|]. by intros ->. }
    by rewrite Permutation_app_swap_app.
Qed.

Lemma item_eqb_cards σ x y : item_eqb σ y x = true → item_cards σ y = item_cards σ x.
Proof.
  destruct x as [c|h], y as [c'|k]; simpl; try done.
  - by intros ->%bool_decide_eq_true.
  - intros [->%bool_decide_eq_true| ->%bool_decide_eq_true]%orb_true_iff; done.
Qed.

(** [list.remove] takes the cards of the removed entry off the layout. *)
Lemma layout_cards_remove σ x lay lay' :
  py_remove (item_eqb σ) x lay = Some lay' →
  lay ≫= item_cards σ ≡ₚ item_cards σ x ++ (lay' ≫= item_cards σ).
Proof.
  revert lay'. induction lay as [|y l IH]; intros lay'; cbn [py_remove]; [done|].
  destruct (item_eqb σ y x) eqn:Heq.
  - intros [= ->]. by rewrite bind_cons, (item_eqb_cards _ _ _ Heq).
  - destruct (py_remove _ x l) as [l'|]; [|done]. intros [= <-].
    rewrite !bind_cons, (IH l' eq_refl). by rewrite Permutation_app_swap_app.
Qed.

Lemma capture_loop_cards σ grp : ∀ lay acc lay' cs,
  capture_loop σ grp lay acc = (lay', Returned cs) →
  (lay ≫= item_cards σ) ++ acc ≡ₚ (lay' ≫= item_cards σ) ++ cs.
Proof.
  induction grp as [|x grp IH]; intros lay acc lay' cs; cbn [capture_loop].
  - by intros [= -> ->].
  - destruct (py_remove _ x lay) as [lay1|] eqn:Hrem; [|done].
    intros Hrest%IH. rewrite <- Hrest, (layout_cards_remove _ _ _ _ Hrem).
    solve_Permutation.
Qed.

Lemma remove_cards_cards σ cs : ∀ lay lay',
  remove_cards σ cs lay = (lay', Returned ()) →
  lay ≫= item_cards σ ≡ₚ cs ++ (lay' ≫= item_cards σ).
Proof.
  induction cs as [|c cs IH]; intros lay lay'; cbn [remove_cards].
  - by intros [= ->].
  - destruct (py_remove _ (ICard c) lay) as [lay1|] eqn:Hrem; [|done].
    intros Hrest%IH. rewrite (layout_cards_remove _ _ _ _ Hrem), Hrest. done.
Qed.

Lemma hands_fmap (f : Player → Player) (ps : list Player) :
  (∀ p, hand (f p) = hand p) → (f <$> ps) ≫= hand = ps ≫= hand.
Proof.
  intros Hf. induction ps as [|p ps IH]; [done|].
  by rewrite fmap_cons, !bind_cons, Hf, IH.
Qed.

Lemma hands_alter (f : Player → Player) i (ps : list Player) :
  (∀ p, hand (f p) = hand p) → alter f i ps ≫= hand = ps ≫= hand.
Proof.
  intros Hf. revert i. induction ps as [|p ps IH]; intros [|i]; try done.
  - change (alter f 0%nat (p :: ps)) with (f p :: ps). by rewrite !bind_cons, Hf.
  - change (alter f (S i) (p :: ps)) with (p :: alter f i ps).
    by rewrite !bind_cons, IH.
Qed.

Lemma piles_fmap (f : Player → Player) (ps : list Player) :
  (∀ p, capture_pile (f p) = capture_pile p) →
  (f <$> ps) ≫= capture_pile = ps ≫= capture_pile.
Proof.
  intros Hf. induction ps as [|p ps IH]; [done|].
  by rewrite fmap_cons, !bind_cons, Hf, IH.
Qed.

Lemma piles_alter (f : Player → Player) cs i (ps : list Player) :
  (∀ p, capture_pile (f p) = capture_pile p ++ cs) → (i < length ps)%nat →
  alter f i ps ≫= capture_pile ≡ₚ cs ++ (ps ≫= capture_pile).
Proof.
  intros Hf. revert i. induction ps as [|p ps IH]; intros [|i] Hi; simpl in Hi;
    try lia.
  - change (alter f 0%nat (p :: ps)) with (f p :: ps).
    rewrite !bind_cons, Hf. solve_Permutation.
  - change (alter f (S i) (p :: ps)) with (p :: alter f i ps).
    rewrite !bind_cons, IH by lia. solve_Permutation.
Qed.

(** A capture that succeeds keeps every card: the zones gain the
    played card, which had left the hand. *)
Lemma capture_zones g pi played_card grp g' :
  (pi < length (players g))%nat →
  execute_capture g pi played_card grp = (g', Returned true) →
  zones g' ≡ₚ played_card :: zones g.
Proof.
  intros Hpi. unfold execute_capture. destruct grp as [|x grp]; [done|].
  destruct (capture_loop _ _ _ _) as [lay [cs|e]] eqn:Hloop; [|done].
  intros [= <-]. apply capture_loop_cards in Hloop. rewrite app_nil_r in Hloop.
  unfold zones, mark_last_capture. simpl.
  rewrite !hands_alter, hands_fmap, hands_alter by done.
  rewrite piles_alter with (cs := []); [|by intros; rewrite app_nil_r|].
  2: { by rewrite length_fmap, length_alter. }
  rewrite piles_fmap by done.
  rewrite piles_alter with (cs := played_card :: cs) by done.
  rewrite Hloop. solve_Permutation.
Qed.

(** So does a discard. *)
Lemma discard_zones g played_card :
  zones (discard_card g played_card) ≡ₚ played_card :: zones g.
Proof.
  unfold zones, discard_card. simpl. rewrite bind_app. simpl. solve_Permutation.
Qed.

(** And so does a build creation that succeeds. *)
Lemma create_zones g pi played_card cfg g' :
  layout_wf g → default "single"%string (cfg_type cfg) = "single"%string →
  execute_build g pi played_card cfg = (g', Returned true) →
  zones g' ≡ₚ played_card :: zones g.
Proof.
  intros Hwf Hty. unfold execute_build. rewrite Hty, decide_True by done.
  destruct (cfg_cards cfg) as [cs|]; [|done].
  destruct (cfg_total_value cfg) as [total|]; [|done].
  destruct (remove_cards _ _ _) as [lay [[]|e]] eqn:Hrem; [|done].
  intros [= <-]. pose proof (remove_cards_sublist _ _ _ _ _ Hrem) as Hs.
  apply remove_cards_cards in Hrem. unfold zones. simpl.
  rewrite bind_app. simpl. rewrite list_lookup_total_middle, app_nil_r by done. simpl.
  assert (lay ≫= item_cards (store g ++ [mkBuild (cs ++ [played_card]) total pi false])
          = lay ≫= item_cards (store g)) as ->.
  { assert (∀ k, IBuild k ∈ lay → (k < length (store g))%nat) as Hlt.
    { intros k Hk. apply Hwf. by eapply elem_of_sublist. }
    clear Hs Hrem. induction lay as [|it l IH]; [done|].
    rewrite !bind_cons, IH by (intros k Hk; apply Hlt; by right). f_equal.
    destruct it as [c|k]; [done|]. simpl.
    rewrite lookup_total_app_l; [done|]. apply Hlt. left. }
  rewrite Hrem. solve_Permutation.
Qed.

(** The augmentation branch of [execute_build], with the played card
    in flight.  When the augmenting card is loose it moves from the layout
    into the build, and the zones gain the played card only.  When it is
    not loose (a pile-top card) it is appended to the build and stays
    where it was: the zones gain a second copy of it. *)
Lemma augment_zones g pi played_card h card ty :
  ty ≠ "single"%string → NoDup (layout g) → IBuild h ∈ layout g →
  (h < length (store g))%nat →
  zones (execute_build g pi played_card
           (with_type (Some ty) (augment_config h played_card card))).1
  ≡ₚ (if decide (card ∈ get_loose_cards g) then [played_card]
      else [played_card; card]) ++ zones g.
Proof.
  intros Hty Hnd Hh Hlt. unfold execute_build. simpl.
  rewrite decide_False by done. simpl. unfold zones. simpl.
  assert (∀ b, cards (mkBuild (cards b ++ [played_card; card]) (total_value b)
                              (owner b) true)
               = cards b ++ [played_card; card]) as Hf by done.
  destruct (decide (card ∈ get_loose_cards g)) as [Hloose|Hloose].
  - destruct (py_remove _ (ICard card) (layout g)) as [lay'|] eqn:Hrem.
    2: { apply py_remove_None in Hrem. destruct Hrem.
         by apply present_card, elem_of_get_loose_cards. }
    simpl. pose proof (layout_cards_remove _ _ _ _ Hrem) as Hperm. simpl in Hperm.
    apply py_remove_split in Hrem as (l1 & l2 & Hlay & -> & _).
    rewrite layout_cards_alter; [|done|done| |].
    + rewrite Hperm. solve_Permutation.
    + rewrite Hlay in Hnd.
      apply NoDup_app in Hnd as (Hn1 & Hdisj & Hn2%NoDup_cons_1_2).
      apply NoDup_app. split_and!; [done| |done].
      intros x Hx1 Hx2. apply (Hdisj x Hx1). by right.
    + rewrite Hlay in Hh. apply elem_of_app in Hh as [Hh|Hh].
      * apply elem_of_app. by left.
      * apply elem_of_cons in Hh as [?|Hh]; [done|]. apply elem_of_app. by right.
  - rewrite layout_cards_alter by done. solve_Permutation.
Qed.

(** Closed facts about the recorded game are settled by running it. *)
Ltac by_running :=
  first [by vm_compute | apply (bool_decide_unpack _); by vm_compute].

(** C1 fails on the code.  From the set-up two-player game on
    [shuffled_deck] the turns of the first round and the first turn of
    the second keep every card in exactly one zone.  Then the first
    player plays the two of clubs and picks the listed augmentation of
    the own build with the eight of diamonds, the top card of the
    opponent's capture pile.  As listed, the option has no ['type'] key,
    [execute_build] takes it for a build creation and raises [KeyError]:
    the turn ends with the played card in no zone.  With a ['type'] other
    than ['single'] the augmentation runs: the eight of diamonds is
    appended to the build and stays on the opponent's pile, so it is in
    two zones.  In general that branch adds a second copy of every
    augmenting card that is not loose. *)
Theorem augmentation_breaks_conservation :
  (shuffled_deck ≡ₚ fresh_deck true)
  ∧ new_game 2 None shuffled_deck = Returned opening
  ∧ (setup_game opening).2 = Returned () ∧ conserved true dealt
  ∧ (play_one_round round_one_inputs dealt).2 = Returned []
  ∧ conserved true after_round_one
  ∧ (current_player after_round_one = 1%nat
     ∧ (play_turn after_round_one 1 (mkInput (Some 0) (Some 1))).2 = Returned ())
  ∧ conserved true before_augment
  ∧ (get_top_card (players before_augment !!! 1%nat) = Some (mkCard R8 DIAMONDS)
     ∧ menu after_augment_turn (mkCard R2 CLUBS) 0 !! 4%nat
       = Some (AAugment pile_top_option))
  ∧ ((play_turn before_augment 0 augment_input).2 = Raised KeyError
     ∧ (mkCard R2 CLUBS ∉ zones after_augment_turn)
     ∧ length (zones after_augment_turn) = 39%nat)
  ∧ ((execute_build after_augment_turn 0 (mkCard R2 CLUBS)
        (with_type (Some "augment"%string) pile_top_option)).2 = Returned true
     ∧ (mkCard R8 DIAMONDS ∈ capture_pile (players after_typed_augment !!! 1%nat))
     ∧ (mkCard R8 DIAMONDS ∈ cards (store after_typed_augment !!! 0%nat))
     ∧ (IBuild 0 ∈ layout after_typed_augment)
     ∧ length (zones after_typed_augment) = 41%nat
     ∧ ¬ NoDup (zones after_typed_augment))
  ∧ (∀ g pi played_card h card ty,
       ty ≠ "single"%string → NoDup (layout g) → IBuild h ∈ layout g →
       (h < length (store g))%nat → card ∉ get_loose_cards g →
       zones (execute_build g pi played_card
                (with_type (Some ty) (augment_config h played_card card))).1
       ≡ₚ played_card :: card :: zones g).
Proof.
  split_and!; unfold conserved; try by_running.
  intros g pi played_card h card ty Hty Hnd Hh Hlt Hloose.
  rewrite augment_zones by done. by rewrite decide_False.
Qed.

(** ** The shape of the resolved totals *)

Lemma elem_of_values c v :
  v ∈ values c ↔ v = numeric_value c ∨ (rank c = RA ∧ v = numeric_value c + 13).
Proof.
  unfold values, numeric_value. destruct c as [r s]. cbn [rank].
  destruct (decide (r = RA)) as [->|Hr].
  - rewrite elem_of_cons, list_elem_of_singleton. split.
    + intros [-> | ->]; [by left|by right].
    + intros [-> | [_ ->]]; [by left|by right].
  - destruct r; try done; rewrite list_elem_of_singleton;
      (split; [by left|]; by intros [?|[? _]]).
Qed.

Lemma low_total_cons c cs : low_total (c :: cs) = numeric_value c + low_total cs.
Proof. done. Qed.

Lemma aces_cons c cs :
  aces (c :: cs) = if decide (rank c = RA) then S (aces cs) else aces cs.
Proof. unfold aces. rewrite filter_cons. by case_decide. Qed.

Lemma elem_of_calculate_total_aces cs x :
  x ∈ calculate_total cs
  ↔ ∃ k : nat, (k ≤ aces cs)%nat ∧ x = low_total cs + 13 * Z.of_nat k.
Proof.
  rewrite elem_of_calculate_total. split.
  - intros (vs & Hvs & ->). induction Hvs as [|c v cs vs Hv Hvs (k & Hk & IH)].
    + exists 0%nat. split; [done|]. unfold low_total. simpl. lia.
    + rewrite low_total_cons, aces_cons. simpl. rewrite IH.
      apply elem_of_values in Hv as [->|[Hace ->]].
      * exists k. split; [case_decide; lia|lia].
      * exists (S k). rewrite decide_True by done. split; lia.
  - revert x. induction cs as [|c cs IH]; intros x (k & Hk & ->).
    + exists []. split; [constructor|]. unfold low_total. simpl.
      unfold aces in Hk. simpl in Hk. lia.
    + rewrite low_total_cons. rewrite aces_cons in Hk.
      destruct (decide (rank c = RA)) as [Hace|Hace]; [destruct k as [|k]|].
      * destruct (IH (low_total cs + 13 * Z.of_nat 0)) as (vs & Hvs & Hsum);
          [exists 0%nat; split; [lia|done]|].
        exists (numeric_value c :: vs). split.
        -- constructor; [|done]. apply elem_of_values. by left.
        -- simpl. rewrite <- Hsum. lia.
      * destruct (IH (low_total cs + 13 * Z.of_nat k)) as (vs & Hvs & Hsum);
          [exists k; split; [lia|done]|].
        exists (numeric_value c + 13 :: vs). split.
        -- constructor; [|done]. apply elem_of_values. by right.
        -- simpl. rewrite <- Hsum. lia.
      * destruct (IH (low_total cs + 13 * Z.of_nat k)) as (vs & Hvs & Hsum);
          [exists k; split; [lia|done]|].
        exists (numeric_value c :: vs). split.
        -- constructor; [|done]. apply elem_of_values. by left.
        -- simpl. rewrite <- Hsum. lia.
Qed.

Lemma ladder_sorted (low : Z) (i n : nat) :
  StronglySorted Z.lt ((λ k : nat, low + 13 * Z.of_nat k) <$> seq i n).
Proof.
  revert i. induction n as [|n IH]; intros i; simpl; constructor; [apply IH|].
  apply Forall_forall. intros x (k & -> & Hk%elem_of_seq)%list_elem_of_fmap. lia.
Qed.

Lemma low_total_Permutation cs cs' : cs ≡ₚ cs' → low_total cs = low_total cs'.
Proof.
  unfold low_total, sum_values.
  induction 1 as [|c l l' _ IH|c c' l|l1 l2 l3 _ IH1 _ IH2];
    rewrite ?fmap_cons; cbn [foldr]; lia.
Qed.

Lemma aces_Permutation cs cs' : cs ≡ₚ cs' → aces cs = aces cs'.
Proof. unfold aces. by intros ->. Qed.

(** X1. The resolved totals of a sequence of cards are the low total
    (every Ace counted 1) and the totals 13, 26, ... above it, one step per
    Ace: [calculate_total] returns that ladder, from the low total up.  So
    the result has one entry more than there are Aces, starts with the
    low total, is [[s]] for cards without an Ace, and does not depend on
    the order of the cards. *)
Theorem calculate_total_ladder :
  (∀ cs, calculate_total cs
         = (λ k : nat, low_total cs + 13 * Z.of_nat k) <$> seq 0 (S (aces cs)))
  ∧ (∀ cs, length (calculate_total cs) = S (aces cs)
           ∧ head (calculate_total cs) = Some (low_total cs))
  ∧ (∀ cs, Forall (λ c, rank c ≠ RA) cs → calculate_total cs = [low_total cs])
  ∧ (∀ cs cs', cs ≡ₚ cs' → calculate_total cs = calculate_total cs').
Proof.
  assert (∀ cs, calculate_total cs
     = (λ k : nat, low_total cs + 13 * Z.of_nat k) <$> seq 0 (S (aces cs))) as Hladder.
  { intros cs. apply (StronglySorted_unique_strong Z.lt).
    - intros; lia.
    - apply calculate_total_sorted.
    - apply ladder_sorted.
    - apply NoDup_Permutation.
      + apply calculate_total_NoDup.
      + apply NoDup_fmap_2; [intros ???; lia|apply NoDup_seq].
      + intros x. rewrite elem_of_calculate_total_aces, list_elem_of_fmap.
        split; intros (k & H1 & H2); exists k.
        * split; [done|]. apply elem_of_seq. lia.
        * apply elem_of_seq in H2. split; [lia|done]. }
  split_and!; [done| | |].
  - intros cs. rewrite Hladder. split; [by rewrite length_fmap, length_seq|].
    simpl. f_equal. lia.
  - intros cs Hno. rewrite Hladder.
    assert (aces cs = 0%nat) as ->.
    { unfold aces. induction Hno as [|c cs Hc _ IH]; [done|].
      by rewrite filter_cons_False. }
    simpl. f_equal. lia.
  - intros cs cs' Hperm.
    by rewrite !Hladder, (low_total_Permutation _ _ Hperm), (aces_Permutation _ _ Hperm).
Qed.

(** ** Partnerships *)

Lemma pair_set_eq (x y a b : nat) :
  ({[x; y]} : gset nat) = {[a; b]} ↔ (x = a ∧ y = b) ∨ (x = b ∧ y = a).
Proof.
  assert (∀ u v w : nat, u ∈ ({[v; w]} : gset nat) ↔ u = v ∨ u = w) as Hpair
    by (intros u v w; by rewrite elem_of_union, !elem_of_singleton).
  split.
  - intros Heq.
    assert (x ∈ ({[a; b]} : gset nat)) as Hx by (rewrite <- Heq, Hpair; by left).
    assert (y ∈ ({[a; b]} : gset nat)) as Hy by (rewrite <- Heq, Hpair; by right).
    assert (a ∈ ({[x; y]} : gset nat)) as Ha by (rewrite Heq, Hpair; by left).
    assert (b ∈ ({[x; y]} : gset nat)) as Hb by (rewrite Heq, Hpair; by right).
    rewrite Hpair in Hx, Hy, Ha, Hb. lia.
  - intros [[-> ->]|[-> ->]]; [done|]. apply (comm_L (∪)).
Qed.

Lemma are_partners_spec g a b :
  _are_partners g a b = true
  ↔ ∃ pairs x y, partnerships g = Some pairs ∧ (x, y) ∈ pairs
                 ∧ ((x = a ∧ y = b) ∨ (x = b ∧ y = a)).
Proof.
  unfold _are_partners. destruct (partnerships g) as [[|pr pairs]|].
  - split; [done|]. intros (? & ? & ? & [= <-] & ?%elem_of_nil & _). done.
  - rewrite existsb_exists. split.
    + intros ([x y] & Hin%list_elem_of_In & Heq%bool_decide_eq_true%pair_set_eq).
      exists (pr :: pairs), x, y. done.
    + intros (? & x & y & [= <-] & Hin & Heq). exists (x, y).
      split; [by apply list_elem_of_In|]. by apply bool_decide_eq_true, pair_set_eq.
  - split; [done|]. by intros (? & ? & ? & ? & _).
Qed.

Lemma partner_in_Some pairs a b :
  partner_in pairs a = Some b → (a, b) ∈ pairs ∨ (b, a) ∈ pairs.
Proof.
  induction pairs as [|[x y] pairs IH]; simpl; [done|].
  repeat case_decide; intros ?; simplify_eq.
  - left. left.
  - right. left.
  - destruct IH as [?|?]; [done|left; by right|right; by right].
Qed.

Lemma partner_in_is_Some pairs a :
  is_Some (partner_in pairs a) ↔ ∃ x y, (x, y) ∈ pairs ∧ (x = a ∨ y = a).
Proof.
  induction pairs as [|[x y] pairs IH]; simpl.
  - split; [by intros [? ?]|]. by intros (? & ? & ?%elem_of_nil & _).
  - repeat case_decide; subst.
    + split; [|by eauto]. intros _. exists a, y. split; [left|by left].
    + split; [|by eauto]. intros _. exists x, a. split; [left|by right].
    + rewrite IH. split.
      * intros (x' & y' & Hin & Hor). exists x', y'. split; [by right|done].
      * intros (x' & y' & [[= -> ->]|Hin]%elem_of_cons & Hor); [by destruct Hor|eauto].
Qed.

(** X2. The two views of the partnerships agree: [_are_partners] is
    symmetric; the partner [_get_partner_id] names is a partner for
    [_are_partners]; and whoever has a partner for [_are_partners] gets a
    partner id (of the first pair the player is in).  Without
    partnerships nobody is a partner of anybody. *)
Theorem partners_agree g :
  (∀ a b, _are_partners g a b = _are_partners g b a)
  ∧ (∀ a b, _get_partner_id g a = Some b → _are_partners g a b = true)
  ∧ (∀ a b, _are_partners g a b = true → is_Some (_get_partner_id g a))
  ∧ (partnerships g = None →
     ∀ a b, _are_partners g a b = false ∧ _get_partner_id g a = None).
Proof.
  split_and!.
  - intros a b. apply eq_true_iff_eq. rewrite !are_partners_spec.
    split; intros (pairs & x & y & ? & ? & Hor); exists pairs, x, y;
      (split_and!; [done..|]); destruct Hor as [?|?]; [by right|by left|by right|by left].
  - intros a b. unfold _get_partner_id.
    destruct (partnerships g) as [pairs|] eqn:Hp; [|done].
    intros [Hin|Hin]%partner_in_Some; apply are_partners_spec;
      [exists pairs, a, b|exists pairs, b, a]; (split_and!; [done..|]);
      [by left|by right].
  - intros a b (pairs & x & y & Hp & Hin & Hxy)%are_partners_spec.
    unfold _get_partner_id. rewrite Hp. apply partner_in_is_Some.
    exists x, y. split; [done|]. destruct Hxy as [[-> _]|[_ ->]]; [by left|by right].
  - intros Hp a b. unfold _are_partners, _get_partner_id. by rewrite Hp.
Qed.

(** X2 at work: in the partnerships (0, 2) and (1, 3) the partner of
    the first player is the third, either way round. *)
Lemma partners_agree_witness :
  _get_partner_id partnership_game 0 = Some 2%nat
  ∧ _are_partners partnership_game 0 2 = true
  ∧ _are_partners partnership_game 2 0 = true.
Proof.
  destruct (partners_agree partnership_game) as (Hsym & Hget & _).
  split; [done|]. split; [by apply Hget|]. rewrite Hsym. by apply Hget.
Defined.

(** ** The augmentation options *)

Lemma own_condition g pi o :
  bool_decide (o = pi) || (is_partnership_game g && _are_partners g pi o) = true
  ↔ ally g pi o.
Proof.
  unfold ally. rewrite orb_true_iff, andb_true_iff, bool_decide_eq_true. done.
Qed.

Lemma opponent_condition g pi o :
  bool_decide (o ≠ pi)
  && (negb (is_partnership_game g) || negb (_are_partners g pi o)) = true
  ↔ ¬ ally g pi o.
Proof.
  unfold ally. rewrite andb_true_iff, orb_true_iff, !negb_true_iff, bool_decide_eq_true.
  destruct (is_partnership_game g), (_are_partners g pi o); intuition congruence.
Qed.

Lemma elem_of_opponent_top_cards g pi card :
  card ∈ opponent_top_cards g pi ↔ visible_top g pi card.
Proof.
  unfold opponent_top_cards, visible_top. rewrite list_elem_of_bind. split.
  - intros ([i opp] & Hcard & (i' & opp' & [= <- <-] & Hopp)%elem_of_lookup_imap).
    destruct (_ && _) eqn:Hcond; [|by apply elem_of_nil in Hcard].
    apply opponent_condition in Hcond.
    destruct (get_top_card opp) as [top|] eqn:Htop; [|by apply elem_of_nil in Hcard].
    apply list_elem_of_singleton in Hcard as ->. by exists i, opp.
  - intros (i & opp & Hopp & Hfoe%opponent_condition & Htop). exists (i, opp). split.
    + rewrite Hfoe, Htop. by apply list_elem_of_singleton.
    + by apply elem_of_lookup_imap_2 with (f := pair).
Qed.

Lemma can_augment_build_shapes g played_card pi cfg :
  cfg ∈ can_augment_build g played_card pi ↔
  ∃ h, IBuild h ∈ layout g ∧
    ((¬ ally g pi (owner (store g !!! h))
      ∧ ∃ new_total,
          cfg = change_config h played_card new_total
          ∧ new_total ∈ calculate_total (cards (store g !!! h) ++ [played_card])
          ∧ holds_value (players g !!! pi) played_card new_total)
     ∨ (ally g pi (owner (store g !!! h))
        ∧ ∃ card,
            cfg = augment_config h played_card card
            ∧ total_value (store g !!! h) ∈ values card
            ∧ (ICard card ∈ layout g ∨ visible_top g pi card))).
Proof.
  unfold can_augment_build. rewrite list_elem_of_bind.
  split.
  - intros (h & Hcfg & Hh). exists h. split; [by apply elem_of_get_builds|].
    apply elem_of_app in Hcfg as [Hcfg|Hcfg].
    + destruct (_ && _) eqn:Hcond; [|by apply elem_of_nil in Hcfg].
      apply opponent_condition in Hcond.
      apply list_elem_of_bind in Hcfg as (new_total & Hcfg & Hnt).
      case_decide as Hheld; [|by apply elem_of_nil in Hcfg].
      apply list_elem_of_singleton in Hcfg as ->.
      apply elem_of_available_capture_values in Hheld. left. eauto.
    + destruct (_ || _) eqn:Hcond; [|by apply elem_of_nil in Hcfg].
      apply own_condition in Hcond.
      apply list_elem_of_bind in Hcfg as (card & Hcfg & Hcard).
      apply list_elem_of_bind in Hcfg as (v & Hcfg & Hv).
      case_decide as Heq; [|by apply elem_of_nil in Hcfg].
      apply list_elem_of_singleton in Hcfg as ->. subst v.
      right. split; [done|]. exists card. split_and!; [done..|].
      apply elem_of_app in Hcard as [Hl|Ht].
      * left. by apply elem_of_get_loose_cards.
      * right. by apply elem_of_opponent_top_cards.
  - intros (h & Hh & [(Hfoe & nt & -> & Hnt & Hheld)|(Hown & card & -> & Hv & Hsrc)]);
      exists h; (split; [|by apply elem_of_get_builds]); apply elem_of_app.
    + left. apply opponent_condition in Hfoe. rewrite Hfoe.
      apply list_elem_of_bind. exists nt. split; [|done].
      rewrite decide_True by (by apply elem_of_available_capture_values).
      by apply list_elem_of_singleton.
    + right. apply own_condition in Hown. rewrite Hown.
      apply list_elem_of_bind. exists card. split.
      * apply list_elem_of_bind. exists (total_value (store g !!! h)). split; [|done].
        rewrite decide_True by done. by apply list_elem_of_singleton.
      * apply elem_of_app. destruct Hsrc as [Hl|Ht].
        -- left. by apply elem_of_get_loose_cards.
        -- right. by apply elem_of_opponent_top_cards.
Qed.

(** X3. [can_augment_build] lists exactly: for a build on the layout
    that belongs neither to the player nor to a partner, one value change
    per total of the build's cards plus the played card for which the
    player holds a card besides the played one; for a build of the player
    or a partner, one augmentation per card with a value equal to the
    build's total that lies loose or is the top card of the capture pile
    of a player who is not an ally.  No build gets options of both
    kinds. *)
Theorem can_augment_build_enumerates g played_card pi :
  (∀ cfg, cfg ∈ can_augment_build g played_card pi ↔
     ∃ h, IBuild h ∈ layout g ∧
       ((¬ ally g pi (owner (store g !!! h))
         ∧ ∃ new_total,
             cfg = change_config h played_card new_total
             ∧ new_total ∈ calculate_total (cards (store g !!! h) ++ [played_card])
             ∧ holds_value (players g !!! pi) played_card new_total)
        ∨ (ally g pi (owner (store g !!! h))
           ∧ ∃ card,
               cfg = augment_config h played_card card
               ∧ total_value (store g !!! h) ∈ values card
               ∧ (ICard card ∈ layout g ∨ visible_top g pi card))))
  ∧ (∀ h new_total card,
       change_config h played_card new_total ∈ can_augment_build g played_card pi →
       augment_config h played_card card ∈ can_augment_build g played_card pi →
       False).
Proof.
  split; [apply can_augment_build_shapes|].
  intros h nt card
    (h1 & _ & [(Hfoe & nt' & [= <- <-] & _)|(_ & ? & ? & _)])%can_augment_build_shapes
    (h2 & _ & [(_ & ? & ? & _)|(Hown & card' & [= <- <-] & _)])%can_augment_build_shapes;
    done.
Qed.

(** X4. No option [can_augment_build] lists can be executed: the dicts
    have no ['type'] key, [execute_build] reads that as ['single'], looks
    for the key ['cards'] and raises [KeyError], whatever the game, the
    player and the played card it is called with.  The game is left as it
    was. *)
Theorem listed_augmentation_raises g played_card pi cfg :
  cfg ∈ can_augment_build g played_card pi →
  ∀ g2 pi2 played2,
    execute_build g2 pi2 played2 cfg = (g2, Raised KeyError).
Proof.
  intros (h & _ & [(nt & -> & _)|(card & ->)])%can_augment_build_options g2 pi2 played2;
    done.
Qed.

(** X4 at work: the augmentation of the first player's eight-build
    with the loose eight of diamonds. *)
Lemma listed_augmentation_raises_witness :
  (augment_config 0 (mkCard R2 CLUBS) (mkCard R8 DIAMONDS)
   ∈ can_augment_build augment_game (mkCard R2 CLUBS) 0)
  ∧ execute_build augment_game 0 (mkCard R2 CLUBS)
      (augment_config 0 (mkCard R2 CLUBS) (mkCard R8 DIAMONDS))
    = (augment_game, Raised KeyError).
Proof.
  assert (augment_config 0 (mkCard R2 CLUBS) (mkCard R8 DIAMONDS)
          ∈ can_augment_build augment_game (mkCard R2 CLUBS) 0) as Hin.
  { vm_compute. left. }
  split; [done|].
  exact (listed_augmentation_raises augment_game (mkCard R2 CLUBS) 0%nat _ Hin
           augment_game 0%nat (mkCard R2 CLUBS)).
Defined.

(** ** Executing the listed captures *)

Lemma py_remove_elem σ x lay :
  x ∈ lay → ∃ lay', py_remove (item_eqb σ) x lay = Some lay'.
Proof.
  intros Hin. destruct (py_remove _ x lay) as [lay'|] eqn:Hrem; [by eexists|].
  apply py_remove_None in Hrem. destruct Hrem. exists x.
  by rewrite item_eqb_refl.
Qed.

(** Removing one entry keeps the other entries. *)
Lemma py_remove_other σ x y lay lay' :
  py_remove (item_eqb σ) x lay = Some lay' → y ∈ lay → item_eqb σ y x = false →
  y ∈ lay'.
Proof.
  revert lay'. induction lay as [|z l IH]; intros lay'; cbn [py_remove]; [done|].
  destruct (item_eqb σ z x) eqn:Heq.
  - intros [= ->] [->|Hin]%elem_of_cons Hne; [congruence|done].
  - destruct (py_remove _ x l) as [l'|]; [|done]. intros [= <-] Hin Hne.
    apply elem_of_cons in Hin as [->|Hin]; [left|right; by apply (IH l')].
Qed.

(** On loose cards the loop of [execute_capture] is the loop of
    [execute_build]. *)
Lemma capture_loop_loose σ cs : ∀ lay acc,
  capture_loop σ (ICard <$> cs) lay acc
  = match remove_cards σ cs lay with
    | (lay', Returned _) => (lay', Returned (acc ++ cs))
    | (lay', Raised e) => (lay', Raised e)
    end.
Proof.
  induction cs as [|c cs IH]; intros lay acc;
    rewrite ?fmap_cons; cbn [capture_loop remove_cards fmap list_fmap].
  - by rewrite app_nil_r.
  - destruct (py_remove _ (ICard c) lay) as [lay1|]; [|done].
    rewrite IH. cbn [item_cards]. by rewrite <- app_assoc.
Qed.

Lemma listed_capture_loop g played_card grp :
  grp ∈ find_captures g played_card →
  ∃ lay cs, capture_loop (store g) grp (layout g) [] = (lay, Returned cs)
            ∧ grp ≠ [].
Proof.
  intros [(c & -> & Hc & _)|[(h & -> & Hh & _)|[(cs & -> & Hs & Hl & _)|
           (c & h & -> & Hc & Hh & _)]]]%find_captures_shapes.
  - cbn [capture_loop].
    destruct (py_remove_elem (store g) _ _ Hc) as (lay & ->). by eexists _, _.
  - cbn [capture_loop].
    destruct (py_remove_elem (store g) _ _ Hh) as (lay & ->). by eexists _, _.
  - rewrite capture_loop_loose.
    destruct (remove_cards_sublist_ok (store g) cs (layout g) Hs) as (lay & ->).
    eexists _, _. split; [done|]. destruct cs; [simpl in Hl; lia|done].
  - cbn [capture_loop].
    destruct (py_remove_elem (store g) _ _ Hc) as (lay1 & Hrem). rewrite Hrem.
    assert (IBuild h ∈ lay1) as Hh1 by (by eapply py_remove_other).
    destruct (py_remove_elem (store g) _ _ Hh1) as (lay2 & ->). by eexists _, _.
Qed.

Lemma capture_loop_sublist σ grp : ∀ lay acc lay' r,
  capture_loop σ grp lay acc = (lay', r) → lay' `sublist_of` lay.
Proof.
  induction grp as [|x grp IH]; intros lay acc lay' r; cbn [capture_loop].
  - by intros [= -> _].
  - destruct (py_remove _ x lay) as [lay1|] eqn:Hrem; [|by intros [= -> _]].
    intros Hrest%IH. apply py_remove_Some in Hrem as (_ & Hs & _). by etrans.
Qed.

(** X5. Every group [find_captures] lists can be captured, with any
    card and by any seated player: [execute_capture] returns [True], the
    layout loses entries and gains none, the builds are untouched, and no
    card is lost: the zones afterwards are the zones before plus the
    played card. *)
Theorem listed_capture_executes g played_card grp pi played2 :
  grp ∈ find_captures g played_card → (pi < length (players g))%nat →
  ∃ g', execute_capture g pi played2 grp = (g', Returned true)
    ∧ layout g' `sublist_of` layout g
    ∧ (length (layout g') < length (layout g))%nat
    ∧ store g' = store g
    ∧ zones g' ≡ₚ played2 :: zones g.
Proof.
  intros Hgrp Hpi.
  destruct (listed_capture_loop g played_card grp Hgrp) as (lay & cs & Hloop & Hne).
  assert (∃ g', execute_capture g pi played2 grp = (g', Returned true)
                ∧ layout g' = lay ∧ store g' = store g) as (g' & Hrun & Hlay & Hst).
  { unfold execute_capture. rewrite Hloop. destruct grp; [done|]. by eexists. }
  exists g'. split_and!; [done| | |done|by eapply capture_zones].
  - rewrite Hlay. by eapply capture_loop_sublist.
  - rewrite Hlay. destruct grp as [|x grp]; [done|]. cbn [capture_loop] in Hloop.
    destruct (py_remove _ x (layout g)) as [lay1|] eqn:Hrem; [|done].
    apply capture_loop_sublist, sublist_length in Hloop.
    apply py_remove_Some in Hrem as (_ & _ & Hlen). lia.
Qed.

(** X5 at work, scenario A: the seven of clubs takes the three of
    spades and the four of diamonds. *)
Lemma listed_capture_executes_witness :
  ([ICard (mkCard R3 SPADES); ICard (mkCard R4 DIAMONDS)]
     ∈ find_captures scenario_a (mkCard R7 CLUBS)
   ∧ (0 < length (players scenario_a))%nat)
  ∧ ∃ g', execute_capture scenario_a 0 (mkCard R7 CLUBS)
            [ICard (mkCard R3 SPADES); ICard (mkCard R4 DIAMONDS)]
          = (g', Returned true)
      ∧ zones g' ≡ₚ mkCard R7 CLUBS :: zones scenario_a.
Proof.
  assert ([ICard (mkCard R3 SPADES); ICard (mkCard R4 DIAMONDS)]
            ∈ find_captures scenario_a (mkCard R7 CLUBS)) as Hin.
  { vm_compute. right. left. }
  assert (0 < length (players scenario_a))%nat as Hpi by (simpl; lia).
  split; [done|].
  destruct (listed_capture_executes scenario_a (mkCard R7 CLUBS) _ 0%nat
              (mkCard R7 CLUBS) Hin Hpi) as (g' & Hrun & _ & _ & _ & Hz).
  by exists g'.
Defined.

(** ** A turn *)

Lemma py_pop_nat {A} (l : list A) (n : nat) x :
  l !! n = Some x → py_pop l (Z.of_nat n) = Some (x, delete n l).
Proof.
  intros Hx. unfold py_pop. apply lookup_lt_Some in Hx as Hlt.
  destruct (decide (Z.of_nat n < 0)) as [?|_]; [lia|]. cbv zeta.
  destruct (decide (0 ≤ Z.of_nat n < Z.of_nat (length l))) as [_|?]; [|lia].
  rewrite Nat2Z.id, Hx. done.
Qed.

Lemma play_card_nat p (n : nat) c :
  hand p !! n = Some c → play_card p (Z.of_nat n) = Returned (c, without n p).
Proof.
  intros Hc. unfold play_card. apply lookup_lt_Some in Hc as Hlt.
  rewrite decide_True by lia. by rewrite (py_pop_nat _ _ _ Hc).
Qed.

Lemma play_card_Returned p i c p' :
  play_card p i = Returned (c, p') →
  ∃ n, i = Z.of_nat n ∧ hand p !! n = Some c ∧ p' = without n p.
Proof.
  unfold play_card. case_decide as Hi; [|done].
  destruct (lookup_lt_is_Some_2 (hand p) (Z.to_nat i)) as [c0 Hc]; [lia|].
  replace i with (Z.of_nat (Z.to_nat i)) at 1 by lia.
  rewrite (py_pop_nat _ _ _ Hc). intros [= <- <-].
  exists (Z.to_nat i). split; [lia|done].
Qed.

Lemma play_card_Raised p i e :
  play_card p i = Raised e → e = IndexError ∧ ¬ (0 ≤ i < Z.of_nat (length (hand p))).
Proof.
  unfold play_card. case_decide as Hi; [|by intros [= <-]].
  destruct (lookup_lt_is_Some_2 (hand p) (Z.to_nat i)) as [c0 Hc]; [lia|].
  replace i with (Z.of_nat (Z.to_nat i)) at 1 by lia.
  by rewrite (py_pop_nat _ _ _ Hc).
Qed.

(** X6. [Player.play_card] returns the card at the given position and
    takes exactly that position out of the hand, for the positions
    [0 .. len(hand) - 1]; for any other index, also a negative one that
    [list.pop] alone would accept, it raises [IndexError]. *)
Theorem play_card_bounds p i :
  (0 ≤ i < Z.of_nat (length (hand p)) →
   ∃ c, hand p !! Z.to_nat i = Some c
        ∧ play_card p i = Returned (c, without (Z.to_nat i) p)
        ∧ hand p ≡ₚ c :: hand (without (Z.to_nat i) p)
        ∧ capture_pile (without (Z.to_nat i) p) = capture_pile p)
  ∧ (¬ (0 ≤ i < Z.of_nat (length (hand p))) → play_card p i = Raised IndexError).
Proof.
  split.
  - intros Hi.
    destruct (lookup_lt_is_Some_2 (hand p) (Z.to_nat i)) as [c Hc]; [lia|].
    exists c. split_and!; [done| |by apply delete_Permutation|done].
    replace i with (Z.of_nat (Z.to_nat i)) at 1 by lia. by apply play_card_nat.
  - intros Hi. unfold play_card. by rewrite decide_False.
Qed.

Lemma bind_middle {A B} (f : A → list B) (l : list A) i x :
  l !! i = Some x →
  l ≫= f = (take i l ≫= f) ++ f x ++ (drop (S i) l ≫= f).
Proof.
  intros Hx. rewrite <- (take_drop_middle _ _ _ Hx) at 1.
  by rewrite bind_app, bind_cons.
Qed.

Lemma bind_insert {A B} (f : A → list B) (l : list A) i x y :
  l !! i = Some x →
  <[i:=y]> l ≫= f = (take i l ≫= f) ++ f y ++ (drop (S i) l ≫= f).
Proof.
  intros Hx. rewrite insert_take_drop by (by eapply lookup_lt_Some).
  by rewrite bind_app, bind_cons.
Qed.

(** The state after the player at [pi] has played the card at hand
    position [n]. *)
Lemma set_player_zones g pi p n c :
  players g !! pi = Some p → hand p !! n = Some c →
  c :: zones (set_player g pi (without n p)) ≡ₚ zones g.
Proof.
  intros Hp Hc. unfold zones, set_player. simpl.
  rewrite !(bind_insert _ _ _ _ _ Hp).
  rewrite (bind_middle hand _ _ _ Hp), (bind_middle capture_pile _ _ _ Hp).
  simpl. rewrite (delete_Permutation _ _ _ Hc) at 2. solve_Permutation.
Qed.

Lemma menu_entries g played_card pi a :
  a ∈ menu g played_card pi →
  match a with
  | ACapture grp => grp ∈ find_captures g played_card
  | ABuild cfg => cfg ∈ can_create_build g played_card pi
  | AAugment cfg => cfg ∈ can_augment_build g played_card pi
  | ADiscard => True
  end.
Proof.
  unfold menu. rewrite !elem_of_app, !list_elem_of_fmap, list_elem_of_singleton.
  intros [(x & -> & Hx)|[(x & -> & Hx)|[(x & -> & Hx)| ->]]]; done.
Qed.

(** What a listed capture and a listed build creation return. *)
Lemma listed_capture_returns g played_card grp pi played2 :
  grp ∈ find_captures g played_card →
  ∃ g', execute_capture g pi played2 grp = (g', Returned true).
Proof.
  intros (lay & cs & Hloop & Hne)%listed_capture_loop.
  unfold execute_capture. rewrite Hloop. destruct grp; [done|]. by eexists.
Qed.

Lemma listed_build_returns g played_card pi cfg pi2 :
  cfg ∈ can_create_build g played_card pi →
  ∃ g', execute_build g pi2 played_card cfg = (g', Returned true)
        ∧ default "single"%string (cfg_type cfg) = "single"%string.
Proof.
  intros (combo & total & -> & _ & Hs & _)%can_create_build_options.
  destruct (remove_cards_sublist_ok (store g) combo (layout g) Hs) as (lay' & Hrem).
  unfold execute_build. simpl. rewrite Hrem. by eexists.
Qed.

(** The ways a turn of a human player ends: with [EOFError] at the
    first prompt, with [EOFError] at the second, after the card at
    position [n] has left the hand, or in one of the four actions. *)
Lemma human_turn_anatomy g pi inp p :
  players g !! pi = Some p → is_ai p = false → hand p ≠ [] →
  (card_input inp = Eof ∧ play_turn g pi inp = (g, Raised EOFError))
  ∨ (card_input inp ≠ Eof
     ∧ ∃ n c, n = chosen_position p inp ∧ hand p !! n = Some c ∧
       ((action_input inp = Eof
         ∧ play_turn g pi inp = (set_player g pi (without n p), Raised EOFError))
        ∨ (action_input inp ≠ Eof ∧
           (play_turn g pi inp
            = (discard_card (set_player g pi (without n p)) c, Returned ())
            ∨ (∃ grp, grp ∈ find_captures (set_player g pi (without n p)) c
                 ∧ play_turn g pi inp
                   = or_discard c
                       (execute_capture (set_player g pi (without n p)) pi c grp))
            ∨ (∃ cfg, cfg ∈ can_create_build (set_player g pi (without n p)) c pi
                 ∧ play_turn g pi inp
                   = or_discard c
                       (execute_build (set_player g pi (without n p)) pi c cfg))
            ∨ (∃ cfg, cfg ∈ can_augment_build (set_player g pi (without n p)) c pi
                 ∧ play_turn g pi inp
                   = or_discard c
                       (execute_build (set_player g pi (without n p)) pi c cfg)))))).
Proof.
  intros Hp Hhuman Hhand. unfold play_turn.
  rewrite (list_lookup_total_correct _ _ _ Hp), Hhuman.
  destruct (card_input inp) as [|card_line] eqn:Hcard; [by left|].
  right. split; [done|].
  assert (∃ n c, n = chosen_position p inp ∧ hand p !! n = Some c
     ∧ match match card_line with
             | Some card_index => play_card p card_index
             | None => Raised ValueError
             end with
       | Returned r => Returned r
       | Raised _ => play_card p 0
       end = Returned (c, without n p)) as (n & c & Hn & Hc & ->).
  { assert (∃ c0, hand p !! 0%nat = Some c0) as (c0 & Hc0)
      by (destruct (hand p); [done|by eexists]).
    pose proof (play_card_nat p 0 c0 Hc0) as Hzero. simpl in Hzero.
    unfold chosen_position. rewrite Hcard.
    destruct card_line as [i|]; [|by exists 0%nat, c0].
    destruct (play_card p i) as [[c p']|e] eqn:Hplay.
    - apply play_card_Returned in Hplay as (n & -> & Hc & ->). exists n, c.
      apply lookup_lt_Some in Hc as Hlt.
      rewrite decide_True by lia. by rewrite Nat2Z.id.
    - apply play_card_Raised in Hplay as [_ Hout].
      rewrite decide_False by done. by exists 0%nat, c0. }
  exists n, c. split; [done|]. split; [done|].
  destruct (action_input inp) as [|[choice|]]; [by left|right; split; [done|]..];
    [|by left].
  case_decide as Hchoice; [|by left].
  destruct (menu _ c pi !! Z.to_nat choice) as [a|] eqn:Ha; [|by left].
  apply list_elem_of_lookup_2, menu_entries in Ha.
  destruct a as [grp|cfg|cfg|]; [right; left|right; right; left|do 3 right|left];
    eauto.
Qed.

(** [first_option] finds the first card that has an option. *)
Lemma first_option_find_from {A} (opts : Card → list A) (h : list Card) : ∀ k : nat,
  head ('(i, card) ← imap (λ j c, ((k + j)%nat, c)) h;
        match opts card with [] => [] | o :: _ => [(i, o)] end)
  = '(j, c) ← list_find (λ c, is_Some (head (opts c))) h;
    o ← head (opts c); Some ((k + j)%nat, o).
Proof.
  induction h as [|c h IH]; intros k; [done|].
  rewrite imap_cons, bind_cons. cbn [list_find].
  destruct (opts c) as [|o os] eqn:Hopts.
  - rewrite decide_False by (by intros [? ?]).
    rewrite app_nil_l.
    rewrite (imap_ext _ (λ j c, ((S k + j)%nat, c))) by (intros; simpl; f_equal; lia).
    rewrite IH. destruct (list_find _ h) as [[j c']|]; [|done]. simpl.
    destruct (head (opts c')); [|done]. simpl. do 2 f_equal. lia.
  - rewrite decide_True by (by eexists). simpl.
    by rewrite Hopts.
Qed.

Lemma first_option_find {A} (opts : Card → list A) (h : list Card) :
  first_option opts h
  = '(j, c) ← list_find (λ c, is_Some (head (opts c))) h;
    o ← head (opts c); Some (j, o).
Proof.
  unfold first_option.
  rewrite (imap_ext pair (λ j c, ((0 + j)%nat, c))) by done.
  apply (first_option_find_from opts h 0).
Qed.

Lemma first_option_Some {A} (opts : Card → list A) h i o :
  first_option opts h = Some (i, o) ↔
  ∃ card, h !! i = Some card ∧ head (opts card) = Some o
          ∧ ∀ j c, (j < i)%nat → h !! j = Some c → opts c = [].
Proof.
  rewrite first_option_find. split.
  - destruct (list_find _ h) as [[j c]|] eqn:Hfind; [|done]. simpl.
    destruct (head (opts c)) as [o'|] eqn:Ho; [|done]. intros [= <- <-].
    apply list_find_Some in Hfind as (Hc & _ & Hfirst).
    exists c. split_and!; [done..|]. intros j' c' Hj' Hc'.
    specialize (Hfirst j' c' Hc' Hj'). destruct (opts c'); [done|].
    destruct Hfirst. by eexists.
  - intros (card & Hcard & Ho & Hfirst).
    assert (list_find (λ c, is_Some (head (opts c))) h = Some (i, card)) as ->.
    { apply list_find_Some. split_and!; [done|by eexists|].
      intros j c Hc Hj. rewrite (Hfirst j c Hj Hc). by intros [? ?]. }
    simpl. by rewrite Ho.
Qed.

Lemma first_option_None {A} (opts : Card → list A) h :
  first_option opts h = None ↔ ∀ c, c ∈ h → opts c = [].
Proof.
  rewrite first_option_find. split.
  - destruct (list_find _ h) as [[j c]|] eqn:Hfind.
    + apply list_find_Some in Hfind as (_ & [o Ho] & _). simpl. by rewrite Ho.
    + intros _ c Hc. apply list_find_None in Hfind.
      rewrite Forall_forall in Hfind. specialize (Hfind c Hc).
      destruct (opts c); [done|]. destruct Hfind. by eexists.
  - intros Hnone.
    assert (list_find (λ c, is_Some (head (opts c))) h = None) as ->; [|done].
    apply list_find_None, Forall_forall. intros c Hc. rewrite (Hnone c Hc).
    by intros [? ?].
Qed.

(** The options depend on the hand only through the cards other than
    the played one. *)
Lemma find_captures_set_player g pi p played_card :
  find_captures (set_player g pi p) played_card = find_captures g played_card.
Proof. done. Qed.

Lemma can_create_build_played g pi p n c :
  players g !! pi = Some p → hand p !! n = Some c →
  can_create_build (set_player g pi (without n p)) c pi = can_create_build g c pi.
Proof.
  intros Hp Hc. unfold can_create_build, get_loose_cards. simpl.
  rewrite (list_lookup_total_correct _ _ _ Hp).
  rewrite list_lookup_total_insert_eq by (by eapply lookup_lt_Some).
  assert (available_capture_values (without n p) c = available_capture_values p c)
    as ->; [|done].
  unfold available_capture_values, without. simpl. f_equal.
  rewrite <- (take_drop_middle _ _ _ Hc) at 2.
  rewrite delete_take_drop, !filter_app, filter_cons_False; [done|]. by intros ?.
Qed.

(** ** The automatic player *)

Lemma first_option_head {A} (opts : Card → list A) h i o :
  first_option opts h = Some (i, o) →
  ∃ card, h !! i = Some card ∧ o ∈ opts card ∧ head (opts card) = Some o.
Proof.
  intros (card & Hcard & Ho & _)%first_option_Some. exists card.
  split_and!; [done| |done]. destruct (opts card); simplify_eq/=. left.
Qed.

(** X7. [get_ai_move] gives no move exactly for an empty hand.  It
    captures with the first card of the hand that has a capture, taking
    the first capture listed for it; it builds, with the first card that
    has a build and the first build listed, only when no card of the
    hand has a capture; and it discards, always the card at position 0,
    only when no card of the hand has a capture or a build. *)
Theorem get_ai_move_priority g pi :
  (get_ai_move g pi = None ↔ hand (players g !!! pi) = [])
  ∧ (∀ i target, get_ai_move g pi = Some (i, AiCapture target) ↔
       ∃ card, hand (players g !!! pi) !! i = Some card
               ∧ head (find_captures g card) = Some target
               ∧ ∀ j c, (j < i)%nat → hand (players g !!! pi) !! j = Some c →
                        find_captures g c = [])
  ∧ (∀ i config, get_ai_move g pi = Some (i, AiBuild config) ↔
       (∀ c, c ∈ hand (players g !!! pi) → find_captures g c = [])
       ∧ ∃ card, hand (players g !!! pi) !! i = Some card
                 ∧ head (can_create_build g card pi) = Some config
                 ∧ ∀ j c, (j < i)%nat → hand (players g !!! pi) !! j = Some c →
                          can_create_build g c pi = [])
  ∧ (∀ i, get_ai_move g pi = Some (i, AiDiscard) ↔
       i = 0%nat ∧ hand (players g !!! pi) ≠ []
       ∧ ∀ c, c ∈ hand (players g !!! pi) →
              find_captures g c = [] ∧ can_create_build g c pi = []).
Proof.
  unfold get_ai_move. generalize (hand (players g !!! pi)). intros h.
  destruct (decide (h = [])) as [->|Hne].
  { split_and!; [done|intros i x; split; [done|by intros (? & ? & _)]
                |intros i x; split; [done|by intros (_ & ? & ? & _)]
                |intros i; split; [done|by intros (_ & ? & _)]]. }
  assert (∀ X Y : option (nat * AiAction),
            match h with [] => X | _ :: _ => Y end = Y) as -> by (by destruct h).
  destruct (first_option (find_captures g) h) as [[i0 t0]|] eqn:Hcap.
  - apply first_option_Some in Hcap as Hspec.
    destruct Hspec as (card0 & Hcard0 & Hhead0 & Hfirst0).
    assert (¬ ∀ c, c ∈ h → find_captures g c = []) as Hsome.
    { intros Hnone. apply first_option_None in Hnone. congruence. }
    split_and!.
    + done.
    + intros i target. rewrite <- first_option_Some, Hcap.
      split; intros; simplify_eq; done.
    + intros i config. split; [done|]. by intros [? _].
    + intros i. split; [done|]. intros (_ & _ & Hnone). destruct Hsome.
      intros c Hc. by apply Hnone.
  - rewrite first_option_None in Hcap.
    destruct (first_option (λ card, can_create_build g card pi) h)
      as [[i0 cfg0]|] eqn:Hbuild.
    + assert (¬ ∀ c, c ∈ h → can_create_build g c pi = []) as Hsome.
      { intros Hnone.
        apply (first_option_None (λ card, can_create_build g card pi)) in Hnone.
        congruence. }
      split_and!.
      * done.
      * intros i target. split; [done|]. intros (card & Hcard & Hhead & _).
        rewrite (Hcap card) in Hhead; [done|]. by eapply list_elem_of_lookup_2.
      * intros i config.
        rewrite <- (first_option_Some (λ card, can_create_build g card pi)), Hbuild.
        split; [intros; by simplify_eq|]. intros [_ ?]. by simplify_eq.
      * intros i. split; [done|]. intros (_ & _ & Hnone). destruct Hsome.
        intros c Hc. by apply Hnone.
    + rewrite (first_option_None (λ card, can_create_build g card pi)) in Hbuild.
      split_and!.
      * done.
      * intros i target. split; [done|]. intros (card & Hcard & Hhead & _).
        rewrite (Hcap card) in Hhead; [done|]. by eapply list_elem_of_lookup_2.
      * intros i config. split; [done|]. intros (_ & card & Hcard & Hhead & _).
        rewrite (Hbuild card) in Hhead; [done|]. by eapply list_elem_of_lookup_2.
      * intros i. split.
        -- intros [= <-]. split_and!; [done..|]. intros c Hc. split; auto.
        -- intros (-> & _ & _). done.
Qed.

(** ** Whole turns *)

(** The three ways a turn of the automatic player ends. *)
Lemma ai_turn_anatomy g pi inp p :
  players g !! pi = Some p → is_ai p = true → hand p ≠ [] →
  ∃ n c, hand p !! n = Some c ∧
    (play_turn g pi inp
     = (discard_card (set_player g pi (without n p)) c, Returned ())
     ∨ (∃ grp, grp ∈ find_captures (set_player g pi (without n p)) c
          ∧ play_turn g pi inp
            = forget (execute_capture (set_player g pi (without n p)) pi c grp))
     ∨ (∃ cfg, cfg ∈ can_create_build (set_player g pi (without n p)) c pi
          ∧ play_turn g pi inp
            = forget (execute_build (set_player g pi (without n p)) pi c cfg))).
Proof.
  intros Hp Hai Hhand. unfold play_turn, get_ai_move.
  rewrite (list_lookup_total_correct _ _ _ Hp), Hai.
  assert (∀ X Y : option (nat * AiAction),
            match hand p with [] => X | _ :: _ => Y end = Y) as ->
    by (by destruct (hand p)).
  destruct (first_option (find_captures g) (hand p)) as [[n grp]|] eqn:Hcap.
  - apply first_option_head in Hcap as (c & Hc & Hgrp & _).
    exists n, c. split; [done|]. right; left. exists grp. split; [done|].
    rewrite (play_card_nat _ _ _ Hc).
    change (find_captures (set_player g pi (without n p)) c)
      with (find_captures g c).
    by destruct (find_captures g c); [by apply elem_of_nil in Hgrp|].
  - destruct (first_option (λ card, can_create_build g card pi) (hand p))
      as [[n cfg]|] eqn:Hbuild.
    + apply (first_option_head (λ card, can_create_build g card pi))
        in Hbuild as (c & Hc & Hcfg & _).
      exists n, c. split; [done|]. right; right. exists cfg.
      rewrite (can_create_build_played _ _ _ _ _ Hp Hc). split; [done|].
      rewrite (play_card_nat _ _ _ Hc).
      rewrite (can_create_build_played _ _ _ _ _ Hp Hc).
      destruct (can_create_build g c pi); [by apply elem_of_nil in Hcfg|].
      done.
    + assert (∃ c, hand p !! 0%nat = Some c) as (c & Hc)
        by (destruct (hand p); [done|by eexists]).
      exists 0%nat, c. split; [done|]. left.
      by rewrite (play_card_nat _ _ _ Hc).
Qed.

(** A turn of a player who holds cards ends at the first prompt with
    [EOFError], or it plays one card [c] of the hand and then ends in
    one of five ways. *)
Lemma turn_cases g pi inp p :
  players g !! pi = Some p → hand p ≠ [] →
  (is_ai p = false ∧ card_input inp = Eof
   ∧ play_turn g pi inp = (g, Raised EOFError))
  ∨ ((is_ai p = false → card_input inp ≠ Eof)
     ∧ ∃ n c, hand p !! n = Some c
       ∧ (is_ai p = false → n = chosen_position p inp)
       ∧ (((is_ai p = false → action_input inp ≠ Eof)
           ∧ play_turn g pi inp
             = (discard_card (set_player g pi (without n p)) c, Returned ()))
          ∨ ((is_ai p = false → action_input inp ≠ Eof)
             ∧ ∃ grp g', grp ∈ find_captures (set_player g pi (without n p)) c
               ∧ execute_capture (set_player g pi (without n p)) pi c grp
                 = (g', Returned true)
               ∧ play_turn g pi inp = (g', Returned ()))
          ∨ ((is_ai p = false → action_input inp ≠ Eof)
             ∧ ∃ cfg g', cfg ∈ can_create_build (set_player g pi (without n p)) c pi
               ∧ execute_build (set_player g pi (without n p)) pi c cfg
                 = (g', Returned true)
               ∧ play_turn g pi inp = (g', Returned ()))
          ∨ (is_ai p = false ∧ action_input inp ≠ Eof
             ∧ can_augment_build (set_player g pi (without n p)) c pi ≠ []
             ∧ play_turn g pi inp
               = (set_player g pi (without n p), Raised KeyError))
          ∨ (is_ai p = false ∧ action_input inp = Eof
             ∧ play_turn g pi inp
               = (set_player g pi (without n p), Raised EOFError)))).
Proof.
  intros Hp Hhand. destruct (is_ai p) eqn:Hai.
  - right. split; [done|].
    destruct (ai_turn_anatomy g pi inp p Hp Hai Hhand)
      as (n & c & Hc & [Hrun|[(grp & Hgrp & Hrun)|(cfg & Hcfg & Hrun)]]);
      exists n, c; (split; [done|]); (split; [done|]).
    + by left.
    + right; left. split; [done|].
      destruct (listed_capture_returns _ c grp pi c Hgrp) as (g' & Hexec).
      exists grp, g'. by rewrite Hrun, Hexec.
    + right; right; left. split; [done|].
      destruct (listed_build_returns _ c pi cfg pi Hcfg) as (g' & Hexec & _).
      exists cfg, g'. by rewrite Hrun, Hexec.
  - destruct (human_turn_anatomy g pi inp p Hp Hai Hhand)
      as [[Heof Hrun]|(Hcard & n & c & Hn & Hc & Hends)]; [by left|].
    right. split; [done|]. exists n, c. split; [done|]. split; [done|].
    destruct Hends as [[Heof Hrun]|(Haction & [Hrun|[(grp & Hgrp & Hrun)
                         |[(cfg & Hcfg & Hrun)|(cfg & Hcfg & Hrun)]]])].
    + by do 4 right.
    + by left.
    + right; left. split; [done|].
      destruct (listed_capture_returns _ c grp pi c Hgrp) as (g' & Hexec).
      exists grp, g'. by rewrite Hrun, Hexec.
    + right; right; left. split; [done|].
      destruct (listed_build_returns _ c pi cfg pi Hcfg) as (g' & Hexec & _).
      exists cfg, g'. by rewrite Hrun, Hexec.
    + do 3 right. left. split_and!; [done..| |].
      { intros Hnil. rewrite Hnil in Hcfg. by apply elem_of_nil in Hcfg. }
      rewrite Hrun.
      by apply can_augment_build_options
        in Hcfg as (h & _ & [(nt & -> & _)|(card & ->)]).
Qed.

(** What [execute_capture], [execute_build] and [discard_card] leave
    alone. *)
Lemma execute_capture_frame g pi played_card grp g' :
  execute_capture g pi played_card grp = (g', Returned true) →
  store g' = store g ∧ deck g' = deck g
  ∧ num_players g' = num_players g ∧ current_player g' = current_player g
  ∧ layout g' `sublist_of` layout g
  ∧ hand <$> players g' = hand <$> players g
  ∧ is_ai <$> players g' = is_ai <$> players g
  ∧ ∀ j q, players g' !! j = Some q → last_capture q = bool_decide (j = pi).
Proof.
  unfold execute_capture. destruct grp as [|x grp]; [done|].
  destruct (capture_loop _ _ _ _) as [lay [cs|e]] eqn:Hloop; [|done].
  intros [= <-]. simpl. split_and!; [done..|by eapply capture_loop_sublist| | |].
  - apply list_eq. intros j.
    rewrite !list_lookup_fmap, lookup_mark_last_capture.
    destruct (decide (j = pi)) as [->|Hne].
    + rewrite list_lookup_alter_eq. by destruct (players g !! pi).
    + rewrite list_lookup_alter_ne by done. by destruct (players g !! j).
  - apply list_eq. intros j.
    rewrite !list_lookup_fmap, lookup_mark_last_capture.
    destruct (decide (j = pi)) as [->|Hne].
    + rewrite list_lookup_alter_eq. by destruct (players g !! pi).
    + rewrite list_lookup_alter_ne by done. by destruct (players g !! j).
  - intros j q. rewrite lookup_mark_last_capture.
    destruct (alter _ pi (players g) !! j); [|done]. by intros [= <-].
Qed.

Lemma execute_build_frame g pi played_card cfg g' r :
  execute_build g pi played_card cfg = (g', r) →
  players g' = players g ∧ deck g' = deck g
  ∧ num_players g' = num_players g ∧ current_player g' = current_player g.
Proof.
  unfold execute_build, update_build. intros Hrun.
  repeat case_match; simplify_eq; done.
Qed.

Lemma invariants_mono g g' :
  store g' = store g → layout g' `sublist_of` layout g →
  layout_wf g → plain_builds_valid g →
  layout_wf g' ∧ plain_builds_valid g'.
Proof.
  intros Hst Hs Hwf Hval. unfold layout_wf, plain_builds_valid. rewrite Hst.
  split; intros h Hh; [apply Hwf|apply Hval]; by eapply elem_of_sublist.
Qed.

Lemma discard_invariants g played_card :
  layout_wf g → plain_builds_valid g →
  layout_wf (discard_card g played_card)
  ∧ plain_builds_valid (discard_card g played_card).
Proof.
  intros Hwf Hval. unfold layout_wf, plain_builds_valid, discard_card. simpl.
  split; intros h [Hh|Hh%list_elem_of_singleton]%elem_of_app; try done;
    [by apply Hwf|by apply Hval].
Qed.

(** What a turn keeps. *)
Lemma turn_invariants g pi inp p g' r :
  players g !! pi = Some p → hand p ≠ [] →
  layout_wf g → plain_builds_valid g →
  play_turn g pi inp = (g', r) →
  num_players g' = num_players g ∧ current_player g' = current_player g
  ∧ is_ai <$> players g' = is_ai <$> players g
  ∧ layout_wf g' ∧ plain_builds_valid g' ∧ deck g' = deck g
  ∧ length (players g') = length (players g)
  ∧ ((r = Returned ()
      ∧ (zones g' ≡ₚ zones g)
      ∧ (is_ai p = false → card_input inp ≠ Eof ∧ action_input inp ≠ Eof))
     ∨ (r = Raised KeyError ∧ is_ai p = false
        ∧ card_input inp ≠ Eof ∧ action_input inp ≠ Eof
        ∧ layout g' = layout g ∧ store g' = store g
        ∧ ∃ c, c ∈ hand p ∧ can_augment_build g' c pi ≠ []
               ∧ (c :: zones g' ≡ₚ zones g))
     ∨ (r = Raised EOFError ∧ is_ai p = false
        ∧ ((card_input inp = Eof ∧ g' = g)
           ∨ (card_input inp ≠ Eof ∧ action_input inp = Eof
              ∧ layout g' = layout g ∧ store g' = store g
              ∧ ∃ c, c ∈ hand p ∧ (c :: zones g' ≡ₚ zones g))))).
Proof.
  intros Hp Hhand Hwf Hval Hrun.
  destruct (turn_cases g pi inp p Hp Hhand)
    as [(Hai & Heof & Heq)|(Hcard & n & c & Hc & _ & Hcases)].
  { rewrite Heq in Hrun. simplify_eq. split_and!; [done..|].
    do 2 right. split_and!; [done..|]. by left. }
  pose proof (set_player_zones g pi p n c Hp Hc) as Hz.
  pose proof (lookup_lt_Some _ _ _ Hp) as Hpi.
  set (g1 := set_player g pi (without n p)) in *.
  assert (layout_wf g1 ∧ plain_builds_valid g1) as [Hwf1 Hval1] by done.
  assert (length (players g1) = length (players g)) as Hlen
    by (unfold g1, set_player; simpl; by rewrite length_insert).
  assert (is_ai <$> players g1 = is_ai <$> players g) as Hais.
  { unfold g1, set_player. simpl. rewrite list_fmap_insert. simpl.
    apply list_insert_id. by rewrite list_lookup_fmap, Hp. }
  destruct Hcases as [[Hact Heq]|[(Hact & grp & g2 & _ & Hexec & Heq)
                     |[(Hact & cfg & g2 & Hcfg & Hexec & Heq)
                     |[(Hai & Hact & Hopt & Heq)|(Hai & Hact & Heq)]]]];
    rewrite Heq in Hrun; simplify_eq.
  - destruct (discard_invariants g1 c Hwf1 Hval1) as [? ?].
    split_and!; [done..|]. left. split_and!; [done| |by auto].
    by rewrite discard_zones, Hz.
  - destruct (execute_capture_frame _ _ _ _ _ Hexec)
      as (Hst & Hdeck & ? & ? & Hs & Hhands & Hais' & _).
    destruct (invariants_mono g1 g' Hst Hs Hwf1 Hval1) as [? ?].
    split_and!; [done|done|congruence|done|done|done| |].
    + apply (f_equal length) in Hhands. rewrite !length_fmap in Hhands. lia.
    + left. split_and!; [done| |by auto].
      rewrite (capture_zones g1 pi c grp g'), Hz; [done|lia|done].
  - destruct (execute_build_frame _ _ _ _ _ _ Hexec) as (Hps & Hdeck & ? & ?).
    apply can_create_build_options in Hcfg as (combo & total & -> & _ & _ & Htot).
    apply first_held_total_elem in Htot.
    destruct (create_keeps_valid g1 pi c combo total Hwf1 Hval1 Htot) as [Hwf2 Hval2].
    rewrite Hexec in Hwf2, Hval2.
    split_and!; [done|done|by rewrite Hps|done|done|done|by rewrite Hps|].
    left. split_and!; [done| |by auto].
    by rewrite (create_zones g1 pi c (single_config combo c total) g' Hwf1 eq_refl Hexec), Hz.
  - split_and!; [done..|]. right; left. split_and!; [by auto..|].
    exists c. split_and!; [by eapply list_elem_of_lookup_2|done|done].
  - split_and!; [done..|]. do 2 right. split_and!; [done..|]. right.
    split_and!; [by auto..|].
    exists c. split; [by eapply list_elem_of_lookup_2|done].
Qed.

(** X8. A turn of a player who holds cards keeps the layout's build
    references inside the arena and the builds that were never
    augmented valid, and it ends in one of three ways.  It returns: no
    card is lost or doubled, and a human player has answered both
    prompts.  Or a human player has answered both prompts and the menu
    held an augmentation: [KeyError], the card played is in no zone any
    more and nothing else has changed.  Or standard input has ended:
    [EOFError], at the first prompt with the game as it was, at the
    second with the card played in no zone any more.  The automatic
    player's turn always returns. *)
Theorem turn_outcome g pi inp p g' r :
  players g !! pi = Some p → hand p ≠ [] →
  layout_wf g → plain_builds_valid g →
  play_turn g pi inp = (g', r) →
  layout_wf g' ∧ plain_builds_valid g' ∧ deck g' = deck g
  ∧ length (players g') = length (players g)
  ∧ ((r = Returned ()
      ∧ (zones g' ≡ₚ zones g)
      ∧ (is_ai p = false → card_input inp ≠ Eof ∧ action_input inp ≠ Eof))
     ∨ (r = Raised KeyError ∧ is_ai p = false
        ∧ card_input inp ≠ Eof ∧ action_input inp ≠ Eof
        ∧ layout g' = layout g ∧ store g' = store g
        ∧ ∃ c, c ∈ hand p ∧ can_augment_build g' c pi ≠ []
               ∧ (c :: zones g' ≡ₚ zones g))
     ∨ (r = Raised EOFError ∧ is_ai p = false
        ∧ ((card_input inp = Eof ∧ g' = g)
           ∨ (card_input inp ≠ Eof ∧ action_input inp = Eof
              ∧ layout g' = layout g ∧ store g' = store g
              ∧ ∃ c, c ∈ hand p ∧ (c :: zones g' ≡ₚ zones g))))).
Proof.
  intros Hp Hhand Hwf Hval Hrun.
  by destruct (turn_invariants g pi inp p g' r Hp Hhand Hwf Hval Hrun)
    as (_ & _ & _ & ?).
Qed.

(** X8 at work: the first player of scenario A types 0 at the first
    prompt and standard input ends before the second; the turn ends in
    [EOFError] and the seven of clubs is gone. *)
Lemma turn_outcome_witness :
  (layout_wf scenario_a ∧ plain_builds_valid scenario_a)
  ∧ (play_turn scenario_a 0 (mkTurnInput (Line (Some 0)) Eof)).2 = Raised EOFError
  ∧ mkCard R7 CLUBS :: zones (play_turn scenario_a 0 (mkTurnInput (Line (Some 0)) Eof)).1
    ≡ₚ zones scenario_a.
Proof.
  assert (∀ h, IBuild h ∉ layout scenario_a) as Hnone.
  { intros h Hh. simpl in Hh.
    repeat (apply elem_of_cons in Hh as [Heq|Hh]; [by simplify_eq|]).
    by apply elem_of_nil in Hh. }
  assert (layout_wf scenario_a) as Hwf by (intros h Hh; by destruct (Hnone h)).
  assert (plain_builds_valid scenario_a) as Hval
    by (intros h Hh; by destruct (Hnone h)).
  split; [done|].
  assert (∃ p, players scenario_a !! 0%nat = Some p ∧ hand p ≠ []
               ∧ is_ai p = false)
    as (p & Hp & Hhand & Hai) by (by eexists).
  destruct (turn_outcome scenario_a 0 (mkTurnInput (Line (Some 0)) Eof) p _ _
              Hp Hhand Hwf Hval (surjective_pairing _))
    as (_ & _ & _ & _ & [(_ & _ & Hans)|[(_ & _ & _ & Hans & _)
                        |(Hr & _ & [[Hans _]|(_ & _ & _ & _ & c & Hc & Hz)])]]).
  - destruct (Hans Hai) as [_ Hans2]. by destruct Hans2.
  - by destruct Hans.
  - discriminate Hans.
  - split; [done|]. vm_compute. solve_Permutation.
Defined.

Lemma bind_fmap_eq {A B} (f : A → list B) (l l' : list A) :
  f <$> l = f <$> l' → l ≫= f = l' ≫= f.
Proof.
  revert l'. induction l as [|x l IH]; intros [|y l']; try done.
  rewrite !fmap_cons. intros [= Hx Hl]. by rewrite !bind_cons, Hx, (IH l').
Qed.

(** What a turn does to the hands. *)
Lemma turn_hands g pi inp p g' r :
  players g !! pi = Some p → hand p ≠ [] →
  (is_ai p = false → card_input inp ≠ Eof) →
  play_turn g pi inp = (g', r) →
  ∃ n c, hand p !! n = Some c
    ∧ (is_ai p = false → n = chosen_position p inp)
    ∧ hand <$> players g' = <[pi := delete n (hand p)]> (hand <$> players g)
    ∧ S (hand_cards g') = hand_cards g.
Proof.
  intros Hp Hhand Hanswered Hrun.
  destruct (turn_cases g pi inp p Hp Hhand)
    as [(Hai & Heof & _)|(_ & n & c & Hc & Hn & Hcases)];
    [by destruct (Hanswered Hai)|].
  exists n, c. split; [done|]. split; [done|].
  set (g1 := set_player g pi (without n p)) in *.
  assert (hand <$> players g1 = <[pi := delete n (hand p)]> (hand <$> players g))
    as Hg1 by (unfold g1, set_player; simpl; by rewrite list_fmap_insert).
  assert (S (hand_cards g1) = hand_cards g) as Hcount.
  { unfold hand_cards, g1, set_player. simpl.
    rewrite (bind_insert _ _ _ _ _ Hp), (bind_middle hand _ _ _ Hp).
    simpl. rewrite !length_app, length_delete by done.
    apply lookup_lt_Some in Hc. lia. }
  assert (hand <$> players g' = hand <$> players g1) as Hsame.
  { destruct Hcases as [[_ Heq]|[(_ & grp & g2 & _ & Hexec & Heq)
                       |[(_ & cfg & g2 & _ & Hexec & Heq)
                       |[(_ & _ & _ & Heq)|(_ & _ & Heq)]]]];
      rewrite Heq in Hrun; simplify_eq; [done| | |done|done].
    - by destruct (execute_capture_frame _ _ _ _ _ Hexec)
        as (_ & _ & _ & _ & _ & ? & _).
    - by destruct (execute_build_frame _ _ _ _ _ _ Hexec) as (-> & _). }
  split; [by rewrite Hsame|].
  unfold hand_cards in *. by rewrite (bind_fmap_eq _ _ _ Hsame).
Qed.

(** X9. A turn of a player who holds cards takes exactly one card out
    of that hand and leaves every other hand as it is, whatever the
    action and also when the turn ends in an exception, [EOFError] at
    the second prompt included: the hands together hold one card less.
    For a human player this is so once the first prompt is answered
    (with [EOFError] at the first prompt the game is unchanged), and
    the position is the one typed, or position 0 for any answer that is
    not a position of the hand. *)
Theorem turn_plays_one_card g pi inp p g' r :
  players g !! pi = Some p → hand p ≠ [] →
  (is_ai p = false → card_input inp ≠ Eof) →
  play_turn g pi inp = (g', r) →
  ∃ n c, hand p !! n = Some c
    ∧ (is_ai p = false → n = chosen_position p inp)
    ∧ hand <$> players g' = <[pi := delete n (hand p)]> (hand <$> players g)
    ∧ S (hand_cards g') = hand_cards g.
Proof. exact (turn_hands g pi inp p g' r). Qed.

(** X9 at work: the first player of scenario A answers 7 at the first
    prompt; the card at position 0 is played. *)
Lemma turn_plays_one_card_witness :
  hand <$> players (play_turn scenario_a 0 (mkInput (Some 7) None)).1
  = [[mkCard RA HEARTS]; []].
Proof.
  assert (∃ p, players scenario_a !! 0%nat = Some p ∧ hand p ≠ []
               ∧ is_ai p = false
               ∧ chosen_position p (mkInput (Some 7) None) = 0%nat
               ∧ hand p = [mkCard R7 CLUBS; mkCard RA HEARTS])
    as (p & Hp & Hhand & Hai & Hpos & Hcards) by (by eexists).
  destruct (turn_plays_one_card scenario_a 0 (mkInput (Some 7) None) p _ _
              Hp Hhand (λ _, ltac:(done)) (surjective_pairing _))
    as (n & c & _ & Hn & Hhands & _).
  rewrite Hhands, (Hn Hai), Hpos, Hcards. reflexivity.
Defined.

(** X10. Without cards in the hand a turn changes nothing: the
    automatic player's turn returns; the human player's turn leaves
    with [EOFError] when standard input has ended, and otherwise with
    the [IndexError] of the second [play_card], which the [try] around
    the first one does not cover. *)
Theorem turn_without_cards g pi inp :
  hand (players g !!! pi) = [] →
  play_turn g pi inp
  = (g, if is_ai (players g !!! pi) then Returned ()
        else match card_input inp with
             | Eof => Raised EOFError
             | Line _ => Raised IndexError
             end).
Proof.
  intros Hhand. unfold play_turn, get_ai_move. rewrite Hhand.
  destruct (is_ai (players g !!! pi)); [done|].
  assert (∀ i, play_card (players g !!! pi) i = Raised IndexError) as Hplay.
  { intros i. unfold play_card. rewrite Hhand. simpl.
    by rewrite decide_False by lia. }
  destruct (card_input inp) as [|[i|]]; [done|..]; by rewrite !Hplay.
Qed.

Lemma turn_without_cards_witness :
  play_turn scenario_a 1 (mkInput (Some 0) (Some 0))
  = (scenario_a, Raised IndexError).
Proof. apply (turn_without_cards scenario_a 1). reflexivity. Defined.

(** X11. A turn either leaves the [last_capture] marks as they are or
    marks the player of the turn and nobody else; so at most one player
    is marked after the turn if at most one was before. *)
Theorem turn_last_capture g pi inp p g' r :
  players g !! pi = Some p → hand p ≠ [] →
  play_turn g pi inp = (g', r) →
  (last_capture <$> players g' = last_capture <$> players g
   ∨ (r = Returned ()
      ∧ ∀ j q, players g' !! j = Some q → last_capture q = bool_decide (j = pi)))
  ∧ (exclusive_last_capture g → exclusive_last_capture g').
Proof.
  intros Hp Hhand Hrun.
  assert (last_capture <$> players g' = last_capture <$> players g
          ∨ (r = Returned ()
             ∧ ∀ j q, players g' !! j = Some q → last_capture q = bool_decide (j = pi)))
    as Hmarks.
  { destruct (turn_cases g pi inp p Hp Hhand)
      as [(_ & _ & Heq)|(_ & n & c & Hc & _ & Hcases)].
    { rewrite Heq in Hrun. simplify_eq. by left. }
    set (g1 := set_player g pi (without n p)) in *.
    assert (last_capture <$> players g1 = last_capture <$> players g) as Hg1.
    { unfold g1, set_player. simpl. rewrite list_fmap_insert. simpl.
      apply list_insert_id. by rewrite list_lookup_fmap, Hp. }
    destruct Hcases as [[_ Heq]|[(_ & grp & g2 & _ & Hexec & Heq)
                       |[(_ & cfg & g2 & _ & Hexec & Heq)
                       |[(_ & _ & _ & Heq)|(_ & _ & Heq)]]]];
      rewrite Heq in Hrun; simplify_eq; [by left| | |by left|by left].
    - right. split; [done|].
      by destruct (execute_capture_frame _ _ _ _ _ Hexec)
        as (_ & _ & _ & _ & _ & _ & _ & ?).
    - left. by destruct (execute_build_frame _ _ _ _ _ _ Hexec) as (-> & _). }
  split; [done|]. intros Hex i j q1 q2 Hq1 Hq2 H1 H2.
  destruct Hmarks as [Hsame|[_ Hmark]].
  - assert (∀ k q, players g' !! k = Some q →
              ∃ q0, players g !! k = Some q0 ∧ last_capture q0 = last_capture q)
      as Hback.
    { intros k q Hq. apply (f_equal (.!! k)) in Hsame.
      rewrite !list_lookup_fmap, Hq in Hsame. simpl in Hsame.
      destruct (players g !! k) as [q0|]; [|done]. exists q0.
      split; [done|]. by simplify_eq/=. }
    destruct (Hback i q1 Hq1) as (p1 & Hp1 & Hl1).
    destruct (Hback j q2 Hq2) as (p2 & Hp2 & Hl2).
    apply (Hex i j p1 p2); congruence.
  - rewrite (Hmark i q1 Hq1) in H1. rewrite (Hmark j q2 Hq2) in H2.
    apply bool_decide_eq_true_1 in H1, H2. congruence.
Qed.

(** X11 at work: the capture of scenario A marks the first player. *)
Lemma turn_last_capture_witness :
  exclusive_last_capture (play_turn scenario_a 0 (mkInput (Some 0) (Some 0))).1.
Proof.
  assert (∃ p, players scenario_a !! 0%nat = Some p ∧ hand p ≠ [])
    as (p & Hp & Hhand) by (by eexists).
  destruct (turn_last_capture scenario_a 0 (mkInput (Some 0) (Some 0)) p _ _
              Hp Hhand (surjective_pairing _)) as [_ Hex].
  apply Hex. intros i j q1 q2 Hq1 Hq2 H1 H2.
  destruct i as [|[|i]]; simplify_eq/=.
Defined.

(** ** Set-up *)

Lemma pop_times_in_range k : ∀ (s : nat) d cut,
  (s + k ≤ length d)%nat →
  pop_times k (Z.of_nat s) d cut
  = (take s d ++ drop (s + k) d, Returned (cut ++ take k (drop s d))).
Proof.
  induction k as [|k IH]; intros s d cut Hlen; cbn [pop_times].
  - by rewrite Nat.add_0_r, take_drop, take_0, app_nil_r.
  - destruct (lookup_lt_is_Some_2 d s) as [x Hx]; [lia|].
    rewrite (py_pop_nat _ _ _ Hx).
    assert (s = length (take s d)) as Htake by (rewrite length_take; lia).
    rewrite IH by (rewrite length_delete by done; lia).
    rewrite delete_take_drop, take_app_length' by done.
    rewrite (drop_app_length' (take s d) _ s) by done.
    rewrite drop_app_ge, <- Htake by lia. rewrite drop_drop.
    rewrite (drop_S d x s Hx). cbn [take].
    rewrite <- app_assoc. do 3 f_equal. lia.
Qed.

Lemma share_step n i m :
  (i < n)%nat →
  share n i (S m) = (share n i m + (if decide (m mod n = i) then 1 else 0))%nat.
Proof.
  intros Hi. unfold share.
  pose proof (Nat.div_mod_eq m n) as Hm.
  pose proof (Nat.div_mod_eq (S m) n) as HSm.
  pose proof (Nat.mod_upper_bound m n) as Hb.
  pose proof (Nat.mod_upper_bound (S m) n) as HSb.
  repeat case_decide; nia.
Qed.

Lemma cards_fmap_ICard σ (cs : list Card) : (ICard <$> cs) ≫= item_cards σ = cs.
Proof. induction cs as [|c cs IH]; [done|]. by rewrite fmap_cons, bind_cons, IH. Qed.

Lemma piles_alter_same (f : Player → Player) i (ps : list Player) :
  (∀ p, capture_pile (f p) = capture_pile p) →
  alter f i ps ≫= capture_pile = ps ≫= capture_pile.
Proof.
  intros Hf. revert i. induction ps as [|p ps IH]; intros [|i]; try done.
  - change (alter f 0%nat (p :: ps)) with (f p :: ps). by rewrite !bind_cons, Hf.
  - change (alter f (S i) (p :: ps)) with (p :: alter f i ps).
    by rewrite !bind_cons, IH.
Qed.

(** The dealing loop gives each player the share of the position. *)
Lemma deal_lookup n cs : ∀ k ps i p,
  length ps = n → ps !! i = Some p →
  ∃ p', deal cs k ps !! i = Some p'
    ∧ capture_pile p' = capture_pile p
    ∧ is_ai p' = is_ai p ∧ last_capture p' = last_capture p
    ∧ (length (hand p') + share n i k
       = length (hand p) + share n i (k + length cs))%nat.
Proof.
  induction cs as [|c cs IH]; intros k ps i p Hn Hp; cbn [deal].
  - exists p. rewrite Nat.add_0_r. done.
  - pose proof (lookup_lt_Some _ _ _ Hp) as Hi.
    rewrite Hn. destruct (decide ((k mod n)%nat = i)) as [Heq|Hne].
    + destruct (IH (S k) (alter (add_to_hand c) (k mod n)%nat ps) i
                  (add_to_hand c p)) as (p' & Hp' & ? & ? & ? & Hlen).
      { by rewrite length_alter. }
      { by rewrite Heq, list_lookup_alter_eq, Hp. }
      exists p'. split_and!; [done..|].
      rewrite share_step in Hlen by (by rewrite <- Hn).
      rewrite decide_True in Hlen by done.
      replace (k + length (c :: cs))%nat with (S k + length cs)%nat
        by (cbn [length]; lia).
      change (hand (add_to_hand c p)) with (hand p ++ [c]) in Hlen.
      rewrite length_app in Hlen. cbn [length] in Hlen. lia.
    + destruct (IH (S k) (alter (add_to_hand c) (k mod n)%nat ps) i p)
        as (p' & Hp' & ? & ? & ? & Hlen).
      { by rewrite length_alter. }
      { by rewrite list_lookup_alter_ne. }
      exists p'. split_and!; [done..|].
      rewrite share_step in Hlen by (by rewrite <- Hn).
      rewrite decide_False in Hlen by done.
      replace (k + length (c :: cs))%nat with (S k + length cs)%nat
        by (cbn [length]; lia).
      lia.
Qed.

Lemma deal_length cs : ∀ k ps, length (deal cs k ps) = length ps.
Proof.
  induction cs as [|c cs IH]; intros k ps; cbn [deal]; [done|].
  by rewrite IH, length_alter.
Qed.

Lemma hands_add_to_hand c i (ps : list Player) :
  (i < length ps)%nat →
  alter (add_to_hand c) i ps ≫= hand ≡ₚ c :: (ps ≫= hand).
Proof.
  revert i. induction ps as [|p ps IH]; intros [|i] Hi; simpl in Hi; try lia.
  - change (alter (add_to_hand c) 0%nat (p :: ps)) with (add_to_hand c p :: ps).
    rewrite !bind_cons. unfold add_to_hand. simpl. solve_Permutation.
  - change (alter (add_to_hand c) (S i) (p :: ps))
      with (p :: alter (add_to_hand c) i ps).
    rewrite !bind_cons, IH by lia. solve_Permutation.
Qed.

Lemma deal_hands cs : ∀ k ps,
  ps ≠ [] → deal cs k ps ≫= hand ≡ₚ cs ++ (ps ≫= hand).
Proof.
  induction cs as [|c cs IH]; intros k ps Hps; cbn [deal]; [done|].
  assert (0 < length ps)%nat as Hpos by (destruct ps; [done|simpl; lia]).
  rewrite IH.
  - rewrite hands_add_to_hand by (apply Nat.mod_upper_bound; lia).
    solve_Permutation.
  - intros Hnil. apply (f_equal length) in Hnil.
    rewrite length_alter in Hnil. simpl in Hnil. lia.
Qed.

Lemma deal_piles cs : ∀ k ps,
  deal cs k ps ≫= capture_pile = ps ≫= capture_pile.
Proof.
  induction cs as [|c cs IH]; intros k ps; cbn [deal]; [done|].
  rewrite IH. by apply piles_alter_same.
Qed.

Lemma share_0 n i : n ≠ 0%nat → share n i 0 = 0%nat.
Proof.
  intros Hn. unfold share. rewrite Nat.Div0.div_0_l, Nat.Div0.mod_0_l.
  rewrite decide_False by lia. done.
Qed.

(** What [setup_game] does with a deck of four or more cards. *)
Lemma setup_game_run g :
  (4 ≤ length (deck g))%nat → players g ≠ [] →
  ∃ g', setup_game g = (g', Returned ())
    ∧ deck g' = [] ∧ store g' = store g ∧ current_player g' = 0%nat
    ∧ num_players g' = num_players g
    ∧ layout g'
      = layout g ++ (ICard <$> take 4 (drop (length (deck g) / 2 - 2) (deck g)))
    ∧ (zones g' ≡ₚ zones g)
    ∧ length (players g') = length (players g)
    ∧ ∀ i p, players g !! i = Some p →
        ∃ p', players g' !! i = Some p'
          ∧ capture_pile p' = capture_pile p
          ∧ is_ai p' = is_ai p ∧ last_capture p' = last_capture p
          ∧ length (hand p')
            = (length (hand p)
               + share (length (players g)) i (length (deck g) - 4))%nat.
Proof.
  intros Hdeck Hps.
  set (s := (length (deck g) / 2 - 2)%nat).
  pose proof (Nat.div_mod_eq (length (deck g)) 2) as Hdiv.
  pose proof (Nat.mod_upper_bound (length (deck g)) 2) as Hmod.
  assert (Z.of_nat (length (deck g)) `div` 2 - 2 = Z.of_nat s) as Hs.
  { unfold s. rewrite Nat2Z.inj_sub, Nat2Z.inj_div by lia. done. }
  assert (s + 4 ≤ length (deck g))%nat as Hfit by (unfold s; lia).
  unfold setup_game, _cut_deck. rewrite Hs, (pop_times_in_range 4 s) by done.
  rewrite app_nil_l. eexists. split; [done|]. simpl.
  set (rest := take s (deck g) ++ drop (s + 4) (deck g)).
  assert (length rest = (length (deck g) - 4)%nat) as Hrest.
  { unfold rest. rewrite length_app, length_take, length_drop. lia. }
  assert (deck g ≡ₚ rest ++ take 4 (drop s (deck g))) as Hsplit.
  { unfold rest. rewrite <- (take_drop s (deck g)) at 1.
    rewrite <- (take_drop 4 (drop s (deck g))) at 1.
    rewrite drop_drop. solve_Permutation. }
  split_and!; [done..| |by rewrite deal_length|].
  - unfold zones. simpl.
    rewrite (deal_hands (reverse rest) 0 (players g) Hps), deal_piles.
    rewrite reverse_Permutation, bind_app, cards_fmap_ICard.
    clearbody rest. set (cut := take 4 (drop s (deck g))) in *. clearbody cut.
    rewrite Hsplit. solve_Permutation.
  - intros i p Hp.
    destruct (deal_lookup (length (players g)) (reverse rest) 0 (players g) i p
                eq_refl Hp) as (p' & Hp' & Hpile & ? & ? & Hlen).
    exists p'. split_and!; [done..|].
    rewrite share_0 in Hlen by (destruct (players g); done).
    rewrite length_reverse, Hrest in Hlen. simpl in Hlen. lia.
Qed.

(** X12. With four or more cards in the deck and at least one player,
    [setup_game] returns.  The four cards from position
    [len(deck) // 2 - 2] on are on the layout, in deck order; the deck is
    empty; every card is still there; and the rest has been dealt one by
    one in turn: of the [m] cards dealt to [n] players, the player at
    position [i] has got [m // n] and one more if [i < m % n]. *)
Theorem setup_game_deals g :
  (4 ≤ length (deck g))%nat → players g ≠ [] →
  ∃ g', setup_game g = (g', Returned ())
    ∧ deck g' = [] ∧ store g' = store g ∧ current_player g' = 0%nat
    ∧ num_players g' = num_players g
    ∧ layout g'
      = layout g ++ (ICard <$> take 4 (drop (length (deck g) / 2 - 2) (deck g)))
    ∧ (zones g' ≡ₚ zones g)
    ∧ length (players g') = length (players g)
    ∧ ∀ i p, players g !! i = Some p →
        ∃ p', players g' !! i = Some p'
          ∧ capture_pile p' = capture_pile p
          ∧ is_ai p' = is_ai p ∧ last_capture p' = last_capture p
          ∧ length (hand p')
            = (length (hand p)
               + share (length (players g)) i (length (deck g) - 4))%nat.
Proof. exact (setup_game_run g). Qed.

(** X12 at work: the 40 cards of the recorded game, two players; 18
    cards each. *)
Lemma setup_game_deals_witness :
  ∃ g', setup_game opening = (g', Returned ())
    ∧ (zones g' ≡ₚ zones opening)
    ∧ ∀ i p', players g' !! i = Some p' → length (hand p') = 18%nat.
Proof.
  assert (4 ≤ length (deck opening))%nat as Hdeck by (simpl; lia).
  assert (players opening ≠ []) as Hps by done.
  destruct (setup_game_deals opening Hdeck Hps)
    as (g' & Hrun & _ & _ & _ & _ & _ & Hz & Hlen & Hshare).
  exists g'. split_and!; [done..|]. intros i p' Hp'.
  assert (i < 2)%nat as Hi by (apply lookup_lt_Some in Hp'; by rewrite Hlen in Hp').
  destruct i as [|[|i]]; [| |lia].
  - destruct (Hshare 0%nat idle eq_refl) as (q & Hq & _ & _ & _ & Hl).
    assert (q = p') as -> by congruence. by rewrite Hl.
  - destruct (Hshare 1%nat idle eq_refl) as (q & Hq & _ & _ & _ & Hl).
    assert (q = p') as -> by congruence. by rewrite Hl.
Defined.

(** X13. With fewer than four cards in the deck [setup_game] raises
    [IndexError] and deals nothing.  The start position is then
    negative; with two or three cards it is [-1], every [pop(-1)] takes
    the last card, and the deck is empty when the exception comes: the
    cards popped are in no zone. *)
Theorem setup_game_short_deck g :
  (length (deck g) < 4)%nat →
  ∃ g', setup_game g = (g', Raised IndexError)
    ∧ layout g' = layout g ∧ players g' = players g ∧ store g' = store g
    ∧ deck g' = if decide (length (deck g) ≤ 1)%nat then deck g else [].
Proof.
  intros Hdeck. unfold setup_game, _cut_deck.
  destruct (deck g) as [|a [|b [|c [|d l]]]] eqn:Hd; simpl in Hdeck; try lia;
    eexists; (split; [vm_compute; rewrite ?Hd; reflexivity|]); done.
Qed.

Lemma setup_game_short_deck_witness :
  ∃ g', setup_game scenario_a = (g', Raised IndexError)
    ∧ players g' = players scenario_a.
Proof.
  assert (length (deck scenario_a) < 4)%nat as Hdeck by (simpl; lia).
  destruct (setup_game_short_deck scenario_a Hdeck) as (g' & Hrun & _ & Hps & _).
  by exists g'.
Defined.

Lemma share_even n i m : (m mod n)%nat = 0%nat → share n i m = (m / n)%nat.
Proof. intros Hm. unfold share. rewrite Hm, decide_False by lia. lia. Qed.

Lemma bind_replicate_nil {A B} (f : A → list B) (x : A) n :
  f x = [] → replicate n x ≫= f = [].
Proof. intros Hx. induction n as [|n IH]; [done|]. by rewrite replicate_S, bind_cons, Hx, IH. Qed.

Lemma max_list_bound (l : list nat) m :
  (∀ x, x ∈ l → x ≤ m)%nat → (max_list l ≤ m)%nat.
Proof.
  induction l as [|x l IH]; intros Hall; [simpl; lia|].
  change (max_list (x :: l)) with (x `max` max_list l)%nat.
  assert (x ≤ m)%nat by (apply Hall; left).
  assert (max_list l ≤ m)%nat by (apply IH; intros y Hy; apply Hall; by right).
  lia.
Qed.

(** A new game, set up. *)
Lemma fresh_game_run (use_40_card_deck : bool) n parts shuffled :
  shuffled ≡ₚ fresh_deck use_40_card_deck → n ∈ [2; 3; 4]%nat →
  ∃ g g', new_game n parts shuffled = Returned g
    ∧ setup_game g = (g', Returned ())
    ∧ conserved use_40_card_deck g'
    ∧ deck g' = [] ∧ length (layout g') = 4%nat ∧ length (players g') = n
    ∧ (∀ p, p ∈ players g' →
        length (hand p) = ((length (fresh_deck use_40_card_deck) - 4) / n)%nat
        ∧ capture_pile p = [] ∧ last_capture p = false)
    ∧ seated g' ∧ layout_wf g' ∧ plain_builds_valid g'
    ∧ (longest_hand g' ≤ (length (fresh_deck use_40_card_deck) - 4) / n)%nat
    ∧ hand_cards g' = (length (fresh_deck use_40_card_deck) - 4)%nat
    ∧ ∀ p, p ∈ players g' → is_ai p = false.
Proof.
  intros Hshuffle Hn. unfold new_game. rewrite decide_True by done.
  set (g := mkGame n parts shuffled (replicate n (mkPlayer [] [] false false)) [] [] 0).
  assert (length (deck g) = length (fresh_deck use_40_card_deck)) as Hlen
    by (simpl; by rewrite Hshuffle).
  assert (4 ≤ length (deck g))%nat as Hdeck
    by (rewrite Hlen; destruct use_40_card_deck; vm_compute; lia).
  assert (n = 2 ∨ n = 3 ∨ n = 4)%nat as Hcount.
  { repeat (apply elem_of_cons in Hn as [->|Hn]; [tauto|]).
    by apply elem_of_nil in Hn. }
  assert (players g ≠ []) as Hps.
  { simpl. intros Hnil. apply (f_equal length) in Hnil.
    rewrite length_replicate in Hnil. simpl in Hnil. lia. }
  destruct (setup_game_run g Hdeck Hps)
    as (g' & Hrun & Hempty & Hstore & _ & Hnum & Hlay & Hz & Hplayers & Hshare).
  assert (length (players g') = n) as Hplayers'
    by (rewrite Hplayers; simpl; by rewrite length_replicate).
  assert (∀ p, p ∈ players g' →
            length (hand p) = ((length (fresh_deck use_40_card_deck) - 4) / n)%nat
            ∧ capture_pile p = [] ∧ last_capture p = false) as Hhands.
  { intros p (i & Hi)%list_elem_of_lookup_1.
    assert (i < n)%nat as Hlt by (apply lookup_lt_Some in Hi; by rewrite Hplayers' in Hi).
    destruct (Hshare i (mkPlayer [] [] false false)) as (p' & Hp' & ? & _ & ? & Hhand).
    { simpl. by apply lookup_replicate_2. }
    assert (p' = p) as -> by congruence. split_and!; [|done..].
    rewrite Hhand, Hlen. simpl. rewrite length_replicate.
    apply share_even.
    destruct Hcount as [-> | [-> | ->]]; by destruct use_40_card_deck. }
  assert (conserved use_40_card_deck g') as Hcons.
  { unfold conserved. rewrite Hz. unfold zones. simpl.
    rewrite !bind_replicate_nil by done. by rewrite !app_nil_r. }
  assert (layout g' = ICard <$> take 4 (drop (length (deck g) / 2 - 2) (deck g)))
    as Hlay' by (by rewrite Hlay).
  assert (length (layout g') = 4%nat) as Hfour.
  { rewrite Hlay', length_fmap, length_take, length_drop.
    pose proof (Nat.div_mod_eq (length (deck g)) 2) as Hdiv.
    pose proof (Nat.mod_upper_bound (length (deck g)) 2) as Hmod. lia. }
  assert (∀ h, IBuild h ∉ layout g') as Hnone.
  { intros h. rewrite Hlay'. by intros (c & ? & _)%list_elem_of_fmap. }
  assert (players g' ≫= capture_pile = []) as Hpiles.
  { clear -Hhands. induction (players g') as [|p ps IH]; [done|].
    rewrite bind_cons, IH by (intros q Hq; apply Hhands; by right).
    destruct (Hhands p) as (_ & -> & _); [left|done]. }
  exists g, g'. split_and!; [done..| | | | | |].
  - split; [by rewrite Hnum, Hplayers'|].
    intros Hnil. rewrite Hnil in Hplayers'. simpl in Hplayers'. lia.
  - intros h Hh. by destruct (Hnone h).
  - intros h Hh. by destruct (Hnone h).
  - unfold longest_hand. apply max_list_bound.
    intros x (p & -> & Hp)%list_elem_of_fmap. by destruct (Hhands p Hp) as [-> _].
  - apply Permutation_length in Hcons. unfold zones in Hcons.
    rewrite Hempty, Hpiles, Hlay', cards_fmap_ICard in Hcons.
    rewrite app_nil_l, app_nil_r, length_app in Hcons.
    rewrite Hlay', length_fmap in Hfour. unfold hand_cards. lia.
  - intros p (i & Hi)%list_elem_of_lookup_1.
    assert (i < n)%nat as Hlt by (apply lookup_lt_Some in Hi; by rewrite Hplayers' in Hi).
    destruct (Hshare i (mkPlayer [] [] false false)) as (p' & Hp' & _ & Hai & _).
    { simpl. by apply lookup_replicate_2. }
    by assert (p' = p) as -> by congruence.
Qed.

(** X14. A game made for 2, 3 or 4 players from any shuffle of the
    deck of 40 or of 52 cards and then set up holds every card of that
    deck once: four on the layout, none in the deck, and the same number
    in every hand, the rest divided by the number of players without
    remainder.  Nobody has captured. *)
Theorem fresh_game_setup (use_40_card_deck : bool) n parts shuffled :
  shuffled ≡ₚ fresh_deck use_40_card_deck → n ∈ [2; 3; 4]%nat →
  ∃ g g', new_game n parts shuffled = Returned g
    ∧ setup_game g = (g', Returned ())
    ∧ conserved use_40_card_deck g'
    ∧ deck g' = [] ∧ length (layout g') = 4%nat ∧ length (players g') = n
    ∧ ∀ p, p ∈ players g' →
        length (hand p) = ((length (fresh_deck use_40_card_deck) - 4) / n)%nat
        ∧ capture_pile p = [] ∧ last_capture p = false.
Proof.
  intros Hshuffle Hn.
  destruct (fresh_game_run use_40_card_deck n parts shuffled Hshuffle Hn)
    as (g & g' & ? & ? & ? & ? & ? & ? & ? & _).
  by exists g, g'.
Qed.

(** X14 at work: three players and the 52 cards in their order out of
    the box; 16 cards each. *)
Lemma fresh_game_setup_witness :
  ∃ g g', new_game 3 None (fresh_deck false) = Returned g
    ∧ setup_game g = (g', Returned ())
    ∧ conserved false g'
    ∧ ∀ p, p ∈ players g' → length (hand p) = 16%nat.
Proof.
  assert (3%nat ∈ [2; 3; 4]%nat) as Hn by (right; left).
  destruct (fresh_game_setup false 3 None (fresh_deck false) (reflexivity _) Hn)
    as (g & g' & Hnew & Hrun & Hcons & _ & _ & _ & Hhands).
  exists g, g'. split_and!; [done..|]. intros p Hp.
  by destruct (Hhands p Hp) as [-> _].
Defined.

(** ** End of hand, once more *)

(** What [end_of_hand_cleanup] keeps. *)
Lemma cleanup_keeps g :
  (zones (end_of_hand_cleanup g) ≡ₚ zones g)
  ∧ deck (end_of_hand_cleanup g) = deck g
  ∧ hand <$> players (end_of_hand_cleanup g) = hand <$> players g
  ∧ last_capture <$> players (end_of_hand_cleanup g) = last_capture <$> players g
  ∧ end_of_hand_cleanup (end_of_hand_cleanup g) = end_of_hand_cleanup g.
Proof.
  assert (∀ g0, layout g0 = [] → end_of_hand_cleanup g0 = g0) as Hidem.
  { intros g0 H0. unfold end_of_hand_cleanup. rewrite H0.
    by destruct (list_find _ (players g0)) as [[? ?]|]. }
  assert (end_of_hand_cleanup (end_of_hand_cleanup g) = end_of_hand_cleanup g)
    as Htwice.
  { remember (end_of_hand_cleanup g) as g1 eqn:Hg1.
    unfold end_of_hand_cleanup in Hg1.
    destruct (list_find _ (players g)) as [[i p]|] eqn:Hfind.
    - destruct (layout g) eqn:Hlay; subst g1; by apply Hidem.
    - subst g1. unfold end_of_hand_cleanup. by rewrite Hfind. }
  split_and!; [| | | |done]; clear Htwice; unfold end_of_hand_cleanup;
    (destruct (list_find _ (players g)) as [[i p]|] eqn:Hfind; [|done]);
    (destruct (layout g) as [|it lay] eqn:Hlay; [done|]);
    apply list_find_Some in Hfind as (Hp%lookup_lt_Some & _ & _);
    destruct ((it :: lay) ≫= item_cards (store g)) as [|c cs] eqn:Hrem.
  - unfold zones. simpl. by rewrite Hlay, Hrem.
  - unfold zones. simpl. rewrite Hlay, Hrem.
    rewrite (hands_alter (capture_cards (c :: cs)) i (players g) (λ _, eq_refl)).
    rewrite (piles_alter (capture_cards (c :: cs)) (c :: cs) i (players g)) by done. solve_Permutation.
  - done.
  - done.
  - done.
  - simpl. apply list_eq. intros j. rewrite !list_lookup_fmap.
    destruct (decide (j = i)) as [->|Hne].
    + rewrite list_lookup_alter_eq. by destruct (players g !! i).
    + by rewrite list_lookup_alter_ne.
  - done.
  - simpl. apply list_eq. intros j. rewrite !list_lookup_fmap.
    destruct (decide (j = i)) as [->|Hne].
    + rewrite list_lookup_alter_eq. by destruct (players g !! i).
    + by rewrite list_lookup_alter_ne.
Qed.

(** X15. [end_of_hand_cleanup] keeps every card and touches neither
    the deck nor a hand nor a [last_capture] mark, whoever is marked and
    whatever lies on the layout; doing it a second time changes
    nothing. *)
Theorem end_of_hand_cleanup_conserves g :
  (zones (end_of_hand_cleanup g) ≡ₚ zones g)
  ∧ deck (end_of_hand_cleanup g) = deck g
  ∧ hand <$> players (end_of_hand_cleanup g) = hand <$> players g
  ∧ last_capture <$> players (end_of_hand_cleanup g) = last_capture <$> players g
  ∧ end_of_hand_cleanup (end_of_hand_cleanup g) = end_of_hand_cleanup g.
Proof. exact (cleanup_keeps g). Qed.

(** ** Rounds *)

Lemma mod_wrap (a i n : nat) :
  (a < n)%nat → (i < n)%nat →
  ((a + i) mod n)%nat = if decide (a + i < n)%nat then (a + i)%nat else (a + i - n)%nat.
Proof.
  intros Ha Hi. case_decide as Hlt.
  - by apply Nat.mod_small.
  - symmetry. apply (Nat.mod_unique _ _ 1); lia.
Qed.

Lemma seat_wrap g i :
  (i < num_players g)%nat →
  seat g i
  = if decide (current_player g mod num_players g + i < num_players g)%nat
    then (current_player g mod num_players g + i)%nat
    else (current_player g mod num_players g + i - num_players g)%nat.
Proof.
  intros Hi. unfold seat. rewrite <- Nat.Div0.add_mod_idemp_l.
  apply mod_wrap; [|done]. apply Nat.mod_upper_bound. lia.
Qed.

Lemma seat_lt g i : num_players g ≠ 0%nat → (seat g i < num_players g)%nat.
Proof. intros Hn. by apply Nat.mod_upper_bound. Qed.

Lemma seats_NoDup g : NoDup (seat g <$> seq 0 (num_players g)).
Proof.
  apply NoDup_fmap_2_strong; [|apply NoDup_seq].
  intros i j [_ Hi]%elem_of_seq [_ Hj]%elem_of_seq.
  pose proof (Nat.mod_upper_bound (current_player g) (num_players g)) as Ha.
  rewrite !seat_wrap by lia. repeat case_decide; lia.
Qed.

Lemma seats_cover g j :
  (j < num_players g)%nat → j ∈ seat g <$> seq 0 (num_players g).
Proof.
  intros Hj. apply list_elem_of_fmap.
  pose proof (Nat.mod_upper_bound (current_player g) (num_players g)) as Ha.
  set (a := (current_player g mod num_players g)%nat) in *.
  exists (if decide (a ≤ j)%nat then (j - a)%nat else (j + num_players g - a)%nat).
  split.
  - rewrite seat_wrap by (case_decide; lia). fold a. repeat case_decide; lia.
  - apply elem_of_seq. case_decide; lia.
Qed.

Lemma sum_list_change (l : list nat) : ∀ l' i x y,
  length l' = length l → l !! i = Some x → l' !! i = Some y →
  (∀ j, j ≠ i → l' !! j = l !! j) →
  (sum_list l' + x = sum_list l + y)%nat.
Proof.
  induction l as [|a l IH]; intros [|b l'] i x y Hlen Hx Hy Hrest; try done.
  change (sum_list (b :: l')) with (b + sum_list l')%nat.
  change (sum_list (a :: l)) with (a + sum_list l)%nat.
  destruct i as [|i]; simplify_eq/=.
  - assert (l' = l) as ->; [|lia]. apply list_eq. intros j.
    apply (Hrest (S j)). lia.
  - assert (b = a) as ->
      by (pose proof (Hrest 0%nat ltac:(lia)) as Hhead; by simplify_eq/=).
    assert (sum_list l' + x = sum_list l + y)%nat; [|lia].
    apply (IH l' i); [lia|done..|]. intros j Hj. apply (Hrest (S j)). lia.
Qed.

(** The hands after a turn that returns, player by player, and the
    lines it has read. *)
Lemma turn_step g pi inp p g' :
  players g !! pi = Some p → hand p ≠ [] →
  layout_wf g → plain_builds_valid g →
  play_turn g pi inp = (g', Returned ()) →
  (is_ai p = false → card_input inp ≠ Eof ∧ action_input inp ≠ Eof)
  ∧ (prompted_cards g = prompted_cards g' + (if is_ai p then 0 else 1))%nat
  ∧ ∀ j q, players g !! j = Some q →
      ∃ q', players g' !! j = Some q' ∧ is_ai q' = is_ai q
        ∧ length (hand q')
          = if decide (j = pi) then pred (length (hand q)) else length (hand q).
Proof.
  intros Hp Hhand Hwf Hval Hrun.
  destruct (turn_invariants g pi inp p g' _ Hp Hhand Hwf Hval Hrun)
    as (_ & _ & Hais & _ & _ & _ & Hlen & Hr).
  destruct Hr as [(_ & _ & Hans)|[(? & _)|(? & _)]]; [|done..].
  split; [done|].
  destruct (turn_hands g pi inp p g' _ Hp Hhand (λ H, proj1 (Hans H)) Hrun)
    as (n & c & Hc & _ & Hhands & _).
  assert (∀ j q, players g !! j = Some q →
            ∃ q', players g' !! j = Some q' ∧ is_ai q' = is_ai q
              ∧ length (hand q')
                = if decide (j = pi) then pred (length (hand q))
                  else length (hand q)) as Hsizes.
  { intros j q Hq.
    apply (f_equal (.!! j)) in Hhands, Hais.
    rewrite !list_lookup_fmap, ?Hq in Hais. rewrite list_lookup_fmap in Hhands.
    destruct (players g' !! j) as [q'|] eqn:Hq'; [|done]. exists q'.
    split; [done|]. split; [by simplify_eq/=|].
    destruct (decide (j = pi)) as [->|Hne].
    - rewrite list_lookup_insert_eq in Hhands
        by (rewrite length_fmap; by eapply lookup_lt_Some).
      assert (q = p) as -> by congruence.
      simplify_eq/=. rewrite Hhands, length_delete by done. lia.
    - rewrite list_lookup_insert_ne, list_lookup_fmap, Hq in Hhands by done.
      simplify_eq/=. by rewrite Hhands. }
  split; [|done].
  destruct (Hsizes pi p Hp) as (p' & Hp' & Hai' & Hlen').
  rewrite decide_True in Hlen' by done.
  assert (length (hand p) ≠ 0)%nat as Hpos by (by destruct (hand p)).
  unfold prompted_cards.
  pose proof (sum_list_change
    ((λ q, if is_ai q then 0%nat else length (hand q)) <$> players g)
    ((λ q, if is_ai q then 0%nat else length (hand q)) <$> players g') pi
    (if is_ai p then 0%nat else length (hand p))
    (if is_ai p' then 0%nat else length (hand p'))) as Hsum.
  rewrite !length_fmap, !list_lookup_fmap, Hp, Hp' in Hsum.
  specialize (Hsum Hlen eq_refl eq_refl).
  assert (∀ j, j ≠ pi →
            ((λ q, if is_ai q then 0%nat else length (hand q)) <$> players g') !! j
            = ((λ q, if is_ai q then 0%nat else length (hand q)) <$> players g) !! j)
    as Hrest.
  { intros j Hj. rewrite !list_lookup_fmap.
    destruct (players g !! j) as [q|] eqn:Hq.
    - destruct (Hsizes j q Hq) as (q' & -> & Hai & Hl). simpl.
      rewrite decide_False in Hl by done. by rewrite Hai, Hl.
    - apply lookup_ge_None in Hq. rewrite <- Hlen in Hq.
      apply lookup_ge_None in Hq. by rewrite Hq. }
  specialize (Hsum Hrest). rewrite Hai' in Hsum.
  destruct (is_ai p); lia.
Qed.

Lemma seated_lookup g i :
  seated g → ∃ p, players g !! seat g i = Some p ∧ players g !!! seat g i = p.
Proof.
  intros [Hn Hps].
  destruct (lookup_lt_is_Some_2 (players g) (seat g i)) as [p Hp].
  { rewrite <- Hn. apply seat_lt. rewrite Hn. by destruct (players g). }
  exists p. split; [done|]. by apply list_lookup_total_correct.
Qed.

Lemma answer_Eof stdin i : answer stdin i = Eof ↔ (length stdin ≤ i)%nat.
Proof.
  unfold answer. destruct (stdin !! i) as [line|] eqn:Hline.
  - split; [done|]. apply lookup_lt_Some in Hline. lia.
  - split; [|done]. intros _. by apply lookup_ge_None.
Qed.

(** The players who move at the offsets [offs], each once. *)
Lemma play_round_run offs : ∀ stdin g g' r,
  seated g → layout_wf g → plain_builds_valid g →
  NoDup (seat g <$> offs) →
  play_round offs stdin g = (g', r) →
  seated g' ∧ num_players g' = num_players g
  ∧ current_player g' = current_player g
  ∧ layout_wf g' ∧ plain_builds_valid g' ∧ deck g' = deck g
  ∧ match r with
    | Returned rest =>
        (zones g' ≡ₚ zones g)
        ∧ (∃ used, stdin = used ++ rest
                   ∧ (2 * prompted_cards g
                      = 2 * prompted_cards g' + length used)%nat)
        ∧ ∀ j q, players g !! j = Some q →
            ∃ q', players g' !! j = Some q' ∧ is_ai q' = is_ai q
              ∧ length (hand q')
                = if decide (j ∈ seat g <$> offs)
                  then pred (length (hand q)) else length (hand q)
    | Raised e =>
        (e = EOFError
         ∧ ((∃ k, length stdin = (2 * k)%nat ∧ (zones g' ≡ₚ zones g))
            ∨ (∃ k, length stdin = (2 * k + 1)%nat
                    ∧ ∃ c, c :: zones g' ≡ₚ zones g)))
        ∨ (e = KeyError ∧ ∃ c, c :: zones g' ≡ₚ zones g)
    end.
Proof.
  induction offs as [|i offs IH]; intros stdin g g' r Hseat Hwf Hval Hnd;
    cbn [play_round].
  { intros [= <- <-]. split_and!; [done..| |].
    - exists []. split; [done|]. simpl. lia.
    - intros j q Hq. exists q. split_and!; [done..|].
      rewrite decide_False; [done|]. rewrite fmap_nil. apply not_elem_of_nil. }
  rewrite fmap_cons in Hnd. apply NoDup_cons in Hnd as [Hfresh Hnd].
  fold (seat g i). cbv zeta.
  destruct (seated_lookup g i Hseat) as (p & Hp & ->).
  destruct (hand p) as [|c0 h0] eqn:Hhand.
  { intros Hrun.
    destruct (IH stdin g g' r Hseat Hwf Hval Hnd Hrun)
      as (? & ? & ? & ? & ? & ? & Hr).
    split_and!; [done..|]. destruct r as [rest|e]; [|done].
    destruct Hr as (? & ? & Hsizes). split_and!; [done..|].
    intros j q Hq. destruct (Hsizes j q Hq) as (q' & Hq' & ? & Hlen).
    exists q'. split_and!; [done..|]. rewrite Hlen, fmap_cons.
    destruct (decide (j = seat g i)) as [->|Hne].
    - assert (q = p) as -> by congruence.
      rewrite decide_False by done. rewrite decide_True by left.
      by rewrite Hhand.
    - apply decide_ext. split; [by right|by intros [?|?]%elem_of_cons]. }
  assert (hand p ≠ []) as Hne by (by rewrite Hhand).
  set (inp := mkTurnInput (answer stdin 0) (answer stdin 1)).
  destruct (play_turn g (seat g i) inp) as [g1 r1] eqn:Hturn.
  destruct (turn_invariants g _ inp p g1 r1 Hp Hne Hwf Hval Hturn)
    as (Hnum & Hcur & _ & Hwf1 & Hval1 & Hdeck1 & Hlen1 & Hr1).
  assert (seated g1) as Hseat1.
  { destruct Hseat as [Hn Hps]. split; [congruence|].
    intros Hnil. rewrite Hnil in Hlen1. destruct (players g); done. }
  destruct Hr1 as [(-> & Hz1 & _)|[(-> & _ & _ & _ & _ & _ & c & _ & _ & Hz1)
                    |(-> & _ & [[Heof ->]|(Hcard & Heof & _ & _ & c & _ & Hz1)])]].
  2:{ intros [= <- <-]. split_and!; [done..|]. right. split; [done|]. by exists c. }
  2:{ intros [= <- <-]. split_and!; [done..|]. left. split; [done|]. left.
      exists 0%nat. split; [|done]. apply answer_Eof in Heof. simpl in *. lia. }
  2:{ intros [= <- <-]. split_and!; [done..|]. left. split; [done|]. right.
      exists 0%nat. split; [|by exists c].
      apply answer_Eof in Heof.
      assert (¬ (length stdin ≤ 0)%nat) by (by rewrite <- answer_Eof).
      simpl in *. lia. }
  destruct (turn_step g _ inp p g1 Hp Hne Hwf Hval Hturn) as (Hans & Hcount1 & Hsizes1).
  assert (∀ k, seat g1 k = seat g k) as Hsame
    by (intros k; unfold seat; by rewrite Hnum, Hcur).
  assert (seat g1 <$> offs = seat g <$> offs) as Hseats
    by (apply list_fmap_ext; intros; apply Hsame).
  assert (NoDup (seat g1 <$> offs)) as Hnd1 by (by rewrite Hseats).
  set (stdin1 := if is_ai p then stdin else drop 2 stdin).
  assert (∃ used1, stdin = used1 ++ stdin1
                   ∧ length used1 = (if is_ai p then 0 else 2)%nat)
    as (used1 & Hstdin & Hused1).
  { unfold stdin1. destruct (is_ai p) eqn:Hai; [by exists []|].
    exists (take 2 stdin). rewrite take_drop. split; [done|].
    destruct (Hans eq_refl) as [_ Hsecond]. rewrite length_take.
    assert (¬ (length stdin ≤ 1)%nat) by (by rewrite <- answer_Eof). lia. }
  intros Hrun.
  destruct (IH stdin1 g1 g' r Hseat1 Hwf1 Hval1 Hnd1 Hrun)
    as (? & ? & ? & ? & ? & ? & Hr).
  split_and!; [done|congruence|congruence|done|done|congruence|].
  destruct r as [rest|e].
  - destruct Hr as (Hz & (used & Hrest & Hcount) & Hsizes).
    split_and!.
    + by rewrite Hz.
    + exists (used1 ++ used). split; [by rewrite Hstdin, Hrest, app_assoc|].
      rewrite length_app, Hused1. destruct (is_ai p); lia.
    + intros j q Hq. destruct (Hsizes1 j q Hq) as (q1 & Hq1 & Hai1 & Hl1).
      destruct (Hsizes j q1 Hq1) as (q' & Hq' & Hai' & Hl).
      exists q'. split_and!; [done|congruence|]. rewrite Hl, Hl1, fmap_cons.
      rewrite Hseats.
      destruct (decide (j = seat g i)) as [->|Hnej].
      * rewrite decide_False by done. by rewrite decide_True by left.
      * apply decide_ext. split; [by right|by intros [?|?]%elem_of_cons].
  - assert (length stdin = (length stdin1 + (if is_ai p then 0 else 2))%nat)
      as Hlen by (rewrite Hstdin at 1; rewrite length_app; lia).
    destruct Hr as [(-> & [(k & Hk & Hz)|(k & Hk & c & Hz)])|(-> & c & Hz)].
    + left. split; [done|]. left. exists (if is_ai p then k else S k).
      split; [destruct (is_ai p); lia|by rewrite Hz].
    + left. split; [done|]. right. exists (if is_ai p then k else S k).
      split; [destruct (is_ai p); lia|]. exists c. by rewrite Hz.
    + right. split; [done|]. exists c. by rewrite Hz.
Qed.

(** A whole round: [play_round] at the offsets [0 .. num_players - 1],
    then the dealer moves on. *)
Lemma play_one_round_run stdin g g' r :
  seated g → layout_wf g → plain_builds_valid g →
  play_one_round stdin g = (g', r) →
  seated g' ∧ num_players g' = num_players g
  ∧ layout_wf g' ∧ plain_builds_valid g' ∧ deck g' = deck g
  ∧ match r with
    | Returned rest =>
        current_player g' = ((current_player g + 1) mod num_players g)%nat
        ∧ (zones g' ≡ₚ zones g)
        ∧ (∃ used, stdin = used ++ rest
                   ∧ (2 * prompted_cards g
                      = 2 * prompted_cards g' + length used)%nat)
        ∧ ∀ j q, players g !! j = Some q →
            ∃ q', players g' !! j = Some q' ∧ is_ai q' = is_ai q
              ∧ length (hand q') = pred (length (hand q))
    | Raised e =>
        (e = EOFError
         ∧ ((∃ k, length stdin = (2 * k)%nat ∧ (zones g' ≡ₚ zones g))
            ∨ (∃ k, length stdin = (2 * k + 1)%nat
                    ∧ ∃ c, c :: zones g' ≡ₚ zones g)))
        ∨ (e = KeyError ∧ ∃ c, c :: zones g' ≡ₚ zones g)
    end.
Proof.
  intros Hseat Hwf Hval. unfold play_one_round.
  destruct (play_round _ stdin g) as [g1 r1] eqn:Hround.
  destruct (play_round_run _ stdin g g1 r1 Hseat Hwf Hval (seats_NoDup g) Hround)
    as (Hseat1 & Hnum & Hcur & Hwf1 & Hval1 & Hdeck1 & Hr1).
  destruct r1 as [rest|e]; intros [= <- <-]; [|done].
  destruct Hr1 as (Hz & Hused & Hsizes).
  split_and!; [done..| | | |]; simpl.
  - by rewrite Hcur, Hnum.
  - done.
  - done.
  - intros j q Hq. destruct (Hsizes j q Hq) as (q' & Hq' & ? & Hlen).
    exists q'. split_and!; [done..|]. rewrite Hlen, decide_True; [done|].
    apply seats_cover. destruct Hseat as [-> _]. by eapply lookup_lt_Some.
Qed.

(** X16. A round of a game with its [num_players] players, when it
    returns, has let every player who held cards play exactly one, in
    seating order from the dealer on: every hand is one card shorter or
    still empty, two lines of standard input were read for every card a
    human player held a turn for and none for the automatic players,
    every card is still there, and the dealer has moved on by one seat.
    A round ends early with [EOFError] when standard input ends, at a
    first prompt (an even number of lines was left, no card is lost) or
    at a second prompt (an odd number, the card played is lost), or with
    the [KeyError] of a chosen augmentation, which costs the played
    card. *)
Theorem round_outcome stdin g g' r :
  seated g → layout_wf g → plain_builds_valid g →
  play_one_round stdin g = (g', r) →
  seated g' ∧ num_players g' = num_players g
  ∧ layout_wf g' ∧ plain_builds_valid g' ∧ deck g' = deck g
  ∧ match r with
    | Returned rest =>
        current_player g' = ((current_player g + 1) mod num_players g)%nat
        ∧ (zones g' ≡ₚ zones g)
        ∧ (∃ used, stdin = used ++ rest
                   ∧ (2 * prompted_cards g
                      = 2 * prompted_cards g' + length used)%nat)
        ∧ ∀ j q, players g !! j = Some q →
            ∃ q', players g' !! j = Some q' ∧ is_ai q' = is_ai q
              ∧ length (hand q') = pred (length (hand q))
    | Raised e =>
        (e = EOFError
         ∧ ((∃ k, length stdin = (2 * k)%nat ∧ (zones g' ≡ₚ zones g))
            ∨ (∃ k, length stdin = (2 * k + 1)%nat
                    ∧ ∃ c, c :: zones g' ≡ₚ zones g)))
        ∨ (e = KeyError ∧ ∃ c, c :: zones g' ≡ₚ zones g)
    end.
Proof. exact (play_one_round_run stdin g g' r). Qed.

(** X16 at work: the first round of the recorded game reads its four
    lines. *)
Lemma round_outcome_witness :
  (seated dealt ∧ layout_wf dealt ∧ plain_builds_valid dealt)
  ∧ ∃ g', play_one_round round_one_inputs dealt = (g', Returned [])
      ∧ (zones g' ≡ₚ zones dealt) ∧ current_player g' = 1%nat
      ∧ prompted_cards dealt = (prompted_cards g' + 2)%nat.
Proof.
  assert (seated dealt) as Hseat.
  { split; [by vm_compute|]. intros Hnil. apply (f_equal length) in Hnil.
    vm_compute in Hnil. discriminate Hnil. }
  assert (∀ h, IBuild h ∉ layout dealt) as Hnone.
  { intros h Hh. set (lay := layout dealt) in Hh. vm_compute in lay. subst lay.
    repeat (apply elem_of_cons in Hh as [Heq|Hh]; [by simplify_eq|]).
    by apply elem_of_nil in Hh. }
  assert (layout_wf dealt) as Hwf by (intros h Hh; by destruct (Hnone h)).
  assert (plain_builds_valid dealt) as Hval by (intros h Hh; by destruct (Hnone h)).
  split; [by split_and!|].
  assert ((play_one_round round_one_inputs dealt).2 = Returned []) as Hres
    by (by vm_compute).
  destruct (play_one_round round_one_inputs dealt) as [g' r] eqn:Hrun.
  simpl in Hres. subst r.
  destruct (round_outcome round_one_inputs dealt g' _ Hseat Hwf Hval Hrun)
    as (_ & _ & _ & _ & _ & Hcur & Hz & (used & Hused & Hcount) & _).
  exists g'. split_and!; [exact eq_refl|exact Hz| |].
  - rewrite Hcur. by vm_compute.
  - rewrite app_nil_r in Hused. subst used.
    change (length round_one_inputs) with 4%nat in Hcount. lia.
Defined.

Lemma check_game_over_spec g :
  check_game_over g = true ↔ ∀ p, p ∈ players g → hand p = [].
Proof.
  unfold check_game_over. rewrite forallb_forall. split.
  - intros Hall p Hp%list_elem_of_In. apply Hall in Hp.
    apply bool_decide_eq_true_1 in Hp. by destruct (hand p).
  - intros Hall p Hp%list_elem_of_In. apply bool_decide_eq_true_2.
    by rewrite (Hall p Hp).
Qed.

Lemma max_list_cons_0 (x : nat) (l : list nat) :
  max_list (x :: l) = 0%nat ↔ x = 0%nat ∧ max_list l = 0%nat.
Proof. change (max_list (x :: l)) with (x `max` max_list l)%nat. lia. Qed.

Lemma longest_hand_0 g : longest_hand g = 0%nat ↔ check_game_over g = true.
Proof.
  rewrite check_game_over_spec. unfold longest_hand.
  induction (players g) as [|p ps IH].
  - split; [|done]. by intros _ p Hp%elem_of_nil.
  - rewrite fmap_cons, max_list_cons_0, IH. split.
    + intros [Hp Hall] p' [Heq|Hp']%elem_of_cons.
      * subst p'. by destruct (hand p).
      * by apply Hall.
    + intros Hall. split.
      * rewrite (Hall p); [done|left].
      * intros p' Hp'. apply Hall. by right.
Qed.

Lemma prompted_cards_0 g : check_game_over g = true → prompted_cards g = 0%nat.
Proof.
  rewrite check_game_over_spec. unfold prompted_cards.
  induction (players g) as [|p ps IH]; intros Hall; [done|].
  rewrite fmap_cons, (Hall p) by left.
  change (sum_list (?x :: ?l)) with (x + sum_list l)%nat.
  rewrite IH by (intros p' Hp'; apply Hall; by right). by destruct (is_ai p).
Qed.

Lemma max_list_pred (l : list nat) : max_list (pred <$> l) = pred (max_list l).
Proof.
  induction l as [|x l IH]; [done|]. rewrite fmap_cons.
  change (max_list (pred x :: (pred <$> l))) with (pred x `max` max_list (pred <$> l))%nat.
  change (max_list (x :: l)) with (x `max` max_list l)%nat. rewrite IH. lia.
Qed.

Lemma longest_hand_round g g' :
  length (players g') = length (players g) →
  (∀ j q, players g !! j = Some q →
     ∃ q', players g' !! j = Some q' ∧ length (hand q') = pred (length (hand q))) →
  longest_hand g' = pred (longest_hand g).
Proof.
  intros Hlen Hsizes. unfold longest_hand. rewrite <- max_list_pred. f_equal.
  apply list_eq. intros j. rewrite !list_lookup_fmap.
  destruct (players g !! j) as [q|] eqn:Hq.
  - destruct (Hsizes j q Hq) as (q' & -> & Hl). simpl. by rewrite Hl.
  - apply lookup_ge_None in Hq. rewrite <- Hlen in Hq.
    apply lookup_ge_None in Hq. by rewrite Hq.
Qed.

(** The loop of rounds ends. *)
Lemma play_rounds_run fuel : ∀ stdin g,
  seated g → layout_wf g → plain_builds_valid g →
  (longest_hand g < fuel)%nat →
  ∃ g' r, play_rounds fuel stdin g = Some (g', r)
    ∧ seated g' ∧ layout_wf g' ∧ plain_builds_valid g' ∧ deck g' = deck g
    ∧ match r with
      | Returned rest =>
          check_game_over g' = true
          ∧ (zones g' ≡ₚ zones g)
          ∧ ∃ used, stdin = used ++ rest
                    ∧ length used = (2 * prompted_cards g)%nat
      | Raised e =>
          (e = EOFError
           ∧ ((∃ k, length stdin = (2 * k)%nat ∧ (zones g' ≡ₚ zones g))
              ∨ (∃ k, length stdin = (2 * k + 1)%nat
                      ∧ ∃ c, c :: zones g' ≡ₚ zones g)))
          ∨ (e = KeyError ∧ ∃ c, c :: zones g' ≡ₚ zones g)
      end.
Proof.
  induction fuel as [|fuel IH]; intros stdin g Hseat Hwf Hval Hfuel; [lia|].
  cbn [play_rounds]. destruct (check_game_over g) eqn:Hover.
  { exists g, (Returned stdin). split_and!; [done..|].
    exists []. split; [done|]. by rewrite prompted_cards_0. }
  destruct (play_one_round stdin g) as [g1 r1] eqn:Hround.
  destruct (play_one_round_run stdin g g1 r1 Hseat Hwf Hval Hround)
    as (Hseat1 & Hnum & Hwf1 & Hval1 & Hdeck1 & Hr1).
  destruct r1 as [rest|e].
  2:{ exists g1, (Raised e). by split_and!. }
  destruct Hr1 as (_ & Hz1 & (used1 & -> & Hcount1) & Hsizes).
  assert (longest_hand g ≠ 0%nat) as Hpos
    by (rewrite longest_hand_0; by rewrite Hover).
  assert (longest_hand g1 < fuel)%nat as Hfuel1.
  { rewrite (longest_hand_round g g1); [lia| |].
    - destruct Hseat as [<- _], Hseat1 as [<- _]. done.
    - intros j q Hq. destruct (Hsizes j q Hq) as (q' & ? & _ & ?). by exists q'. }
  destruct (IH rest g1 Hseat1 Hwf1 Hval1 Hfuel1)
    as (g' & r & Hrun & ? & ? & ? & ? & Hr).
  exists g', r. split_and!; [done..|congruence|].
  destruct r as [rest'|e].
  - destruct Hr as (? & Hz & used & -> & Hused).
    split_and!; [done|by rewrite Hz|].
    exists (used1 ++ used). split; [by rewrite app_assoc|].
    rewrite length_app. lia.
  - assert (∃ k1, length used1 = (2 * k1)%nat) as (k1 & Hk1)
      by (exists (prompted_cards g - prompted_cards g1)%nat; lia).
    rewrite length_app, Hk1.
    destruct Hr as [(-> & [(k & Hk & Hz)|(k & Hk & c & Hz)])|(-> & c & Hz)].
    + left. split; [done|]. left. exists (k1 + k)%nat.
      split; [lia|by rewrite Hz].
    + left. split; [done|]. right. exists (k1 + k)%nat.
      split; [lia|]. exists c. by rewrite Hz.
    + right. split; [done|]. exists c. by rewrite Hz.
Qed.

(** X17. The loop of rounds of [play_full_game] ends, after at most
    as many rounds as the longest hand has cards.  When it returns, all
    hands are empty, every card is still there and exactly two lines of
    standard input were read for each card that was in the hand of a
    human player, none for the automatic players.  Otherwise it has
    ended with [EOFError], at a first prompt with every card still there
    or at a second with the played card lost, or with the [KeyError] of
    a chosen augmentation. *)
Theorem play_rounds_ends fuel stdin g :
  seated g → layout_wf g → plain_builds_valid g →
  (longest_hand g < fuel)%nat →
  ∃ g' r, play_rounds fuel stdin g = Some (g', r)
    ∧ seated g' ∧ layout_wf g' ∧ plain_builds_valid g' ∧ deck g' = deck g
    ∧ match r with
      | Returned rest =>
          check_game_over g' = true
          ∧ (zones g' ≡ₚ zones g)
          ∧ ∃ used, stdin = used ++ rest
                    ∧ length used = (2 * prompted_cards g)%nat
      | Raised e =>
          (e = EOFError
           ∧ ((∃ k, length stdin = (2 * k)%nat ∧ (zones g' ≡ₚ zones g))
              ∨ (∃ k, length stdin = (2 * k + 1)%nat
                      ∧ ∃ c, c :: zones g' ≡ₚ zones g)))
          ∨ (e = KeyError ∧ ∃ c, c :: zones g' ≡ₚ zones g)
      end.
Proof. exact (play_rounds_run fuel stdin g). Qed.

(** X17 at work: two automatic players on the layout of scenario A
    play the hand out without a line of standard input. *)
Lemma play_rounds_ends_witness :
  (seated automatic_game ∧ (longest_hand automatic_game < 3)%nat)
  ∧ ∃ g', play_rounds 3 [] automatic_game = Some (g', Returned [])
      ∧ check_game_over g' = true ∧ (zones g' ≡ₚ zones automatic_game).
Proof.
  assert (seated automatic_game) as Hseat by (split; [reflexivity|done]).
  assert (longest_hand automatic_game < 3)%nat as Hfuel by (vm_compute; lia).
  assert (∀ h, IBuild h ∉ layout automatic_game) as Hnone.
  { intros h Hh. simpl in Hh.
    repeat (apply elem_of_cons in Hh as [Heq|Hh]; [by simplify_eq|]).
    by apply elem_of_nil in Hh. }
  assert (layout_wf automatic_game) as Hwf by (intros h Hh; by destruct (Hnone h)).
  assert (plain_builds_valid automatic_game) as Hval
    by (intros h Hh; by destruct (Hnone h)).
  split; [done|].
  destruct (play_rounds_ends 3 [] automatic_game Hseat Hwf Hval Hfuel)
    as (g' & r & Hrun & _ & _ & _ & _ & Hr).
  assert (r = Returned []) as ->.
  { vm_compute in Hrun. by injection Hrun as _ <-. }
  destruct Hr as (Hover & Hz & _). by exists g'.
Defined.

(** ** A whole hand *)

Lemma cleanup_layout g :
  layout (end_of_hand_cleanup g) = []
  ∨ (end_of_hand_cleanup g = g ∧ ∀ p, p ∈ players g → last_capture p = false).
Proof.
  unfold end_of_hand_cleanup.
  destruct (list_find _ (players g)) as [[i p]|] eqn:Hfind.
  - left. by destruct (layout g) eqn:Hlay.
  - right. split; [done|]. apply list_find_None in Hfind.
    rewrite Forall_forall in Hfind. intros p Hp. specialize (Hfind p Hp).
    by destruct (last_capture p).
Qed.

Lemma prompted_cards_human g :
  (∀ p, p ∈ players g → is_ai p = false) → prompted_cards g = hand_cards g.
Proof.
  unfold prompted_cards, hand_cards.
  induction (players g) as [|p ps IH]; intros Hall; [done|].
  rewrite fmap_cons, bind_cons, length_app, (Hall p) by left.
  change (sum_list (?x :: ?l)) with (x + sum_list l)%nat.
  rewrite IH; [done|]. intros q Hq. apply Hall. by right.
Qed.

(** X18. A hand from the constructor to the end: a game for 2, 3 or 4
    players on any shuffle of the deck is set up, the rounds are played
    until the hands are empty, which takes no more rounds than a hand
    has cards, and the layout is cleaned up.  When the rounds return,
    two lines of standard input were read for every card dealt, the deck
    and all hands are empty, and every card of the deck is, once, in a
    capture pile or on the layout; the layout is empty unless no player
    is marked as the last to capture.  The rounds can only fail with
    [EOFError] or with the [KeyError] of a chosen augmentation. *)
Theorem full_hand (use_40_card_deck : bool) n parts shuffled inputs fuel :
  shuffled ≡ₚ fresh_deck use_40_card_deck → n ∈ [2; 3; 4]%nat →
  ((length (fresh_deck use_40_card_deck) - 4) / n < fuel)%nat →
  ∃ g g1 g2 r,
    new_game n parts shuffled = Returned g
    ∧ setup_game g = (g1, Returned ())
    ∧ play_rounds fuel inputs g1 = Some (g2, r)
    ∧ match r with
      | Returned rest =>
          conserved use_40_card_deck (end_of_hand_cleanup g2)
          ∧ deck (end_of_hand_cleanup g2) = []
          ∧ (∀ p, p ∈ players (end_of_hand_cleanup g2) → hand p = [])
          ∧ length inputs
            = (length rest + 2 * (length (fresh_deck use_40_card_deck) - 4))%nat
          ∧ (layout (end_of_hand_cleanup g2) = []
             ∨ ∀ p, p ∈ players (end_of_hand_cleanup g2) → last_capture p = false)
      | Raised e => e = EOFError ∨ e = KeyError
      end.
Proof.
  intros Hshuffle Hn Hfuel.
  destruct (fresh_game_run use_40_card_deck n parts shuffled Hshuffle Hn)
    as (g & g1 & Hnew & Hsetup & Hcons & Hdeck & _ & _ & Hfresh & Hseat & Hwf & Hval
        & Hlong & Hcards & Hhuman).
  destruct (play_rounds_run fuel inputs g1 Hseat Hwf Hval)
    as (g2 & r & Hrun & _ & _ & _ & Hdeck2 & Hr); [lia|].
  exists g, g1, g2, r. split_and!; [done..|].
  destruct r as [rest|e]; [|destruct Hr as [[-> _]|[-> _]]; [by left|by right]].
  destruct Hr as (Hover & Hz & used & -> & Hused).
  rewrite (prompted_cards_human g1 Hhuman), Hcards in Hused.
  destruct (cleanup_keeps g2) as (Hzc & Hdeckc & Hhandsc & Hmarks & _).
  split_and!.
  - unfold conserved in *. by rewrite Hzc, Hz.
  - congruence.
  - intros p (i & Hp)%list_elem_of_lookup_1.
    apply (f_equal (.!! i)) in Hhandsc. rewrite !list_lookup_fmap, Hp in Hhandsc.
    destruct (players g2 !! i) as [q|] eqn:Hq; [|done].
    injection Hhandsc as ->. rewrite check_game_over_spec in Hover.
    apply Hover. by eapply list_elem_of_lookup_2.
  - rewrite length_app. lia.
  - destruct (cleanup_layout g2) as [?|[Hsame Hnone]]; [by left|right].
    by rewrite Hsame.
Qed.

(** X18 at work: two players, the 40 cards of the recorded game, and
    no input at all: the first turn ends in [EOFError]. *)
Lemma full_hand_witness :
  ∃ g g1 g2,
    new_game 2 None shuffled_deck = Returned g
    ∧ setup_game g = (g1, Returned ())
    ∧ play_rounds 19 [] g1 = Some (g2, Raised EOFError).
Proof.
  assert (shuffled_deck ≡ₚ fresh_deck true) as Hshuffle
    by (apply (bool_decide_unpack _); by vm_compute).
  assert (2%nat ∈ [2; 3; 4]%nat) as Hn by left.
  assert ((length (fresh_deck true) - 4) / 2 < 19)%nat as Hfuel by (vm_compute; lia).
  destruct (full_hand true 2 None shuffled_deck [] 19 Hshuffle Hn Hfuel)
    as (g & g1 & g2 & r & Hnew & Hsetup & Hrun & Hr).
  exists g, g1, g2. split_and!; [done..|].
  destruct r as [rest|e].
  - destruct Hr as (_ & _ & _ & Hlen & _).
    change (length (fresh_deck true) - 4)%nat with 36%nat in Hlen.
    cbn [length] in Hlen. lia.
  - destruct Hr as [-> | ->]; [done|].
    injection Hnew as <-. vm_compute in Hsetup. injection Hsetup as <-.
    vm_compute in Hrun. discriminate Hrun.
Defined.

(** ** Scores without partnerships *)

Lemma solo_player_key g i : partnerships g = None → player_key g i = Returned (KSolo i).
Proof.
  intros Hsolo. unfold player_key, is_partnership_game. rewrite Hsolo.
  by rewrite bool_decide_eq_false_2 by (by intros ?).
Qed.

Lemma solo_scores g :
  partnerships g = None → players g ≠ [] →
  ∃ sc t base,
    calculate_scores g = Returned sc
    ∧ tally g = Returned t ∧ majority_awards g t = Returned base
    ∧ length sc = length (players g) ∧ length base = length (players g)
    ∧ ∀ pid p, players g !! pid = Some p →
               sc !!! pid = base !!! pid + special_points p.
Proof.
  intros Hsolo Hne.
  destruct (tally_returns g (length (players g)) (imap pair (players g)))
    with (t := mkTally [] [] []) as (t & Ht & (Hcc & Hsc & Hsp) & Hnonempty).
  { apply Forall_forall. intros ip (i & p & -> & Hp)%elem_of_lookup_imap.
    exists (KSolo i). split; [by apply solo_player_key|]. repeat constructor.
    by eapply lookup_lt_Some. }
  { repeat split; constructor. }
  destruct Hnonempty as [Hcne Hsne].
  { left. by destruct (players g). }
  assert (∃ base, majority_awards g t = Returned base) as (base & Hbase).
  { unfold majority_awards. case_decide; [|by eexists].
    destruct (award_returns (card_counts t) (replicate (length (players g)) 0))
      as (sc1 & -> & Hlen1); [done|by rewrite length_replicate|].
    cbn [mbind Outcome_bind].
    destruct (award_returns (spade_counts t) sc1) as (sc2 & -> & _);
      [done|by rewrite Hlen1, length_replicate|]. by eexists. }
  pose proof (majority_awards_length g t base Hbase) as Hblen.
  destruct (add_special_returns (special_scores t) base) as (sc & Hsc');
    [by rewrite Hblen|].
  assert (calculate_scores g = Returned sc) as Hcalc.
  { unfold calculate_scores. fold (tally g) in Ht. rewrite Ht. cbn [mbind Outcome_bind].
    rewrite Hbase. done. }
  exists sc, t, base.
  destruct (calculate_scores_parts g sc Hcalc)
    as (keys & t' & base' & Ht' & Hbase' & Hkeys & Hlen & Hval).
  fold (tally g) in Ht. assert (t' = t) as -> by congruence.
  assert (base' = base) as -> by congruence.
  split_and!; [done..|]. intros pid p Hp. specialize (Hval pid).
  by rewrite (solo_keys g (players g) keys Hsolo Hkeys), special_share_solo, Hp in Hval.
Qed.

(** X19. Without partnerships a game of three or four players gives no
    majority award at all: every player's score is the player's special
    points, the two of spades, the ten of diamonds and the captured
    Aces. *)
Theorem scores_without_majorities g :
  partnerships g = None → num_players g ≠ 2%nat → players g ≠ [] →
  calculate_scores g = Returned (special_points <$> players g).
Proof.
  intros Hsolo Hn Hne.
  destruct (solo_scores g Hsolo Hne) as (sc & t & base & -> & _ & Hbase & Hlen & _ & Hval).
  f_equal. unfold majority_awards, is_partnership_game in Hbase.
  rewrite Hsolo in Hbase.
  rewrite (bool_decide_eq_false_2 (None ≠ None)) in Hbase by (by intros ?).
  rewrite (bool_decide_eq_false_2 (num_players g = 2%nat)) in Hbase by done.
  simpl in Hbase.
  injection Hbase as <-.
  apply list_eq. intros pid. rewrite list_lookup_fmap.
  destruct (players g !! pid) as [p|] eqn:Hp.
  - apply lookup_lt_Some in Hp as Hlt.
    rewrite (list_lookup_lookup_total_lt sc pid) by lia.
    rewrite (Hval pid p Hp), lookup_total_replicate_2 by done. simpl; f_equal; lia.
  - apply lookup_ge_None in Hp. rewrite lookup_ge_None_2 by lia. done.
Qed.

(** X19 at work: the two players of the scoring example in a game
    made for three. *)
Lemma scores_without_majorities_witness :
  calculate_scores (mkGame 3 None [] (players scoring_game) [] [] 0)
  = Returned [3; 1].
Proof.
  by rewrite (scores_without_majorities (mkGame 3 None [] (players scoring_game) [] [] 0)).
Defined.

Lemma award_two a b x y :
  award [(KSolo 0, a); (KSolo 1, b)] [x; y]
  = Returned [x + majority a b; y + majority b a].
Proof.
  unfold award, max_count, majority. cbn [mbind Outcome_bind fmap list_fmap foldl snd].
  rewrite !filter_cons, filter_nil. cbn [snd].
  destruct (Z.max_spec a b) as [[Hlt ->]|[Hle ->]]; repeat case_decide; try lia;
    unfold credit, score_add; cbn; rewrite ?Z.add_0_r; done.
Qed.

Lemma tally_player_counts g t id p t' :
  tally_player g t (id, p) = Returned t' →
  ∃ key, player_key g id = Returned key
    ∧ card_counts t' = dd_add key (count_cards p) (card_counts t)
    ∧ spade_counts t' = dd_add key (count_spades p) (spade_counts t).
Proof.
  unfold tally_player. destruct (player_key g id) as [key|]; simpl; [|done].
  intros [= <-]. by exists key.
Qed.

Lemma tally_two g p0 p1 t :
  partnerships g = None → players g = [p0; p1] → tally g = Returned t →
  card_counts t = [(KSolo 0, 0 + count_cards p0); (KSolo 1, 0 + count_cards p1)]
  ∧ spade_counts t = [(KSolo 0, 0 + count_spades p0); (KSolo 1, 0 + count_spades p1)].
Proof.
  intros Hsolo Hps. unfold tally. rewrite Hps.
  change (imap pair [p0; p1]) with [(0%nat, p0); (1%nat, p1)]. cbn [for_each].
  destruct (tally_player g _ (0%nat, p0)) as [t0|] eqn:H0; [|done].
  cbn [mbind Outcome_bind].
  destruct (tally_player g t0 (1%nat, p1)) as [t1|] eqn:H1; [|done].
  cbn [mbind Outcome_bind]. intros [= <-].
  apply tally_player_counts in H0 as (k0 & Hk0 & Hc0 & Hs0).
  apply tally_player_counts in H1 as (k1 & Hk1 & Hc1 & Hs1).
  rewrite solo_player_key in Hk0, Hk1 by done. simplify_eq.
  rewrite Hc1, Hc0, Hs1, Hs0. cbn [dd_add card_counts spade_counts].
  by rewrite !decide_False by done.
Qed.

(** X20. The score of a two-player game without partnerships in
    closed form: for the cards and again for the spades in the capture
    piles a player gets two points with more than the opponent and one
    with as many, and to this come the player's special points. *)
Theorem two_player_scores g p0 p1 :
  partnerships g = None → num_players g = 2%nat → players g = [p0; p1] →
  calculate_scores g
  = Returned
      [majority (count_cards p0) (count_cards p1)
       + majority (count_spades p0) (count_spades p1) + special_points p0;
       majority (count_cards p1) (count_cards p0)
       + majority (count_spades p1) (count_spades p0) + special_points p1].
Proof.
  intros Hsolo Hn Hps.
  destruct (solo_scores g Hsolo) as (sc & t & base & -> & Ht & Hbase & Hlen & _ & Hval);
    [by rewrite Hps|].
  destruct (tally_two g p0 p1 t Hsolo Hps Ht) as [Hcc Hsc].
  unfold majority_awards in Hbase.
  rewrite (bool_decide_eq_true_2 (num_players g = 2%nat)), orb_true_r in Hbase by done.
  rewrite decide_True, Hcc, Hsc, Hps in Hbase by done.
  cbn [length replicate] in Hbase. rewrite award_two in Hbase.
  cbn [mbind Outcome_bind] in Hbase. rewrite award_two in Hbase.
  injection Hbase as <-. rewrite Hps in Hlen, Hval.
  pose proof (Hval 0%nat p0 eq_refl) as H0. pose proof (Hval 1%nat p1 eq_refl) as H1.
  destruct sc as [|s0 [|s1 [|s2 sc]]]; try done. cbn in H0, H1.
  by rewrite H0, H1, !Z.add_0_l.
Qed.

(** X20 at work: the scoring example once more. *)
Lemma two_player_scores_witness : calculate_scores scoring_game = Returned [5; 3].
Proof.
  by rewrite (two_player_scores scoring_game _ _ eq_refl eq_refl eq_refl).
Defined.
